(** * Shogi rules engine of codex/app.js: a shallow embedding and its properties

    The engine part of [codex/app.js] (lines 11-293) is embedded function by
    function: the piece catalogue, the per-piece move generator
    [genPseudoMoves], the check test ([findKing], [attacksSquare], [isCheck]),
    the move applier [makeMove], the drop generator [genDrops] and the
    legality filter [legalMoves].

    Conventions.
    - Coordinates and hand counts are JavaScript numbers that only ever hold
      integers here; they are [Z].
    - A piece object [{t, p, pr}] is a record; piece objects are never
      mutated by the engine, so they are values.
    - The board is an array of nine row arrays of nine cells, each [null] or a
      piece: [list (list (option Piece))].
    - A hand is a JavaScript object used as a map from piece letter to count,
      where a key may be absent: [gmap PieceType Z].
    - The functions are defined on every list of rows; they follow the source
      on the boards of nine rows of nine cells ([wf_board]), which are the
      boards the engine builds: [startPosition] is one and [makeMove] keeps
      the shape. *)

From Stdlib Require Import ZArith Lia List Bool Sorted.
From stdpp Require Import base option list gmap sorting strings.

Set Warnings "-clear-no-such-hyp".

Open Scope Z_scope.

(** ** Pieces, sides, moves *)

Definition BOARD_SIZE : Z := 9.

(** [const B = 'b'] (Sente) and [const W = 'w'] (Gote). *)
Inductive Side := B | W.

(** [TYPES = ['K','R','B','G','S','N','L','P']]; the letters are prefixed
    because [B] is also the name of a side and [S], [N] are taken. *)
Inductive PieceType := tK | tR | tB | tG | tS | tN | tL | tP.

Definition TYPES : list PieceType := [tK; tR; tB; tG; tS; tN; tL; tP].

#[global] Instance Side_eq_dec : EqDecision Side.
Proof. solve_decision. Defined.

#[global] Instance PieceType_eq_dec : EqDecision PieceType.
Proof. solve_decision. Defined.

Definition PieceType_code (ty : PieceType) : positive :=
  match ty with
  | tK => 1 | tR => 2 | tB => 3 | tG => 4
  | tS => 5 | tN => 6 | tL => 7 | tP => 8
  end%positive.

Definition PieceType_of_code (n : positive) : option PieceType :=
  match n with
  | 1 => Some tK | 2 => Some tR | 3 => Some tB | 4 => Some tG
  | 5 => Some tS | 6 => Some tN | 7 => Some tL | 8 => Some tP
  | _ => None
  end%positive.

#[global] Program Instance PieceType_countable : Countable PieceType :=
  {| encode := PieceType_code; decode := PieceType_of_code |}.
Next Obligation. by intros []. Qed.

(** [PROMOTABLE = new Set(['R','B','S','N','L','P'])] *)
Definition PROMOTABLE (ty : PieceType) : bool :=
  match ty with
  | tR | tB | tS | tN | tL | tP => true
  | tK | tG => false
  end.

(** [PROMOTES_TO_GOLD = new Set(['S','N','L','P'])] *)
Definition PROMOTES_TO_GOLD (ty : PieceType) : bool :=
  match ty with
  | tS | tN | tL | tP => true
  | _ => false
  end.

(** A piece object [{t, p, pr}]. *)
Record Piece := mkPiece { t : PieceType; p : Side; pr : bool }.

#[global] Instance Piece_eq_dec : EqDecision Piece.
Proof. solve_decision. Defined.

Abbreviation Square := (Z * Z)%type.

(** A move object: [{from, to, promote}] or [{drop:true, dropType, to}]. *)
Inductive Move :=
| BoardMove (from to : Square) (promote : bool)
| DropMove (dropType : PieceType) (to : Square).

#[global] Instance Move_eq_dec : EqDecision Move.
Proof. solve_decision. Defined.

(** A move before the promotion flag is attached: [{from, to}]. *)
Abbreviation RawMove := (Square * Square)%type.

(** Directions for Sente, facing up (row decreases): the [DIRS] table at the
    keys the engine looks up ([DIRS[piece.t]] and [DIRS.G]). *)
Definition DIRS (ty : PieceType) : list (Z * Z) :=
  match ty with
  | tK => [(-1,-1);(-1,0);(-1,1);(0,-1);(0,1);(1,-1);(1,0);(1,1)]
  | tG => [(-1,-1);(-1,0);(-1,1);(0,-1);(0,1);(1,0)]
  | tS => [(-1,-1);(-1,0);(-1,1);(1,-1);(1,1)]
  | tN => [(-2,-1);(-2,1)]
  | tL => [(-1,0)]
  | tP => [(-1,0)]
  | tR => [(-1,0);(1,0);(0,-1);(0,1)]
  | tB => [(-1,-1);(-1,1);(1,-1);(1,1)]
  end.

(** [SLIDERS = new Set(['R','B','L','+R','+B'])], tested on [piece.t], which
    is never one of the [+] keys. *)
Definition SLIDERS (ty : PieceType) : bool :=
  match ty with
  | tR | tB | tL => true
  | _ => false
  end.

Definition inBounds (r c : Z) : bool :=
  (0 <=? r) && (r <? BOARD_SIZE) && (0 <=? c) && (c <? BOARD_SIZE).

Definition enemy (of_ : Side) : Side :=
  match of_ with B => W | W => B end.

Definition rotateFor (player : Side) (dr dc : Z) : Z * Z :=
  match player with B => (dr, dc) | W => (- dr, - dc) end.

Definition isPromotionZone (player : Side) (row : Z) : bool :=
  match player with B => row <=? 2 | W => 6 <=? row end.

Definition mustPromote (piece : Piece) (toRow : Z) : bool :=
  match t piece with
  | tP | tL =>
      match p piece with B => toRow =? 0 | W => toRow =? 8 end
  | tN =>
      match p piece with B => toRow <=? 1 | W => 7 <=? toRow end
  | _ => false
  end.

Definition promotePiece (piece : Piece) : Piece :=
  if negb (PROMOTABLE (t piece)) then piece
  else match t piece with
       | tR => {| t := t piece; p := p piece; pr := true |}
       | tB => {| t := t piece; p := p piece; pr := true |}
       | _ => if PROMOTES_TO_GOLD (t piece)
              then {| t := t piece; p := p piece; pr := true |}
              else piece
       end.

(** When captured, demote and change owner. *)
Definition demote (piece : Piece) : Piece :=
  {| t := t piece; p := enemy (p piece); pr := false |}.

Definition goldLikeDirs : list (Z * Z) := DIRS tG.

Definition dirsFor (piece : Piece) : list (Z * Z) :=
  if pr piece then
    match t piece with
    | tR => DIRS tR
    | tB => DIRS tB
    | _ => goldLikeDirs
    end
  else DIRS (t piece).

Definition isSlider (piece : Piece) : bool :=
  if pr piece && (bool_decide (t piece = tR) || bool_decide (t piece = tB))
  then true
  else SLIDERS (t piece).

(** ** Board *)

Abbreviation Board := (list (list (option Piece))).

(** [board[r][c]], read as a truthy-or-not cell: [None] for [null] and for
    what lies outside the arrays. *)
Definition cellAt (board : Board) (r c : Z) : option Piece :=
  if (0 <=? r) && (0 <=? c) then
    match board !! Z.to_nat r with
    | Some row => match row !! Z.to_nat c with
                  | Some x => x
                  | None => None
                  end
    | None => None
    end
  else None.

(** The grid the engine works on: nine rows of nine cells. *)
Definition wf_board (board : Board) : Prop :=
  length board = 9%nat ∧ Forall (λ row, length row = 9%nat) board.

(** The index range of [for(let i=0;i<BOARD_SIZE;i++)]. *)
Definition indices : list Z := seqZ 0 BOARD_SIZE.

(** The squares in the order of the nested loops over [r] and [c]. *)
Definition squares : list Square :=
  r ← indices; c ← indices; [(r, c)].

Definition startRow (side : Side) (l : list (option PieceType)) :
    list (option Piece) :=
  map (λ x, match x with
            | Some ty => Some {| t := ty; p := side; pr := false |}
            | None => None
            end) l.

Definition backRank : list (option PieceType) :=
  [Some tL; Some tN; Some tS; Some tG; Some tK; Some tG; Some tS; Some tN; Some tL].

Definition emptyRow : list (option Piece) := replicate 9 None.

Definition startPosition : Board :=
  [ startRow W backRank;
    startRow W [None; Some tR; None; None; None; None; None; Some tB; None];
    replicate 9 (Some {| t := tP; p := W; pr := false |});
    emptyRow; emptyRow; emptyRow;
    replicate 9 (Some {| t := tP; p := B; pr := false |});
    startRow B [None; Some tB; None; None; None; None; None; Some tR; None];
    startRow B backRank ].

(** ** The per-piece move generator *)

Section Generator.
Variable board : Board.
Variable piece : Piece.
Variables r c : Z.

(** The closure [tryPush]: the moves it pushes and the flag it returns. *)
Definition tryPush (rr cc : Z) : list RawMove * bool :=
  if negb (inBounds rr cc) then ([], false)
  else match cellAt board rr cc with
       | None => ([((r, c), (rr, cc))], true)
       | Some target =>
           if bool_decide (p target ≠ p piece)
           then ([((r, c), (rr, cc))], false)
           else ([], false)
       end.

(** [while(true){ if(!tryPush(rr,cc)) break; rr+=dr; cc+=dc; }], with the
    number of iterations bounded by [fuel]. *)
Fixpoint slide (fuel : nat) (dr dc rr cc : Z) : list RawMove :=
  match fuel with
  | O => []
  | S fuel' =>
      let '(ms, go) := tryPush rr cc in
      if go then ms ++ slide fuel' dr dc (rr + dr) (cc + dc) else ms
  end.

(** The one-step additions of the dragon and the horse. *)
Definition kingStep (d : Z * Z) : list RawMove :=
  let rr := r + d.1 in
  let cc := c + d.2 in
  if inBounds rr cc &&
     match cellAt board rr cc with
     | None => true
     | Some target => bool_decide (p target ≠ p piece)
     end
  then [((r, c), (rr, cc))] else [].

(** Add promotion choices (flag only). *)
Definition promotionChoices (m : RawMove) : list Move :=
  let tr := m.2.1 in
  if PROMOTABLE (t piece) then
    let enters := isPromotionZone (p piece) tr || isPromotionZone (p piece) r in
    let forced := mustPromote piece tr in
    if forced then [BoardMove m.1 m.2 true]
    else if enters then [BoardMove m.1 m.2 true; BoardMove m.1 m.2 false]
    else [BoardMove m.1 m.2 false]
  else [BoardMove m.1 m.2 false].

(** The moves pushed by the loop over the directions and by the two
    additions for promoted rook and bishop, the slider loops running on
    [fuel]. *)
Definition rawMovesWith (fuel : nat) : list RawMove :=
  let baseDirs := map (λ d, rotateFor (p piece) d.1 d.2) (dirsFor piece) in
  let sliding := isSlider piece in
  let moves1 :=
    d ← baseDirs;
    if sliding then slide fuel d.1 d.2 (r + d.1) (c + d.2)
    else (tryPush (r + d.1) (c + d.2)).1 in
  let moves2 :=
    if pr piece && bool_decide (t piece = tR)
    then map (λ d, rotateFor (p piece) d.1 d.2) [(-1,-1);(-1,1);(1,-1);(1,1)]
           ≫= kingStep
    else [] in
  let moves3 :=
    if pr piece && bool_decide (t piece = tB)
    then map (λ d, rotateFor (p piece) d.1 d.2) [(-1,0);(1,0);(0,-1);(0,1)]
           ≫= kingStep
    else [] in
  moves1 ++ moves2 ++ moves3.

(** A ray has left the grid after [BOARD_SIZE] steps at the latest
    ([rawMoves_fuel]). *)
Definition rawMoves : list RawMove := rawMovesWith (Z.to_nat BOARD_SIZE).
End Generator.

Definition genPseudoMoves (board : Board) (r c : Z) : list Move :=
  match cellAt board r c with
  | None => []
  | Some piece => rawMoves board piece r c ≫= promotionChoices piece r
  end.

(** ** Check *)

(** The first square, in loop order, holding [player]'s king; [None] for the
    [null] returned when the loops find none. *)
Definition findKing (board : Board) (player : Side) : option Square :=
  List.find (λ sq, match cellAt board sq.1 sq.2 with
                   | Some pc => bool_decide (p pc = player) && bool_decide (t pc = tK)
                   | None => false
                   end) squares.

Definition moveTo (m : Move) : Square :=
  match m with
  | BoardMove _ to _ => to
  | DropMove _ to => to
  end.

(** Generate all pseudo moves of the attacker side and see if any hits
    [(tr, tc)]. *)
Definition attacksSquare (board : Board) (attacker : Side) (tr tc : Z) : bool :=
  existsb (λ sq,
    match cellAt board sq.1 sq.2 with
    | Some pc =>
        bool_decide (p pc = attacker) &&
        existsb (λ m, ((moveTo m).1 =? tr) && ((moveTo m).2 =? tc))
                (genPseudoMoves board sq.1 sq.2)
    | None => false
    end) squares.

Definition isCheck (board : Board) (player : Side) : bool :=
  match findKing board player with
  | None => false
  | Some kpos => attacksSquare board (enemy player) kpos.1 kpos.2
  end.

(** ** Positions and the move applier *)

(** The [hands] object [{b: {...}, w: {...}}]. *)
Record Hands := mkHands { hands_b : gmap PieceType Z; hands_w : gmap PieceType Z }.

Record State := mkState { board : Board; hands : Hands; turn : Side }.

(** [hands[side]] *)
Definition handOf (hs : Hands) (side : Side) : gmap PieceType Z :=
  match side with B => hands_b hs | W => hands_w hs end.

(** [hands[side][ty] = n] *)
Definition setHand (hs : Hands) (side : Side) (ty : PieceType) (n : Z) : Hands :=
  match side with
  | B => {| hands_b := <[ty := n]> (hands_b hs); hands_w := hands_w hs |}
  | W => {| hands_b := hands_b hs; hands_w := <[ty := n]> (hands_w hs) |}
  end.

(** [hand[ty]||0] *)
Definition countOf (hand : gmap PieceType Z) (ty : PieceType) : Z :=
  match hand !! ty with
  | Some n => if n =? 0 then 0 else n
  | None => 0
  end.

(** [board[r][c] = v] for a square of the grid. [None] when the square is not
    one: the source then raises a TypeError (no such row) or grows the row
    array past nine cells (no such column), and what it builds is not a board
    any more. *)
Definition setCell (board : Board) (r c : Z) (v : option Piece) : option Board :=
  if inBounds r c then
    row ← board !! Z.to_nat r;
    if decide (Z.to_nat c < length row)%nat
    then Some (<[Z.to_nat r := <[Z.to_nat c := v]> row]> board)
    else None
  else None.

(** [makeMove(state, move)]: the function works on [deepClone(state)], so the
    argument is read only and the result is a value of its own (see the store
    model below, where the clone is explicit).

    [None] stands for a move that does not address the position: a square off
    the grid (see [setCell]) or a board move from an empty square, where the
    source spreads [null] into an object without type and owner. Every
    generated move addresses the position ([genAllPseudo_makeMove]). *)
Definition makeMove (state : State) (move : Move) : option State :=
  match move with
  | DropMove ty (r, c) =>
      board1 ← setCell (board state) r c
                 (Some {| t := ty; p := turn state; pr := false |});
      let hands1 :=
        setHand (hands state) (turn state) ty
                (countOf (handOf (hands state) (turn state)) ty - 1) in
      Some {| board := board1; hands := hands1; turn := enemy (turn state) |}
  | BoardMove (fr, fc) (tr, tc) promote =>
      piece ← (if inBounds fr fc then cellAt (board state) fr fc else None);
      let moving := piece in
      let captured := cellAt (board state) tr tc in
      let hands1 :=
        match captured with
        | Some cp =>
            let d := demote cp in
            setHand (hands state) (turn state) (t d)
                    (countOf (handOf (hands state) (turn state)) (t d) + 1)
        | None => hands state
        end in
      let moving := if promote then promotePiece moving else moving in
      board1 ← setCell (board state) tr tc (Some moving);
      board2 ← setCell board1 fr fc None;
      Some {| board := board2; hands := hands1; turn := enemy (turn state) |}
  end.

(** ** Drops and legal moves *)

Definition hasUnpromotedPawnOnFile (board : Board) (player : Side) (file : Z) : bool :=
  existsb (λ r,
    match cellAt board r file with
    | Some pc => bool_decide (p pc = player) && bool_decide (t pc = tP) && negb (pr pc)
    | None => false
    end) indices.

(** [(turn===B && r===0) || (turn===W && r===8)] *)
Definition lastRank (turn : Side) (r : Z) : bool :=
  match turn with B => r =? 0 | W => r =? 8 end.

(** [(turn===B && r<=1) || (turn===W && r>=7)] *)
Definition lastTwoRanks (turn : Side) (r : Z) : bool :=
  match turn with B => r <=? 1 | W => 7 <=? r end.

Definition genDrops (state : State) : list Move :=
  ty ← TYPES;
  let count := countOf (handOf (hands state) (turn state)) ty in
  if count =? 0 then []
  else
    sq ← squares;
    let '(r, c) := sq in
    if bool_decide (is_Some (cellAt (board state) r c)) then []
    else if bool_decide (ty = tP) &&
            (hasUnpromotedPawnOnFile (board state) (turn state) c ||
             lastRank (turn state) r) then []
    else if bool_decide (ty = tL) && lastRank (turn state) r then []
    else if bool_decide (ty = tN) && lastTwoRanks (turn state) r then []
    else [DropMove ty (r, c)].

Definition genAllPseudo (state : State) : list Move :=
  (sq ← squares;
   match cellAt (board state) sq.1 sq.2 with
   | Some pc =>
       if bool_decide (p pc = turn state)
       then genPseudoMoves (board state) sq.1 sq.2
       else []
   | None => []
   end) ++ genDrops state.

(** The loop of [legalMoves] over the pseudo moves; a failing [makeMove] would
    end the whole call. *)
Fixpoint keepSafe (state : State) (pseudo : list Move) : option (list Move) :=
  match pseudo with
  | [] => Some []
  | m :: rest =>
      ns ← makeMove state m;
      legals ← keepSafe state rest;
      Some (if negb (isCheck (board ns) (enemy (turn ns)))
            then m :: legals else legals)
  end.

Definition legalMoves (state : State) : option (list Move) :=
  keepSafe state (genAllPseudo state).

Definition initialState : State :=
  {| board := startPosition;
     hands := {| hands_b := ∅; hands_w := ∅ |};
     turn := B |}.

Definition isDrop (m : Move) : bool :=
  match m with DropMove _ _ => true | BoardMove _ _ _ => false end.

Definition isPromoting (m : Move) : bool :=
  match m with BoardMove _ _ promote => promote | DropMove _ _ => false end.

(** ** Derived notions used in the statements *)

(** A square a piece standing on [(r, c)] may move to: on the grid, and empty
    or held by the other side. *)
Definition landing (board : Board) (piece : Piece) (sq : Square) : Prop :=
  inBounds sq.1 sq.2 = true ∧
  match cellAt board sq.1 sq.2 with
  | None => True
  | Some target => p target ≠ p piece
  end.

(** The three piece-specific [continue] tests of [genDrops]. *)
Definition dropRestricted (state : State) (ty : PieceType) (r c : Z) : bool :=
  bool_decide (ty = tP) &&
    (hasUnpromotedPawnOnFile (board state) (turn state) c || lastRank (turn state) r)
  || bool_decide (ty = tL) && lastRank (turn state) r
  || bool_decide (ty = tN) && lastTwoRanks (turn state) r.

(** The moves [makeMove] is meant for: every square named is on the grid and a
    board move starts from a piece. *)
Definition addresses (state : State) (m : Move) : Prop :=
  match m with
  | BoardMove from to _ =>
      inBounds from.1 from.2 = true ∧
      is_Some (cellAt (board state) from.1 from.2) ∧
      inBounds to.1 to.2 = true
  | DropMove _ to => inBounds to.1 to.2 = true
  end.


(** [player] has no king on the grid. *)
Definition kingAbsent (board : Board) (player : Side) : Prop :=
  ∀ r c pc, inBounds r c = true → cellAt board r c = Some pc →
            ¬ (p pc = player ∧ t pc = tK).

(** An unpromoted pawn of [player] stands on [file]. *)
Definition unpromotedPawnOnFile (board : Board) (player : Side) (file : Z) : Prop :=
  ∃ r pc, 0 ≤ r < 9 ∧ cellAt board r file = Some pc ∧
          p pc = player ∧ t pc = tP ∧ pr pc = false.

(** The destination rows where [mustPromote] forces the promotion of a piece
    of type [ty] owned by [side]. *)
Definition forcedRow (ty : PieceType) (side : Side) (row : Z) : Prop :=
  ((ty = tP ∨ ty = tL) ∧ row = match side with B => 0 | W => 8 end) ∨
  (ty = tN ∧ match side with B => row ≤ 1 | W => 7 ≤ row end).

(** The starting array without Sente's king. *)
Definition kinglessBoard : Board :=
  <[8%nat := startRow B [Some tL; Some tN; Some tS; Some tG; None;
                         Some tG; Some tS; Some tN; Some tL]]> startPosition.


(** ** Counting pieces *)

Definition occupied (cell : option Piece) : Z :=
  match cell with Some _ => 1 | None => 0 end.

Definition sumZ {A} (f : A → Z) (l : list A) : Z :=
  foldr (λ a n, f a + n) 0 l.

(** Pieces standing on the board. *)
Definition boardCount (board : Board) : Z := sumZ (sumZ occupied) board.

(** Pieces held in one hand: the counts of all piece types. *)
Definition handTotal (hand : gmap PieceType Z) : Z := sumZ (countOf hand) TYPES.

(** Board pieces plus the hand pieces of both sides. *)
Definition totalPieces (state : State) : Z :=
  boardCount (board state)
  + handTotal (hands_b (hands state))
  + handTotal (hands_w (hands state)).

(** No hand count is negative. *)
Definition handsNonneg (hs : Hands) : Prop :=
  ∀ side ty, 0 ≤ countOf (handOf hs side) ty.

(** [promoted] is set only on pieces of a promotable type. *)
Definition promotedOk (board : Board) : Prop :=
  ∀ r c pc, cellAt board r c = Some pc → pr pc = true →
            PROMOTABLE (t pc) = true.

(** Positions reached from the start by moves taken from [legalMoves]. *)
Inductive reachable : State → Prop :=
| reachable_initial : reachable initialState
| reachable_move state legals m ns :
    reachable state →
    legalMoves state = Some legals → m ∈ legals →
    makeMove state m = Some ns →
    reachable ns.

(** Two hand objects that read the same under [hand[ty]||0]. *)
Definition handsEquiv (hs1 hs2 : Hands) : Prop :=
  ∀ side ty, countOf (handOf hs1 side) ty = countOf (handOf hs2 side) ty.

(** Same board, same side to move, hands that read the same. *)
Definition stateEquiv (st1 st2 : State) : Prop :=
  board st1 = board st2 ∧ turn st1 = turn st2 ∧
  handsEquiv (hands st1) (hands st2).

(** The hand object [{K:0, R:0, B:0, G:0, S:0, N:0, L:0, P:0}]. *)
Definition zeroHand : gmap PieceType Z :=
  list_to_map ((λ ty, (ty, 0)) <$> TYPES).

(** The starting position with every hand count written out as 0. *)
Definition initialStateZero : State :=
  {| board := startPosition;
     hands := {| hands_b := zeroHand; hands_w := zeroHand |};
     turn := B |}.

(** ** The store: positions as objects, [makeMove] with its clone

    [makeMove] starts with [deepClone(state)] and then assigns into the clone
    ([board[r][c] = ...], [hands[turn][t] = ...], [ns.turn = ...]). To say
    that the argument is left alone, positions are laid out here as objects
    in a store, referred to by location, and the assignments are updates of
    the store. The arrays and objects that are assigned into (rows, hand
    objects, the state object) and the ones that hold references to them (the
    board array, the hands object) are store objects; piece objects are never
    assigned into and stay values. *)

Inductive Obj :=
| ORow (cells : list (option Piece))
| OBoard (rows : list nat)
| OHand (counts : gmap PieceType Z)
| OHands (b w : nat)
| OState (boardRef handsRef : nat) (turn : Side).

Abbreviation Store := (list Obj).

Definition readRow (store : Store) (l : nat) : option (list (option Piece)) :=
  match store !! l with Some (ORow cells) => Some cells | _ => None end.

Definition readBoard (store : Store) (l : nat) : option Board :=
  match store !! l with
  | Some (OBoard rows) => mapM (readRow store) rows
  | _ => None
  end.

Definition readHand (store : Store) (l : nat) : option (gmap PieceType Z) :=
  match store !! l with Some (OHand counts) => Some counts | _ => None end.

Definition readHands (store : Store) (l : nat) : option Hands :=
  match store !! l with
  | Some (OHands lb lw) =>
      hb ← readHand store lb; hw ← readHand store lw;
      Some {| hands_b := hb; hands_w := hw |}
  | _ => None
  end.

(** The position a state object stands for: what [JSON.stringify] walks. *)
Definition readState (store : Store) (ref : nat) : option State :=
  match store !! ref with
  | Some (OState bl hl turn) =>
      b ← readBoard store bl; hs ← readHands store hl;
      Some {| board := b; hands := hs; turn := turn |}
  | _ => None
  end.

(** The objects [JSON.parse] builds for a position, all new, when the next
    free location is [n]: the rows, the board array, the two hand objects,
    the hands object and the state object. *)
Definition layout (n : nat) (state : State) : list Obj :=
  let k := length (board state) in
  (ORow <$> board state) ++
  [ OBoard (seq n k);
    OHand (hands_b (hands state));
    OHand (hands_w (hands state));
    OHands (n + k + 1) (n + k + 2);
    OState (n + k) (n + k + 3) (turn state) ].

Definition placed (store : Store) (state : State) : Store :=
  store ++ layout (length store) state.

Definition stateRef (store : Store) (state : State) : nat :=
  (length store + length (board state) + 4)%nat.

(** [JSON.parse(JSON.stringify(o))] on a state object. *)
Definition deepClone (store : Store) (ref : nat) : option (Store * nat) :=
  state ← readState store ref;
  Some (placed store state, stateRef store state).

(** [board[r][c]] through the board reference, read as [cellAt] reads. *)
Definition readCell (store : Store) (bl : nat) (r c : Z) : option Piece :=
  if (0 <=? r) && (0 <=? c) then
    match store !! bl with
    | Some (OBoard rows) =>
        match rows !! Z.to_nat r with
        | Some rl =>
            match readRow store rl with
            | Some cells => default None (cells !! Z.to_nat c)
            | None => None
            end
        | None => None
        end
    | _ => None
    end
  else None.

(** [board[r][c] = v] through the board reference: the row object is
    updated in place. Fails where [setCell] does. *)
Definition writeCell (store : Store) (bl : nat) (r c : Z) (v : option Piece) :
    option Store :=
  if inBounds r c then
    match store !! bl with
    | Some (OBoard rows) =>
        rl ← rows !! Z.to_nat r;
        cells ← readRow store rl;
        if decide (Z.to_nat c < length cells)%nat
        then Some (<[rl := ORow (<[Z.to_nat c := v]> cells)]> store)
        else None
    | _ => None
    end
  else None.

Definition handRef (store : Store) (hl : nat) (side : Side) : option nat :=
  match store !! hl with
  | Some (OHands lb lw) => Some (match side with B => lb | W => lw end)
  | _ => None
  end.

(** [hands[side][ty]||0] through the hands reference. *)
Definition readCount (store : Store) (hl : nat) (side : Side) (ty : PieceType) :
    option Z :=
  l ← handRef store hl side;
  counts ← readHand store l;
  Some (countOf counts ty).

(** [hands[side][ty] = n]: the hand object is updated in place. *)
Definition writeCount (store : Store) (hl : nat) (side : Side) (ty : PieceType)
    (n : Z) : option Store :=
  l ← handRef store hl side;
  counts ← readHand store l;
  Some (<[l := OHand (<[ty := n]> counts)]> store).

(** [ns.turn = turn'] *)
Definition writeTurn (store : Store) (ref : nat) (turn' : Side) : option Store :=
  match store !! ref with
  | Some (OState bl hl _) => Some (<[ref := OState bl hl turn']> store)
  | _ => None
  end.

(** [makeMove(state, move)] on the store: clone, then assign into the clone.
    Returns the new store and the reference of the returned state object. *)
Definition makeMoveS (store : Store) (ref : nat) (move : Move) :
    option (Store * nat) :=
  '(store1, ns) ← deepClone store ref;
  match store1 !! ns with
  | Some (OState bl hl turn) =>
      match move with
      | DropMove ty (r, c) =>
          store2 ← writeCell store1 bl r c
                     (Some {| t := ty; p := turn; pr := false |});
          n ← readCount store2 hl turn ty;
          store3 ← writeCount store2 hl turn ty (n - 1);
          store4 ← writeTurn store3 ns (enemy turn);
          Some (store4, ns)
      | BoardMove (fr, fc) (tr, tc) promote =>
          piece ← (if inBounds fr fc then readCell store1 bl fr fc else None);
          let captured := readCell store1 bl tr tc in
          store2 ← match captured with
                    | Some cp =>
                        let d := demote cp in
                        n ← readCount store1 hl turn (t d);
                        writeCount store1 hl turn (t d) (n + 1)
                    | None => Some store1
                    end;
          let moving := if promote then promotePiece piece else piece in
          store3 ← writeCell store2 bl tr tc (Some moving);
          store4 ← writeCell store3 bl fr fc None;
          store5 ← writeTurn store4 ns (enemy turn);
          Some (store5, ns)
      end
  | _ => None
  end.

(** The locations of the objects that make up the position at [ref]. *)
Definition objectsOf (store : Store) (ref : nat) : list nat :=
  match store !! ref with
  | Some (OState bl hl _) =>
      ref :: bl :: hl ::
      match store !! bl with Some (OBoard rows) => rows | _ => [] end ++
      match store !! hl with Some (OHands lb lw) => [lb; lw] | _ => [] end
  | _ => []
  end.

(** ** Positions used as examples *)

Definition emptyBoard : Board := replicate 9 emptyRow.

(** A Sente pawn alone on (1,4), one step from the last rank. *)
Definition pawnBeforeLastRank : State :=
  {| board := <[1%nat := <[4%nat := Some {| t := tP; p := B; pr := false |}]>
                           emptyRow]> emptyBoard;
     hands := {| hands_b := ∅; hands_w := ∅ |};
     turn := B |}.

(** File 4 holds a promoted Sente pawn on (1,4) and a Gote pawn on (2,4);
    Sente has one pawn in hand. *)
Definition pawnInHand : State :=
  {| board := <[1%nat := <[4%nat := Some {| t := tP; p := B; pr := true |}]>
                           emptyRow]>
              (<[2%nat := <[4%nat := Some {| t := tP; p := W; pr := false |}]>
                            emptyRow]> emptyBoard);
     hands := {| hands_b := {[tP := 1]}; hands_w := ∅ |};
     turn := B |}.

(** A Sente rook on (4,4) facing a promoted Gote pawn on (4,7). *)
Definition rookFacingTokin : State :=
  {| board := <[4%nat := <[4%nat := Some {| t := tR; p := B; pr := false |}]>
                           (<[7%nat := Some {| t := tP; p := W; pr := true |}]>
                              emptyRow)]> emptyBoard;
     hands := {| hands_b := ∅; hands_w := ∅ |};
     turn := B |}.

(** ** Geometry of a piece's moves *)

(** The directions of [piece], turned to its side: [baseDirs] in
    [genPseudoMoves]. *)
Definition baseDirs (piece : Piece) : list (Z * Z) :=
  map (λ d, rotateFor (p piece) d.1 d.2) (dirsFor piece).

(** The one-step directions added for the promoted rook and bishop. *)
Definition extraDirs (piece : Piece) : list (Z * Z) :=
  if pr piece && bool_decide (t piece = tR)
  then map (λ d, rotateFor (p piece) d.1 d.2) [(-1,-1);(-1,1);(1,-1);(1,1)]
  else if pr piece && bool_decide (t piece = tB)
  then map (λ d, rotateFor (p piece) d.1 d.2) [(-1,0);(1,0);(0,-1);(0,1)]
  else [].

(** The squares strictly between [(r, c)] and the [k]-th square in direction
    [d] are empty. *)
Definition clearPath (board : Board) (r c : Z) (d : Z * Z) (k : Z) : Prop :=
  ∀ j, 1 ≤ j < k → cellAt board (r + j * d.1) (c + j * d.2) = None.

(** [to] lies [k] steps from [(r, c)] in one of the piece's directions, with
    [k = 1] unless the piece slides and with nothing in between, or one step
    away in one of the added directions. *)
Definition reachesBy (board : Board) (piece : Piece) (r c : Z) (to : Square) : Prop :=
  (∃ d k, d ∈ baseDirs piece ∧ 1 ≤ k ∧ (isSlider piece = false → k = 1) ∧
          to = (r + k * d.1, c + k * d.2) ∧ clearPath board r c d k)
  ∨ (∃ d, d ∈ extraDirs piece ∧ to = (r + d.1, c + d.2)).

(** A promoted Sente rook on (2,4), inside the promotion zone. *)
Definition dragonInZone : State :=
  {| board := <[2%nat := <[4%nat := Some {| t := tR; p := B; pr := true |}]>
                           emptyRow]> emptyBoard;
     hands := {| hands_b := ∅; hands_w := ∅ |};
     turn := B |}.

(** The squares a move names. *)
Definition touched (m : Move) : list Square :=
  match m with
  | BoardMove from to _ => [from; to]
  | DropMove _ to => [to]
  end.

(** Row-major order of the squares, the order of the nested loops. *)
Definition before (a b : Square) : Prop :=
  a.1 < b.1 ∨ (a.1 = b.1 ∧ a.2 < b.2).

(** ** Kings on the board *)

(** 1 for a cell holding a king of [player], 0 otherwise. *)
Definition isKingOf (player : Side) (cell : option Piece) : Z :=
  match cell with
  | Some pc => if bool_decide (p pc = player ∧ t pc = tK) then 1 else 0
  | None => 0
  end.

(** The number of kings of [player] on the board. *)
Definition kingCount (board : Board) (player : Side) : Z :=
  sumZ (sumZ (isKingOf player)) board.

(** What holds of every position of a game: a 9x9 board with exactly one king
    of each side, no king in hand, and the side that has just moved not in
    check. *)
Definition gameInv (state : State) : Prop :=
  wf_board (board state) ∧
  kingCount (board state) B = 1 ∧
  kingCount (board state) W = 1 ∧
  countOf (hands_b (hands state)) tK = 0 ∧
  countOf (hands_w (hands state)) tK = 0 ∧
  isCheck (board state) (enemy (turn state)) = false.

(** ** Comparing moves *)

(** [equalMove(a,b)]: same kind ([a.drop===b.drop]) and same fields. *)
Definition equalMove (a b : Move) : bool :=
  match a, b with
  | DropMove ta toa, DropMove tb tob =>
      bool_decide (ta = tb) && (toa.1 =? tob.1) && (toa.2 =? tob.2)
  | BoardMove fa toa pa, BoardMove fb tob pb =>
      (fa.1 =? fb.1) && (fa.2 =? fb.2) && (toa.1 =? tob.1) &&
      (toa.2 =? tob.2) && eqb pa pb
  | _, _ => false
  end.

(** ** The game state of the page: current position and history *)

(** [state.selected]: [{from:[r,c]}] or [{drop:true, t}]. *)
Inductive Selection :=
| SelFrom (from : Square)
| SelDrop (ty : PieceType).

(** The object [state]. [past] and [future] are arrays used as stacks, the
    top at the end. *)
Record Ui := mkUi {
  cur : State;
  past : list State;
  future : list State;
  flipped : bool;
  selected : option Selection;
  legal : list Move;
  cpuPlays : Side
}.

(** [commitMove(move)], as far as [state] goes: the list of moves shown, the
    drawing, the end-of-game alert and the timer of the computer player are
    left out. Fails where [makeMove] does. *)
Definition commitMove (ui : Ui) (move : Move) : option Ui :=
  ns ← makeMove (cur ui) move;
  Some {| cur := ns;
          past := past ui ++ [cur ui];
          future := [];
          flipped := flipped ui;
          selected := None;
          legal := [];
          cpuPlays := cpuPlays ui |}.

(** The handler of the undo button. *)
Definition undo (ui : Ui) : Ui :=
  match last (past ui) with
  | None => ui
  | Some prev =>
      {| cur := prev;
         past := removelast (past ui);
         future := future ui ++ [cur ui];
         flipped := flipped ui;
         selected := selected ui;
         legal := legal ui;
         cpuPlays := cpuPlays ui |}
  end.

(** The handler of the redo button. *)
Definition redo (ui : Ui) : Ui :=
  match last (future ui) with
  | None => ui
  | Some next =>
      {| cur := next;
         past := past ui ++ [cur ui];
         future := removelast (future ui);
         flipped := flipped ui;
         selected := selected ui;
         legal := legal ui;
         cpuPlays := cpuPlays ui |}
  end.

(** The handler of the new-game button. *)
Definition newGame (ui : Ui) : Ui :=
  {| cur := initialState;
     past := [];
     future := [];
     flipped := flipped ui;
     selected := None;
     legal := [];
     cpuPlays := cpuPlays ui |}.

(** The positions of the game in the order played: the past, the current
    one, and the undone ones, last undone first. *)
Definition timeline (ui : Ui) : list State :=
  past ui ++ cur ui :: reverse (future ui).

(** [checkGameEnd()]: the side announced as the winner, if any. *)
Definition checkGameEnd (state : State) : option (option Side) :=
  moves ← legalMoves state;
  Some (match moves with
        | [] => Some (enemy (turn state))
        | _ :: _ => None
        end).

(** Gote's king on (0,4) with a Sente gold on its head, guarded by a pawn;
    Gote to move. *)
Definition goldOnTheHead : State :=
  {| board := <[0%nat := <[4%nat := Some {| t := tK; p := W; pr := false |}]>
                           emptyRow]>
              (<[1%nat := <[4%nat := Some {| t := tG; p := B; pr := false |}]>
                            emptyRow]>
              (<[2%nat := <[4%nat := Some {| t := tP; p := B; pr := false |}]>
                            emptyRow]> emptyBoard));
     hands := {| hands_b := ∅; hands_w := ∅ |};
     turn := W |}.

(** ** Picking the move for a gesture *)

(** [m.to[0]===to[0] && m.to[1]===to[1]] *)
Definition hasTo (to : Square) (m : Move) : bool :=
  ((moveTo m).1 =? to.1) && ((moveTo m).2 =? to.2).

(** [sameTo.find(m => m.promote && mustPromote(board[from[0]][from[1]], m.to[0]))].
    The outer [None] is the TypeError raised when the test reaches
    [mustPromote] and the square [from] holds no piece; the inner option is
    what [find] returns. *)
Fixpoint findForced (board : Board) (from : Square) (l : list Move) :
    option (option Move) :=
  match l with
  | [] => Some None
  | m :: rest =>
      if isPromoting m then
        match cellAt board from.1 from.2 with
        | None => None
        | Some piece =>
            if mustPromote piece (moveTo m).1 then Some (Some m)
            else findForced board from rest
        end
      else findForced board from rest
  end.

(** [chooseBestMatch(candidates, pattern)] with [pattern = {from, to}] and
    [board] for [state.cur.board]. The outer [None] is a TypeError (see
    [findForced]), [Some None] is [null]. *)
Definition chooseBestMatch (board : Board) (candidates : list Move)
    (from to : Square) : option (option Move) :=
  let sameTo := List.filter (hasTo to) candidates in
  match sameTo with
  | [] => Some None
  | first :: _ =>
      forced ← findForced board from sameTo;
      match forced with
      | Some m => Some (Some m)
      | None =>
          match List.find (λ m, negb (isPromoting m)) sameTo with
          | Some m => Some (Some m)
          | None => Some (Some first)
          end
      end
  end.

(** The twins of a board move in [doMoveWithPromotion]: the board moves of the
    list with the same origin and destination. *)
Definition twinsOf (legal : list Move) (from to : Square) : list Move :=
  List.filter (λ m, match m with
                    | BoardMove f t _ =>
                        (f.1 =? from.1) && (f.2 =? from.2) &&
                        (t.1 =? to.1) && (t.2 =? to.2)
                    | DropMove _ _ => false
                    end) legal.

(** The move [doMoveWithPromotion(move)] commits: the move given, or, when the
    list holds both a promoting and a non-promoting twin, the first twin whose
    flag is the answer [yes] to the question put to the player. *)
Definition chosenMove (legal : list Move) (move : Move) (yes : bool) : Move :=
  match move with
  | DropMove _ _ => move
  | BoardMove from to _ =>
      let twins := twinsOf legal from to in
      let both := (2 <=? length twins)%nat && existsb isPromoting twins &&
                  existsb (λ m, negb (isPromoting m)) twins in
      if both
      then default move (List.find (λ m, eqb (isPromoting m) yes) twins)
      else move
  end.

(** [doMoveWithPromotion(move)]; [yes] is the answer [confirm] returns, asked
    for only when both twins exist. Reading [state.cur.board[from]] for the
    question raises a TypeError on a square without piece, where [commitMove]
    fails as well. *)
Definition doMoveWithPromotion (ui : Ui) (move : Move) (yes : bool) : option Ui :=
  commitMove ui (chosenMove (legal ui) move yes).

(** ** Board squares and SVG coordinates *)

Definition CELL : Z := 100.
Definition MARGIN_X : Z := 10.
Definition MARGIN_Y : Z := 6.

(** [boardToScreen(r,c)]: the anchor of the piece drawn on the square. *)
Definition boardToScreen (flipped : bool) (r c : Z) : Z * Z :=
  let rr := if flipped then 8 - r else r in
  let cc := if flipped then 8 - c else c in
  (50 + cc * CELL + MARGIN_X, 50 + rr * CELL + MARGIN_Y).

(** [screenToBoard(x,y)] for a point with whole coordinates; [/] rounds down
    as [Math.floor] does. [None] is [null]. *)
Definition screenToBoard (flipped : bool) (x y : Z) : option Square :=
  let cc := (x - 50) / 100 in
  let rr := (y - 50) / 100 in
  let r := if flipped then 8 - rr else rr in
  let c := if flipped then 8 - cc else cc in
  if (rr <? 0) || (8 <? rr) || (cc <? 0) || (8 <? cc) then None
  else Some (r, c).

(** ** Labels and hand buttons *)

(** The table [KANJI]; its keys are the type letter, with [+] in front for a
    promoted piece. There is no entry for a promoted king or gold. *)
Definition KANJI (promoted : bool) (ty : PieceType) : option string :=
  match promoted, ty with
  | false, tK => Some "玉" | false, tR => Some "飛" | false, tB => Some "角"
  | false, tG => Some "金" | false, tS => Some "銀" | false, tN => Some "桂"
  | false, tL => Some "香" | false, tP => Some "歩"
  | true, tR => Some "龍" | true, tB => Some "馬" | true, tS => Some "全"
  | true, tN => Some "圭" | true, tL => Some "杏" | true, tP => Some "と"
  | true, tK => None | true, tG => None
  end%string.

(** [pieceLabel(piece)]; [None] is [undefined]. *)
Definition pieceLabel (piece : Piece) : option string :=
  KANJI (pr piece) (t piece).

(** The buttons [renderHands] makes for a hand: the type and the count shown,
    in the order of the array [order]. *)
Definition renderHands (hand : gmap PieceType Z) : list (PieceType * Z) :=
  ty ← [tR; tB; tG; tS; tN; tL; tP];
  let n := countOf hand ty in
  if n =? 0 then [] else [(ty, n)].

(** ** Selecting and playing a move on the page *)

Definition withSelection (ui : Ui) (sel : option Selection) (l : list Move) : Ui :=
  {| cur := cur ui; past := past ui; future := future ui;
     flipped := flipped ui; selected := sel; legal := l;
     cpuPlays := cpuPlays ui |}.

(** [pieceClick]: a click on the piece drawn on [(r, c)]. Nothing happens on
    an empty square or on a piece of the side not to move (but a message);
    otherwise the piece is selected and its legal moves are kept. *)
Definition pieceClick (ui : Ui) (r c : Z) : option Ui :=
  match cellAt (board (cur ui)) r c with
  | None => Some ui
  | Some pc =>
      if bool_decide (p pc ≠ turn (cur ui)) then Some ui
      else
        legals ← legalMoves (cur ui);
        Some (withSelection ui (Some (SelFrom (r, c)))
                (List.filter (λ m, match m with
                                   | BoardMove from _ _ =>
                                       (from.1 =? r) && (from.2 =? c)
                                   | DropMove _ _ => false
                                   end) legals))
  end.

(** The click on the hand button of [player] for the type [ty]. *)
Definition handClick (ui : Ui) (player : Side) (ty : PieceType) : option Ui :=
  if bool_decide (turn (cur ui) ≠ player) then Some ui
  else
    legals ← legalMoves (cur ui);
    Some (withSelection ui (Some (SelDrop ty))
            (List.filter (λ m, match m with
                               | DropMove ty' _ => bool_decide (ty' = ty)
                               | BoardMove _ _ _ => false
                               end) legals)).

(** The click on the board at the point [(x, y)]: completes a drop on the
    square under the point, or drops the selection outside the squares. *)
Definition boardClick (ui : Ui) (x y : Z) : option Ui :=
  match selected ui with
  | None => Some ui
  | Some sel =>
      match screenToBoard (flipped ui) x y with
      | None => Some (withSelection ui None [])
      | Some target =>
          match sel with
          | SelDrop _ =>
              match List.find (hasTo target) (legal ui) with
              | Some mv => commitMove ui mv
              | None => Some ui
              end
          | SelFrom _ => Some ui
          end
      end
  end.

(** The moves kept in [state.legal] are legal moves of the current
    position. *)
Definition legalOffered (ui : Ui) : Prop :=
  ∃ legals, legalMoves (cur ui) = Some legals ∧
            ∀ m, m ∈ legal ui → m ∈ legals.

(** ** The position seen from the other side *)

Definition flipPiece (pc : Piece) : Piece :=
  {| t := t pc; p := enemy (p pc); pr := pr pc |}.

(** The board turned by half a turn, every piece given to the other side. *)
Definition mirrorRow (row : list (option Piece)) : list (option Piece) :=
  reverse ((λ cell : option Piece, flipPiece <$> cell) <$> row).

Definition mirrorBoard (board : Board) : Board :=
  reverse (mirrorRow <$> board).

Definition mirrorSquare (sq : Square) : Square := (8 - sq.1, 8 - sq.2).

Definition mirrorMove (m : Move) : Move :=
  match m with
  | BoardMove from to promote =>
      BoardMove (mirrorSquare from) (mirrorSquare to) promote
  | DropMove ty to => DropMove ty (mirrorSquare to)
  end.

Definition mirrorState (state : State) : State :=
  {| board := mirrorBoard (board state);
     hands := {| hands_b := hands_w (hands state);
                 hands_w := hands_b (hands state) |};
     turn := enemy (turn state) |}.

(** A promoted Sente lance alone on (4,4). *)
Definition promotedLance : State :=
  {| board := <[4%nat := <[4%nat := Some {| t := tL; p := B; pr := true |}]>
                           emptyRow]> emptyBoard;
     hands := {| hands_b := ∅; hands_w := ∅ |};
     turn := B |}.

(** ** Highlighted targets *)

(** The corner [(x, y)] of the 100x100 rectangle [paintLegalTargets] draws
    for a move to [(r, c)]. *)
Definition paintLegalTargets (flipped : bool) (to : Square) : Z * Z :=
  let rr := if flipped then 8 - to.1 else to.1 in
  let cc := if flipped then 8 - to.2 else to.2 in
  (50 + cc * 100 - 50, 50 + rr * 100 - 50).

(** * The text of the compared documents *)

(** A string is the list of its UTF-16 code units. *)
Abbreviation JsString := (list Z).

(** The class [[ \t]] of the second [replace]. *)
Definition isBlank (ch : Z) : bool := (ch =? 32) || (ch =? 9).

(** What [trim] removes: the WhiteSpace and LineTerminator code points of
    ECMAScript. *)
Definition isWhiteSpace (ch : Z) : bool :=
  (ch =? 9) || (ch =? 10) || (ch =? 11) || (ch =? 12) || (ch =? 13) ||
  (ch =? 32) || (ch =? 160) || (ch =? 5760) ||
  ((8192 <=? ch) && (ch <=? 8202)) ||
  (ch =? 8232) || (ch =? 8233) || (ch =? 8239) || (ch =? 8287) ||
  (ch =? 12288) || (ch =? 65279).

(** [raw.replace(/\r/g, ...)] by the empty string: every carriage return
    goes. *)
Definition removeCR (s : JsString) : JsString :=
  List.filter (λ ch, negb (ch =? 13)) s.

(** [.replace(/[ \t]+/g, " ")]: every maximal run of spaces and tabs becomes
    one space. [inRun] tells that the code unit before was part of a run. *)
Fixpoint squeezeBlanks (inRun : bool) (s : JsString) : JsString :=
  match s with
  | [] => []
  | ch :: rest =>
      if isBlank ch
      then (if inRun then squeezeBlanks true rest
            else 32 :: squeezeBlanks true rest)
      else ch :: squeezeBlanks false rest
  end.

Fixpoint trimStart (s : JsString) : JsString :=
  match s with
  | [] => []
  | ch :: rest => if isWhiteSpace ch then trimStart rest else s
  end.

Fixpoint trimEnd (s : JsString) : JsString :=
  match s with
  | [] => []
  | ch :: rest =>
      match trimEnd rest with
      | [] => if isWhiteSpace ch then [] else [ch]
      | kept => ch :: kept
      end
  end.

(** [.trim()] *)
Definition trim (s : JsString) : JsString := trimEnd (trimStart s).

Definition normalizeText (raw : JsString) : JsString :=
  trim (squeezeBlanks false (removeCR raw)).

(** [s.split(/\n+/)]: the pieces between the maximal runs of line feeds; a
    run at the start or at the end gives an empty piece there, and the empty
    string gives one empty piece. *)
Fixpoint splitLines (inRun : bool) (s : JsString) : list JsString :=
  match s with
  | [] => [[]]
  | ch :: rest =>
      if ch =? 10
      then (if inRun then splitLines true rest else [] :: splitLines true rest)
      else match splitLines false rest with
           | piece :: pieces => (ch :: piece) :: pieces
           | [] => [[ch]]
           end
  end.

(** [extractTextLines], from the text the PDF parser has returned. *)
Definition extractTextLines (text : JsString) : list JsString :=
  splitLines false (normalizeText text).

(** No two spaces in a row. *)
Fixpoint noDoubleSpace (s : JsString) : Prop :=
  match s with
  | a :: (b :: _) as rest => ¬ (a = 32 ∧ b = 32) ∧ noDoubleSpace rest
  | _ => True
  end.

(** The strings [normalizeText] produces: no carriage return, no tab, no two
    spaces in a row, no white space at either end. *)
Definition normalText (s : JsString) : Prop :=
  (13 ∉ s) ∧ (9 ∉ s) ∧ noDoubleSpace s ∧
  (∀ ch, head s = Some ch → isWhiteSpace ch = false) ∧
  (∀ ch, last s = Some ch → isWhiteSpace ch = false).

(** * Properties of the embedding *)

(** ** Squares and cells *)

Lemma inBounds_spec r c :
  inBounds r c = true ↔ (0 ≤ r < 9 ∧ 0 ≤ c < 9).
Proof. unfold inBounds, BOARD_SIZE. lia. Qed.

Lemma elem_of_indices r : r ∈ indices ↔ 0 ≤ r < 9.
Proof. unfold indices, BOARD_SIZE. rewrite elem_of_seqZ. lia. Qed.

Lemma elem_of_squares sq : sq ∈ squares ↔ inBounds sq.1 sq.2 = true.
Proof.
  rewrite inBounds_spec. destruct sq as [r c]. cbn [fst snd].
  rewrite <- !elem_of_indices. unfold squares. split.
  - intros (r' & Hin & Hr)%list_elem_of_bind.
    apply list_elem_of_bind in Hin as (c' & Hin & Hc).
    apply list_elem_of_singleton in Hin. by simplify_eq.
  - intros [Hr Hc]. apply list_elem_of_bind. exists r. split; [|done].
    apply list_elem_of_bind. exists c. split; [|done].
    by apply list_elem_of_singleton.
Qed.

Lemma wf_board_row board r :
  wf_board board → 0 ≤ r < 9 →
  ∃ row, board !! Z.to_nat r = Some row ∧ length row = 9%nat.
Proof.
  intros [Hlen Hrows] Hr.
  destruct (lookup_lt_is_Some_2 board (Z.to_nat r)) as [row Hrow]; [lia|].
  exists row. split; [done|].
  by apply (Forall_lookup_1 _ _ _ _ Hrows Hrow).
Qed.

Lemma setCell_Some board r c v :
  wf_board board → inBounds r c = true → is_Some (setCell board r c v).
Proof.
  intros Hwf Hin. unfold setCell. rewrite Hin.
  apply inBounds_spec in Hin as [Hr Hc].
  destruct (wf_board_row board r Hwf Hr) as (row & -> & Hlen); simpl.
  rewrite decide_True by lia. eauto.
Qed.

Lemma setCell_inv board r c v board' :
  setCell board r c v = Some board' →
  inBounds r c = true ∧
  ∃ row, board !! Z.to_nat r = Some row ∧ (Z.to_nat c < length row)%nat ∧
         board' = <[Z.to_nat r := <[Z.to_nat c := v]> row]> board.
Proof.
  unfold setCell. destruct (inBounds r c); [|done].
  destruct (board !! Z.to_nat r) as [row|] eqn:Hrow; [|done]; simpl.
  case_decide; [|done]. intros [= <-]. eauto.
Qed.

Lemma setCell_wf board r c v board' :
  setCell board r c v = Some board' → wf_board board → wf_board board'.
Proof.
  intros (_ & row & Hrow & Hc & ->)%setCell_inv [Hlen Hrows].
  split; [by rewrite length_insert|].
  apply Forall_insert; [done|]. rewrite length_insert.
  by apply (Forall_lookup_1 _ _ _ _ Hrows Hrow).
Qed.

Lemma cellAt_setCell_eq board r c v board' :
  setCell board r c v = Some board' → cellAt board' r c = v.
Proof.
  intros (Hin & row & Hrow & Hc & ->)%setCell_inv.
  apply inBounds_spec in Hin. unfold cellAt.
  rewrite andb_true_intro by lia.
  rewrite list_lookup_insert_eq by (by eapply lookup_lt_Some).
  by rewrite list_lookup_insert_eq.
Qed.

Lemma cellAt_setCell_ne board r c v board' r' c' :
  setCell board r c v = Some board' → (r, c) ≠ (r', c') →
  cellAt board' r' c' = cellAt board r' c'.
Proof.
  intros (Hin & row & Hrow & Hc & ->)%setCell_inv Hne.
  apply inBounds_spec in Hin. unfold cellAt.
  destruct ((0 <=? r') && (0 <=? c')) eqn:Hpos; [|done].
  destruct (decide (Z.to_nat r = Z.to_nat r')) as [Hr|Hr].
  - rewrite <- Hr, Hrow.
    rewrite list_lookup_insert_eq by (by eapply lookup_lt_Some).
    rewrite list_lookup_insert_ne; [done|].
    intros Hcc. apply Hne. f_equal; lia.
  - by rewrite list_lookup_insert_ne.
Qed.

Lemma cellAt_Some_wf board r c pc :
  wf_board board → cellAt board r c = Some pc → inBounds r c = true.
Proof.
  intros [Hlen Hrows]. unfold cellAt.
  destruct ((0 <=? r) && (0 <=? c)) eqn:Hpos; [|done].
  destruct (board !! Z.to_nat r) as [row|] eqn:Hrow; [|done].
  destruct (row !! Z.to_nat c) as [x|] eqn:Hx; [|done]. intros _.
  apply lookup_lt_Some in Hx.
  rewrite (Forall_lookup_1 _ _ _ _ Hrows Hrow) in Hx.
  apply lookup_lt_Some in Hrow. apply inBounds_spec. lia.
Qed.

(** ** What the per-piece generator produces *)

(** The directions tried are never the null vector, so every ray leaves the
    grid. *)
Lemma baseDirs_nonzero piece d :
  d ∈ map (λ d, rotateFor (p piece) d.1 d.2) (dirsFor piece) → d ≠ (0, 0).
Proof.
  destruct piece as [[] [] []]; cbn;
    rewrite ?elem_of_cons, elem_of_nil; intros Hd; destruct_or!;
    by subst.
Qed.

Section GeneratorFacts.
Variable board : Board.
Variable piece : Piece.
Variables r c : Z.

Lemma tryPush_spec rr cc m :
  m ∈ (tryPush board piece r c rr cc).1 →
  m = ((r, c), (rr, cc)) ∧ landing board piece (rr, cc).
Proof.
  unfold tryPush, landing. cbn [fst snd].
  destruct (inBounds rr cc) eqn:Hin; cbn [negb]; [|by intros ?%elem_of_nil].
  destruct (cellAt board rr cc) as [target|]; [case_bool_decide|];
    cbn [fst]; rewrite ?list_elem_of_singleton, ?elem_of_nil; naive_solver.
Qed.

Lemma slide_spec fuel dr dc rr cc m :
  m ∈ slide board piece r c fuel dr dc rr cc →
  m.1 = (r, c) ∧ landing board piece m.2.
Proof.
  revert rr cc. induction fuel as [|fuel IH]; intros rr cc; cbn [slide].
  - by intros ?%elem_of_nil.
  - pose proof (tryPush_spec rr cc m) as Hpush.
    destruct (tryPush board piece r c rr cc) as [ms go]. cbn [fst] in Hpush.
    destruct go.
    + rewrite elem_of_app. intros [Hm|Hm]; [|by eapply IH].
      by destruct (Hpush Hm) as [-> ?].
    + intros Hm. by destruct (Hpush Hm) as [-> ?].
Qed.

(** The loop leaves the grid within nine steps, so more fuel than
    [BOARD_SIZE] changes nothing: the bound cuts no ray short. *)
Lemma slide_fuel (n fuel1 fuel2 : nat) dr dc rr cc :
  (n < fuel1)%nat → (n < fuel2)%nat →
  inBounds (rr + Z.of_nat n * dr) (cc + Z.of_nat n * dc) = false →
  slide board piece r c fuel1 dr dc rr cc =
  slide board piece r c fuel2 dr dc rr cc.
Proof.
  revert fuel1 fuel2 rr cc.
  induction n as [|n IH]; intros [|fuel1] [|fuel2] rr cc ? ? Hout; try lia.
  - cbn [slide]. unfold tryPush.
    replace (rr + Z.of_nat 0 * dr) with rr in Hout by lia.
    replace (cc + Z.of_nat 0 * dc) with cc in Hout by lia.
    by rewrite Hout.
  - cbn [slide]. destruct (tryPush board piece r c rr cc) as [ms [|]]; [|done].
    f_equal. apply IH; [lia..|].
    rewrite <- Hout. f_equal; lia.
Qed.

Lemma slide_enough_fuel (extra : nat) dr dc :
  inBounds r c = true → (dr, dc) ≠ (0, 0) →
  slide board piece r c (Z.to_nat BOARD_SIZE + extra) dr dc (r + dr) (c + dc) =
  slide board piece r c (Z.to_nat BOARD_SIZE) dr dc (r + dr) (c + dc).
Proof.
  intros [Hr Hc]%inBounds_spec Hd.
  apply (slide_fuel 8); [unfold BOARD_SIZE; lia..|].
  apply not_true_is_false. rewrite inBounds_spec.
  assert (dr ≠ 0 ∨ dc ≠ 0) as [?|?]; [|lia..].
  destruct (decide (dr = 0)); [|by left].
  right. intros ->. by subst.
Qed.

Lemma kingStep_spec d m :
  m ∈ kingStep board piece r c d →
  m.1 = (r, c) ∧ landing board piece m.2.
Proof.
  unfold kingStep, landing.
  destruct (inBounds (r + d.1) (c + d.2)) eqn:Hin; cbn [andb];
    [|by intros ?%elem_of_nil].
  destruct (cellAt board (r + d.1) (c + d.2)) as [target|] eqn:Hcell;
    [case_bool_decide|];
    rewrite ?list_elem_of_singleton, ?elem_of_nil; try done;
    intros ->; cbn [fst snd]; by rewrite Hcell.
Qed.

Lemma rawMoves_spec m :
  m ∈ rawMoves board piece r c →
  m.1 = (r, c) ∧ landing board piece m.2.
Proof.
  unfold rawMoves, rawMovesWith. rewrite !elem_of_app.
  intros [Hm|[Hm|Hm]].
  - apply list_elem_of_bind in Hm as (d & Hm & _).
    destruct (isSlider piece); [by eapply slide_spec|].
    by destruct (tryPush_spec _ _ _ Hm) as [-> ?].
  - destruct (pr piece && bool_decide (t piece = tR));
      [|by apply elem_of_nil in Hm].
    apply list_elem_of_bind in Hm as (d & Hm & _). by eapply kingStep_spec.
  - destruct (pr piece && bool_decide (t piece = tB));
      [|by apply elem_of_nil in Hm].
    apply list_elem_of_bind in Hm as (d & Hm & _). by eapply kingStep_spec.
Qed.

(** The generator does not depend on the bound: with any larger bound the
    slider loops push the same moves. *)
Lemma rawMoves_fuel (extra : nat) :
  inBounds r c = true →
  rawMovesWith board piece r c (Z.to_nat BOARD_SIZE + extra) =
  rawMoves board piece r c.
Proof.
  intros Hin. unfold rawMoves, rawMovesWith. f_equal.
  apply Forall_bind_ext, Forall_forall. intros d Hd%baseDirs_nonzero.
  destruct (isSlider piece); [|done].
  apply slide_enough_fuel; [done|]. by destruct d.
Qed.

Lemma promotionChoices_spec raw m :
  m ∈ promotionChoices piece r raw →
  ∃ promote, m = BoardMove raw.1 raw.2 promote ∧
    (promote = true → PROMOTABLE (t piece) = true) ∧
    (mustPromote piece raw.2.1 = true → promote = true).
Proof.
  unfold promotionChoices.
  destruct (PROMOTABLE (t piece)) eqn:Hp.
  - destruct (mustPromote piece raw.2.1) eqn:Hforced;
      [|destruct (isPromotionZone (p piece) raw.2.1 ||
                  isPromotionZone (p piece) r)];
      rewrite ?elem_of_cons, ?elem_of_nil; intros Hm;
      destruct_or!; try done; subst m; eexists;
      (split; [done|]); split; congruence.
  - assert (mustPromote piece raw.2.1 = false) as ->.
    { unfold mustPromote. by destruct (t piece). }
    rewrite list_elem_of_singleton. naive_solver.
Qed.
End GeneratorFacts.

Lemma genPseudoMoves_spec board r c m :
  m ∈ genPseudoMoves board r c →
  ∃ piece to promote,
    cellAt board r c = Some piece ∧
    m = BoardMove (r, c) to promote ∧
    landing board piece to ∧
    (promote = true → PROMOTABLE (t piece) = true) ∧
    (mustPromote piece to.1 = true → promote = true).
Proof.
  unfold genPseudoMoves.
  destruct (cellAt board r c) as [piece|]; [|by intros ?%elem_of_nil].
  intros (raw & Hm & Hraw)%list_elem_of_bind.
  apply rawMoves_spec in Hraw as [Hfrom Hland].
  apply promotionChoices_spec in Hm as (promote & -> & Hp & Hforced).
  exists piece, raw.2, promote. by rewrite Hfrom.
Qed.

(** ** What the drop generator and [genAllPseudo] produce *)

Lemma genDrops_spec state m :
  m ∈ genDrops state ↔
  ∃ ty r c,
    m = DropMove ty (r, c) ∧
    countOf (handOf (hands state) (turn state)) ty ≠ 0 ∧
    inBounds r c = true ∧
    cellAt (board state) r c = None ∧
    dropRestricted state ty r c = false.
Proof.
  unfold genDrops, dropRestricted. rewrite list_elem_of_bind. split.
  - intros (ty & Hm & _).
    destruct (Z.eqb_spec (countOf (handOf (hands state) (turn state)) ty) 0)
      as [|Hcount]; [by apply elem_of_nil in Hm|].
    apply list_elem_of_bind in Hm as ([r c] & Hm & Hsq%elem_of_squares).
    exists ty, r, c. revert Hm.
    case_bool_decide as Hcell; [by intros ?%elem_of_nil|].
    destruct (cellAt (board state) r c); [by destruct Hcell|].
    destruct (bool_decide (ty = tP) && _); [by intros ?%elem_of_nil|].
    destruct (bool_decide (ty = tL) && _); [by intros ?%elem_of_nil|].
    destruct (bool_decide (ty = tN) && _); [by intros ?%elem_of_nil|].
    by intros ->%list_elem_of_singleton.
  - intros (ty & r & c & -> & Hcount & Hin & Hcell & Hok).
    exists ty. split; [|by destruct ty; set_solver].
    destruct (Z.eqb_spec (countOf (handOf (hands state) (turn state)) ty) 0);
      [done|].
    apply list_elem_of_bind. exists (r, c).
    split; [|by apply elem_of_squares]. rewrite Hcell.
    rewrite bool_decide_false by (by intros [? ?]).
    apply orb_false_iff in Hok as [[-> ->]%orb_false_iff ->].
    by apply list_elem_of_singleton.
Qed.

Lemma genAllPseudo_spec state m :
  m ∈ genAllPseudo state ↔
  (∃ r c pc, inBounds r c = true ∧ cellAt (board state) r c = Some pc ∧
             p pc = turn state ∧ m ∈ genPseudoMoves (board state) r c)
  ∨ m ∈ genDrops state.
Proof.
  unfold genAllPseudo. rewrite elem_of_app, list_elem_of_bind.
  apply or_iff_compat_r. split.
  - intros ([r c] & Hm & Hsq%elem_of_squares). cbn [fst snd] in *.
    destruct (cellAt (board state) r c) as [pc|] eqn:Hpc;
      [|by apply elem_of_nil in Hm].
    case_bool_decide; [|by apply elem_of_nil in Hm]. by exists r, c, pc.
  - intros (r & c & pc & Hin & Hpc & Hturn & Hm). exists (r, c).
    cbn [fst snd]. rewrite Hpc, bool_decide_true by done.
    by rewrite elem_of_squares.
Qed.

(** ** Moves that address a position *)

Lemma makeMove_addresses state m :
  wf_board (board state) → addresses state m → is_Some (makeMove state m).
Proof.
  intros Hwf. destruct m as [[fr fc] [tr tc] promote|ty [r c]]; cbn.
  - intros (Hfrom & [piece ->] & Hto). rewrite Hfrom. cbn.
    destruct (setCell_Some (board state) tr tc
                (Some (if promote then promotePiece piece else piece)) Hwf Hto)
      as [board1 Hb1].
    rewrite Hb1. cbn.
    destruct (setCell_Some board1 fr fc None) as [board2 ->]; [|done|by cbn].
    by eapply setCell_wf.
  - intros Hto.
    destruct (setCell_Some (board state) r c
                (Some {| t := ty; p := turn state; pr := false |}) Hwf Hto)
      as [board1 ->].
    by cbn.
Qed.

Lemma genAllPseudo_addresses state m :
  m ∈ genAllPseudo state → addresses state m.
Proof.
  intros [(r & c & pc & Hin & Hpc & _ & Hm)|Hm]%genAllPseudo_spec.
  - apply genPseudoMoves_spec in Hm
      as (piece & to & promote & Hpiece & -> & [Hto _] & _).
    cbn. by rewrite Hpc.
  - apply genDrops_spec in Hm as (ty & r & c & -> & _ & Hin & _). by cbn.
Qed.

Lemma genAllPseudo_makeMove state m :
  wf_board (board state) → m ∈ genAllPseudo state →
  is_Some (makeMove state m).
Proof. eauto using makeMove_addresses, genAllPseudo_addresses. Qed.

Lemma enemy_involutive side : enemy (enemy side) = side.
Proof. by destruct side. Qed.

Lemma makeMove_turn state m ns :
  makeMove state m = Some ns → turn ns = enemy (turn state).
Proof.
  destruct m as [[fr fc] [tr tc] promote|ty [r c]]; cbn; intros Hmk.
  - destruct (if inBounds fr fc then _ else _); [|done]. cbn in Hmk.
    destruct (setCell _ tr tc _); [|done]. cbn in Hmk.
    destruct (setCell _ fr fc _); [|done]. by simplify_eq/=.
  - destruct (setCell _ r c _); [|done]. by simplify_eq/=.
Qed.

Lemma makeMove_wf state m ns :
  makeMove state m = Some ns → wf_board (board state) → wf_board (board ns).
Proof.
  destruct m as [[fr fc] [tr tc] promote|ty [r c]]; cbn; intros Hmk Hwf.
  - destruct (if inBounds fr fc then _ else _); [|done]. cbn in Hmk.
    destruct (setCell _ tr tc _) eqn:H1; [|done]. cbn in Hmk.
    destruct (setCell _ fr fc _) eqn:H2; [|done]. simplify_eq/=.
    eauto using setCell_wf.
  - destruct (setCell _ r c _) eqn:H1; [|done]. simplify_eq/=.
    eauto using setCell_wf.
Qed.

(** ** The legality filter *)

Lemma keepSafe_spec state pseudo :
  (∀ m, m ∈ pseudo → is_Some (makeMove state m)) →
  ∃ legals,
    keepSafe state pseudo = Some legals ∧
    ∀ m, m ∈ legals ↔
         m ∈ pseudo ∧
         ∃ ns, makeMove state m = Some ns ∧
               isCheck (board ns) (turn state) = false.
Proof.
  induction pseudo as [|m0 pseudo IH]; intros Hall.
  - exists []. split; [done|]. intros m. rewrite elem_of_nil. naive_solver.
  - destruct IH as (legals & Hkeep & Hlegals).
    { intros m Hm. apply Hall. by right. }
    destruct (Hall m0) as [ns Hns]; [by left|].
    cbn [keepSafe]. rewrite Hns, Hkeep. cbn.
    rewrite (makeMove_turn _ _ _ Hns), enemy_involutive.
    eexists. split; [done|]. intros m.
    destruct (isCheck (board ns) (turn state)) eqn:Hcheck; cbn [negb];
      rewrite ?elem_of_cons, Hlegals; split.
    + naive_solver.
    + intros [[->|Hm] (ns' & Hns' & Hsafe)]; [|by eauto].
      congruence.
    + intros [->|?]; [|naive_solver]. eauto.
    + naive_solver.
Qed.

Lemma legalMoves_spec state :
  wf_board (board state) →
  ∃ legals,
    legalMoves state = Some legals ∧
    ∀ m, m ∈ legals ↔
         m ∈ genAllPseudo state ∧
         ∃ ns, makeMove state m = Some ns ∧
               isCheck (board ns) (turn state) = false.
Proof.
  intros Hwf. apply keepSafe_spec. intros m.
  by apply genAllPseudo_makeMove.
Qed.

(** ** Finding the king *)

Lemma find_None_iff {A} (f : A → bool) (l : list A) :
  List.find f l = None ↔ ∀ x, x ∈ l → f x = false.
Proof.
  induction l as [|a l IH]; cbn [List.find].
  - split; [|done]. by intros _ x ?%elem_of_nil.
  - destruct (f a) eqn:Ha.
    + split; [done|]. intros Hall. rewrite Hall in Ha; [done|by left].
    + rewrite IH. split.
      * intros Hall x [->|?]%elem_of_cons; auto.
      * intros Hall x Hx. apply Hall. by right.
Qed.

Lemma findKing_None_iff board player :
  findKing board player = None ↔ kingAbsent board player.
Proof.
  unfold findKing, kingAbsent. rewrite find_None_iff. split.
  - intros Hall r c pc Hin Hpc [Hp Ht].
    specialize (Hall (r, c)). cbn [fst snd] in Hall.
    rewrite Hpc, !bool_decide_true in Hall by done.
    by discriminate Hall; apply elem_of_squares.
  - intros Habs [r c] Hin%elem_of_squares. cbn [fst snd] in *.
    destruct (cellAt board r c) as [pc|] eqn:Hpc; [|done].
    apply andb_false_iff.
    destruct (decide (p pc = player)) as [Hp|Hp];
      [right|left]; apply bool_decide_false; [|done].
    intros Ht. by apply (Habs r c pc).
Qed.

Lemma findKing_None board player :
  kingAbsent board player → findKing board player = None.
Proof. apply findKing_None_iff. Qed.

Lemma findKing_None_inv board player :
  findKing board player = None → kingAbsent board player.
Proof. apply findKing_None_iff. Qed.

(** ** Shape of the generated moves *)

Lemma keepSafe_subset state pseudo legals m :
  keepSafe state pseudo = Some legals → m ∈ legals → m ∈ pseudo.
Proof.
  revert legals. induction pseudo as [|m0 pseudo IH]; intros legals; cbn.
  - intros [= <-]. done.
  - destruct (makeMove state m0) as [ns|]; [|done]. cbn.
    destruct (keepSafe state pseudo) as [legals0|]; [|done]. cbn.
    intros [= <-]. destruct (negb _).
    + intros [->|?]%elem_of_cons; [by left|]. right. by eapply IH.
    + intros ?. right. by eapply IH.
Qed.

Lemma legalMoves_pseudo state legals m :
  legalMoves state = Some legals → m ∈ legals → m ∈ genAllPseudo state.
Proof. apply keepSafe_subset. Qed.

Lemma genAllPseudo_BoardMove state from to promote :
  BoardMove from to promote ∈ genAllPseudo state →
  ∃ piece,
    inBounds from.1 from.2 = true ∧
    cellAt (board state) from.1 from.2 = Some piece ∧
    p piece = turn state ∧
    landing (board state) piece to ∧
    (promote = true → PROMOTABLE (t piece) = true) ∧
    (mustPromote piece to.1 = true → promote = true).
Proof.
  intros [(r & c & pc & Hin & Hpc & Hturn & Hm)|Hm]%genAllPseudo_spec.
  - apply genPseudoMoves_spec in Hm
      as (piece & to' & promote' & Hpiece & [= -> -> ->] & Hland & Hp & Hf).
    exists pc. cbn [fst snd]. by simplify_eq.
  - by apply genDrops_spec in Hm as (ty & r & c & [=] & _).
Qed.

Lemma genAllPseudo_DropMove state ty to :
  DropMove ty to ∈ genAllPseudo state ↔ DropMove ty to ∈ genDrops state.
Proof.
  rewrite genAllPseudo_spec. split; [|by right].
  intros [(r & c & pc & _ & _ & _ & Hm)|Hm]; [|done].
  by apply genPseudoMoves_spec in Hm as (? & ? & ? & _ & [=] & _).
Qed.

Lemma mustPromote_forcedRow piece row :
  mustPromote piece row = true ↔ forcedRow (t piece) (p piece) row.
Proof.
  unfold mustPromote, forcedRow.
  destruct (t piece), (p piece); rewrite ?Z.eqb_eq, ?Z.leb_le;
    naive_solver lia.
Qed.

Lemma hasUnpromotedPawnOnFile_spec board player file :
  hasUnpromotedPawnOnFile board player file = true ↔
  unpromotedPawnOnFile board player file.
Proof.
  unfold hasUnpromotedPawnOnFile, unpromotedPawnOnFile.
  rewrite existsb_exists. split.
  - intros (r & Hr%list_elem_of_In%elem_of_indices & Hpc).
    destruct (cellAt board r file) as [pc|] eqn:Hcell; [|done].
    apply andb_true_iff in Hpc as [[Hp Ht]%andb_true_iff Hpr].
    apply bool_decide_eq_true in Hp, Ht. apply negb_true_iff in Hpr.
    by exists r, pc.
  - intros (r & pc & Hr & Hcell & Hp & Ht & Hpr). exists r.
    split; [by apply list_elem_of_In, elem_of_indices|].
    by rewrite Hcell, Hpr, !bool_decide_true.
Qed.

(** ** Counting pieces on the board and in hand *)

Lemma sumZ_insert {A} (f : A → Z) (l : list A) (i : nat) (x y : A) :
  l !! i = Some x → sumZ f (<[i := y]> l) = sumZ f l - f x + f y.
Proof.
  unfold sumZ. revert i. induction l as [|a l IH]; intros [|i] Hx;
    try done; simpl in *.
  - simplify_eq. lia.
  - rewrite (IH i Hx). lia.
Qed.

Lemma cellAt_lookup board r c row :
  inBounds r c = true → board !! Z.to_nat r = Some row →
  cellAt board r c = default None (row !! Z.to_nat c).
Proof.
  intros Hin%inBounds_spec Hrow. unfold cellAt.
  rewrite andb_true_intro by lia. rewrite Hrow.
  by destruct (row !! Z.to_nat c).
Qed.

Lemma boardCount_setCell board r c v board' :
  setCell board r c v = Some board' →
  boardCount board' = boardCount board - occupied (cellAt board r c) + occupied v.
Proof.
  intros (Hin & row & Hrow & Hc & ->)%setCell_inv.
  rewrite (cellAt_lookup board r c row Hin Hrow).
  destruct (lookup_lt_is_Some_2 row (Z.to_nat c) Hc) as [x Hx].
  unfold boardCount. rewrite (sumZ_insert _ _ _ _ _ Hrow).
  rewrite (sumZ_insert _ _ _ _ _ Hx), Hx. cbn. lia.
Qed.

Lemma countOf_lookup hand ty :
  countOf hand ty = default 0 (hand !! ty).
Proof.
  unfold countOf. destruct (hand !! ty) as [n|]; [|done]. cbn.
  destruct (Z.eqb_spec n 0); congruence.
Qed.

Lemma countOf_insert hand ty n ty' :
  countOf (<[ty := n]> hand) ty' =
  if decide (ty = ty') then n else countOf hand ty'.
Proof.
  rewrite !countOf_lookup, lookup_insert. by repeat case_decide.
Qed.

Lemma handTotal_insert hand ty n :
  handTotal (<[ty := n]> hand) = handTotal hand - countOf hand ty + n.
Proof.
  unfold handTotal, TYPES, sumZ. cbn [foldr]. rewrite !countOf_insert.
  destruct ty; repeat case_decide; try done; lia.
Qed.

Lemma countOf_setHand hs side ty n side' ty' :
  countOf (handOf (setHand hs side ty n) side') ty' =
  if decide (side = side' ∧ ty = ty') then n
  else countOf (handOf hs side') ty'.
Proof.
  destruct side, side'; cbn [setHand hands_b hands_w handOf];
    rewrite ?countOf_insert; repeat case_decide; naive_solver.
Qed.

Lemma handTotal_setHand hs side ty n :
  handTotal (hands_b (setHand hs side ty n))
  + handTotal (hands_w (setHand hs side ty n))
  = handTotal (hands_b hs) + handTotal (hands_w hs)
    - countOf (handOf hs side) ty + n.
Proof.
  destruct side; cbn [setHand hands_b hands_w handOf];
    rewrite handTotal_insert; lia.
Qed.

(** ** Taking [makeMove] apart *)

Lemma makeMove_DropMove_inv state ty r c ns :
  makeMove state (DropMove ty (r, c)) = Some ns →
  ∃ board1,
    setCell (board state) r c
      (Some {| t := ty; p := turn state; pr := false |}) = Some board1 ∧
    ns = {| board := board1;
            hands := setHand (hands state) (turn state) ty
                       (countOf (handOf (hands state) (turn state)) ty - 1);
            turn := enemy (turn state) |}.
Proof.
  cbn. destruct (setCell _ r c _) as [board1|]; [|done]. cbn.
  intros [= <-]. eauto.
Qed.

Lemma makeMove_BoardMove_inv state fr fc tr tc promote ns :
  makeMove state (BoardMove (fr, fc) (tr, tc) promote) = Some ns →
  ∃ piece board1 board2,
    inBounds fr fc = true ∧
    cellAt (board state) fr fc = Some piece ∧
    setCell (board state) tr tc
      (Some (if promote then promotePiece piece else piece)) = Some board1 ∧
    setCell board1 fr fc None = Some board2 ∧
    ns = {| board := board2;
            hands := match cellAt (board state) tr tc with
                     | Some cp =>
                         setHand (hands state) (turn state) (t (demote cp))
                           (countOf (handOf (hands state) (turn state))
                                    (t (demote cp)) + 1)
                     | None => hands state
                     end;
            turn := enemy (turn state) |}.
Proof.
  cbn. destruct (inBounds fr fc); [|done].
  destruct (cellAt (board state) fr fc) as [piece|]; [|done]. cbn.
  destruct (setCell _ tr tc _) as [board1|] eqn:Hb1; [|done]. cbn.
  destruct (setCell _ fr fc _) as [board2|] eqn:Hb2; [|done]. cbn.
  intros [= <-]. by exists piece, board1, board2.
Qed.

Lemma landing_ne board piece fr fc to :
  cellAt board fr fc = Some piece → landing board piece to → to ≠ (fr, fc).
Proof.
  intros Hpiece [_ Hto] ->. cbn [fst snd] in Hto. by rewrite Hpiece in Hto.
Qed.

Lemma genAllPseudo_conserves state m :
  wf_board (board state) → m ∈ genAllPseudo state →
  ∃ ns, makeMove state m = Some ns ∧ totalPieces ns = totalPieces state.
Proof.
  intros Hwf Hm.
  destruct (genAllPseudo_makeMove state m Hwf Hm) as [ns Hns].
  exists ns. split; [done|]. unfold totalPieces.
  destruct m as [[fr fc] [tr tc] promote|ty [r c]].
  - apply genAllPseudo_BoardMove in Hm
      as (piece & _ & Hpiece & _ & Hland & _).
    apply makeMove_BoardMove_inv in Hns
      as (piece' & board1 & board2 & _ & Hpiece' & Hb1 & Hb2 & ->).
    cbn [fst snd board hands] in *. simplify_eq.
    rewrite (boardCount_setCell _ _ _ _ _ Hb2).
    rewrite (cellAt_setCell_ne _ _ _ _ _ fr fc Hb1), Hpiece
      by (by eapply landing_ne).
    rewrite (boardCount_setCell _ _ _ _ _ Hb1).
    destruct (cellAt (board state) tr tc) as [cp|]; cbn [occupied].
    + pose proof (handTotal_setHand (hands state) (turn state) (t (demote cp))
        (countOf (handOf (hands state) (turn state)) (t (demote cp)) + 1)).
      lia.
    + lia.
  - apply genAllPseudo_DropMove, genDrops_spec in Hm
      as (ty' & r' & c' & [= <- <- <-] & _ & _ & Hcell & _).
    apply makeMove_DropMove_inv in Hns as (board1 & Hb1 & ->).
    cbn [board hands].
    rewrite (boardCount_setCell _ _ _ _ _ Hb1), Hcell. cbn [occupied].
    pose proof (handTotal_setHand (hands state) (turn state) ty
      (countOf (handOf (hands state) (turn state)) ty - 1)).
    lia.
Qed.

(** ** Hand counts stay non-negative under generated moves *)

Lemma startPosition_wf : wf_board startPosition.
Proof. split; [done|]. repeat constructor. Qed.

Lemma genAllPseudo_handsNonneg state m :
  wf_board (board state) → handsNonneg (hands state) →
  m ∈ genAllPseudo state →
  ∃ ns, makeMove state m = Some ns ∧ handsNonneg (hands ns).
Proof.
  intros Hwf Hnn Hm.
  destruct (genAllPseudo_makeMove state m Hwf Hm) as [ns Hns].
  exists ns. split; [done|].
  destruct m as [[fr fc] [tr tc] promote|ty [r c]].
  - apply makeMove_BoardMove_inv in Hns as (? & ? & ? & _ & _ & _ & _ & ->).
    cbn [hands]. destruct (cellAt (board state) tr tc) as [cp|]; [|done].
    intros side ty. rewrite countOf_setHand. case_decide; [|done].
    specialize (Hnn (turn state) (t (demote cp))). lia.
  - apply genAllPseudo_DropMove, genDrops_spec in Hm
      as (ty' & r' & c' & [= <- <- <-] & Hcount & _).
    apply makeMove_DropMove_inv in Hns as (board1 & _ & ->). cbn [hands].
    intros side ty'. rewrite countOf_setHand. case_decide; [|done].
    specialize (Hnn (turn state) ty). lia.
Qed.

Lemma initialState_handsNonneg : handsNonneg (hands initialState).
Proof. by intros [] []. Qed.

Lemma reachable_inv state :
  reachable state → wf_board (board state) ∧ handsNonneg (hands state).
Proof.
  induction 1 as [|state legals m ns _ [Hwf Hnn] Hlegals Hm Hns].
  - split; [exact startPosition_wf|exact initialState_handsNonneg].
  - split; [by eapply makeMove_wf|].
    apply (legalMoves_pseudo _ _ _ Hlegals) in Hm.
    destruct (genAllPseudo_handsNonneg state m Hwf Hnn Hm) as (ns' & ? & ?).
    by simplify_eq.
Qed.

(** ** The promoted flag *)

Lemma promotePiece_unpromotable piece :
  PROMOTABLE (t piece) = false → promotePiece piece = piece.
Proof. unfold promotePiece. by intros ->. Qed.

Lemma promotePiece_type piece : t (promotePiece piece) = t piece.
Proof. unfold promotePiece. by destruct piece as [[] ? ?]. Qed.

Lemma promotePiece_ok piece :
  (pr piece = true → PROMOTABLE (t piece) = true) →
  pr (promotePiece piece) = true → PROMOTABLE (t piece) = true.
Proof. unfold promotePiece. by destruct piece as [[] ? ?]. Qed.

Lemma cellAt_makeMove_drop state ty r c ns r' c' :
  makeMove state (DropMove ty (r, c)) = Some ns →
  cellAt (board ns) r' c' =
  if decide ((r, c) = (r', c'))
  then Some {| t := ty; p := turn state; pr := false |}
  else cellAt (board state) r' c'.
Proof.
  intros (board1 & Hb1 & ->)%makeMove_DropMove_inv. cbn [board].
  case_decide as Heq.
  - injection Heq as <- <-. by eapply cellAt_setCell_eq.
  - by eapply cellAt_setCell_ne.
Qed.

Lemma cellAt_makeMove_board state fr fc tr tc promote ns piece r' c' :
  makeMove state (BoardMove (fr, fc) (tr, tc) promote) = Some ns →
  cellAt (board state) fr fc = Some piece →
  cellAt (board ns) r' c' =
  if decide ((fr, fc) = (r', c')) then None
  else if decide ((tr, tc) = (r', c'))
       then Some (if promote then promotePiece piece else piece)
       else cellAt (board state) r' c'.
Proof.
  intros (piece' & board1 & board2 & _ & Hpiece & Hb1 & Hb2 & ->)
    %makeMove_BoardMove_inv Hpiece'.
  simplify_eq. cbn [board].
  case_decide as Hfrom.
  - injection Hfrom as <- <-. by eapply cellAt_setCell_eq.
  - rewrite (cellAt_setCell_ne _ _ _ _ _ r' c' Hb2) by done.
    case_decide as Hto.
    + injection Hto as <- <-. by eapply cellAt_setCell_eq.
    + by eapply cellAt_setCell_ne.
Qed.

Lemma makeMove_promotedOk state m ns :
  makeMove state m = Some ns → promotedOk (board state) →
  promotedOk (board ns).
Proof.
  intros Hns Hok r c pc.
  destruct m as [[fr fc] [tr tc] promote|ty [r0 c0]].
  - pose proof Hns
      as (piece & _ & _ & _ & Hpiece & _)%makeMove_BoardMove_inv.
    rewrite (cellAt_makeMove_board _ _ _ _ _ _ _ piece r c Hns Hpiece).
    repeat case_decide; [done| |by apply Hok].
    intros [= <-]. destruct promote; [|by eapply Hok].
    rewrite promotePiece_type. apply promotePiece_ok. by eapply Hok.
  - rewrite (cellAt_makeMove_drop _ _ _ _ _ r c Hns).
    case_decide; [by intros [= <-]|by apply Hok].
Qed.

(** ** The store model refines the value model *)

Section Placed.
Variable store : Store.
Variable state : State.

#[local] Abbreviation n := (length store).
#[local] Abbreviation k := (length (board state)).

Lemma lookup_placed_old l :
  (l < length store)%nat → placed store state !! l = store !! l.
Proof. intros Hl. unfold placed. by rewrite lookup_app_l. Qed.

Lemma lookup_placed i :
  placed store state !! (n + i)%nat = layout n state !! i.
Proof.
  unfold placed. rewrite lookup_app_r by lia.
  f_equal. lia.
Qed.

Lemma layout_row i :
  (i < k)%nat → layout n state !! i = ORow <$> (board state !! i).
Proof.
  intros Hi. unfold layout.
  rewrite lookup_app_l by (by rewrite length_fmap).
  apply list_lookup_fmap.
Qed.

Lemma layout_tail j :
  layout n state !! (k + j)%nat =
  [ OBoard (seq n k);
    OHand (hands_b (hands state));
    OHand (hands_w (hands state));
    OHands (n + k + 1) (n + k + 2);
    OState (n + k) (n + k + 3) (turn state) ] !! j.
Proof.
  unfold layout. rewrite lookup_app_r by (rewrite length_fmap; lia).
  f_equal. rewrite length_fmap. lia.
Qed.

Lemma placed_tail j :
  placed store state !! (n + k + j)%nat =
  [ OBoard (seq n k);
    OHand (hands_b (hands state));
    OHand (hands_w (hands state));
    OHands (n + k + 1) (n + k + 2);
    OState (n + k) (n + k + 3) (turn state) ] !! j.
Proof. by rewrite <- Nat.add_assoc, lookup_placed, layout_tail. Qed.

Lemma placed_board : placed store state !! (n + k)%nat = Some (OBoard (seq n k)).
Proof. by rewrite <- (Nat.add_0_r (n + k)), placed_tail. Qed.

Lemma placed_state :
  placed store state !! stateRef store state =
  Some (OState (n + k) (n + k + 3) (turn state)).
Proof. unfold stateRef. by rewrite placed_tail. Qed.

Lemma readRow_placed i :
  (i < k)%nat → readRow (placed store state) (n + i) = board state !! i.
Proof.
  intros Hi. unfold readRow. rewrite lookup_placed, layout_row by done.
  by destruct (board state !! i).
Qed.

Lemma readBoard_placed :
  readBoard (placed store state) (n + k) = Some (board state).
Proof.
  unfold readBoard. rewrite placed_board. apply mapM_Some.
  apply Forall2_same_length_lookup_2; [by rewrite length_seq|].
  intros i l row Hl Hrow.
  apply lookup_seq in Hl as [-> Hi]. by rewrite readRow_placed.
Qed.

Lemma readHand_placed_b :
  readHand (placed store state) (n + k + 1) = Some (hands_b (hands state)).
Proof. unfold readHand. by rewrite placed_tail. Qed.

Lemma readHand_placed_w :
  readHand (placed store state) (n + k + 2) = Some (hands_w (hands state)).
Proof. unfold readHand. by rewrite placed_tail. Qed.

Lemma handRef_placed side :
  handRef (placed store state) (n + k + 3) side =
  Some (match side with B => n + k + 1 | W => n + k + 2 end)%nat.
Proof. unfold handRef. by rewrite placed_tail. Qed.

Lemma readHands_placed :
  readHands (placed store state) (n + k + 3) = Some (hands state).
Proof.
  unfold readHands. rewrite placed_tail. cbn [lookup list_lookup].
  rewrite readHand_placed_b, readHand_placed_w. cbn. by destruct (hands state).
Qed.

Lemma readState_placed :
  readState (placed store state) (stateRef store state) = Some state.
Proof.
  unfold readState. rewrite placed_state, readBoard_placed, readHands_placed.
  cbn. by destruct state.
Qed.

Lemma readCell_placed r c :
  readCell (placed store state) (n + k) r c = cellAt (board state) r c.
Proof.
  unfold readCell, cellAt. destruct ((0 <=? r) && (0 <=? c)); [|done].
  rewrite placed_board.
  destruct (decide (Z.to_nat r < k)%nat) as [Hr|Hr].
  - rewrite lookup_seq_lt, readRow_placed by done.
    destruct (board state !! Z.to_nat r) as [row|]; [|done].
    by destruct (row !! Z.to_nat c).
  - rewrite lookup_seq_ge by lia.
    by rewrite (lookup_ge_None_2 (board state)) by lia.
Qed.

Lemma readCount_placed side ty :
  readCount (placed store state) (n + k + 3) side ty =
  Some (countOf (handOf (hands state) side) ty).
Proof.
  unfold readCount. rewrite handRef_placed. cbn.
  destruct side; by rewrite ?readHand_placed_b, ?readHand_placed_w.
Qed.
End Placed.

Lemma setCell_length board r c v board' :
  setCell board r c v = Some board' → length board' = length board.
Proof. intros (_ & row & _ & _ & ->)%setCell_inv. apply length_insert. Qed.

Lemma writeCell_placed store state r c v board' :
  setCell (board state) r c v = Some board' →
  writeCell (placed store state) (length store + length (board state)) r c v =
  Some (placed store {| board := board'; hands := hands state;
                        turn := turn state |}).
Proof.
  intros (Hin & row & Hrow & Hc & ->)%setCell_inv.
  pose proof (lookup_lt_Some _ _ _ Hrow) as Hr.
  unfold writeCell. rewrite Hin, placed_board, lookup_seq_lt by done. cbn.
  rewrite readRow_placed, Hrow by done. cbn. rewrite decide_True by done.
  f_equal. unfold placed, layout. cbn [board hands turn].
  rewrite insert_app_r, length_insert. f_equal.
  rewrite insert_app_l by (by rewrite length_fmap).
  by rewrite list_fmap_insert.
Qed.

Lemma writeCount_placed store state side ty v :
  writeCount (placed store state)
             (length store + length (board state) + 3) side ty v =
  Some (placed store {| board := board state;
                        hands := setHand (hands state) side ty v;
                        turn := turn state |}).
Proof.
  unfold writeCount. rewrite handRef_placed. cbn.
  destruct side; rewrite ?readHand_placed_b, ?readHand_placed_w; cbn;
    f_equal; unfold placed, layout; cbn [board hands turn setHand hands_b hands_w];
    rewrite <- !Nat.add_assoc, insert_app_r; f_equal;
    rewrite <- (length_fmap ORow (board state)) at 1;
    by rewrite insert_app_r.
Qed.

Lemma writeTurn_placed store state turn' :
  writeTurn (placed store state) (stateRef store state) turn' =
  Some (placed store {| board := board state; hands := hands state;
                        turn := turn' |}).
Proof.
  unfold writeTurn. rewrite placed_state. f_equal.
  unfold placed, layout, stateRef. cbn [board hands turn].
  rewrite <- !Nat.add_assoc, insert_app_r. f_equal.
  rewrite <- (length_fmap ORow (board state)) at 1.
  by rewrite insert_app_r.
Qed.

(** On a store where [ref] stands for [state], [makeMoveS] does what
    [makeMove] does on the value: it leaves the store as it was and lays the
    result out behind it. *)
Lemma makeMoveS_refines store ref state m ns :
  readState store ref = Some state →
  makeMove state m = Some ns →
  makeMoveS store ref m = Some (placed store ns, stateRef store ns).
Proof.
  intros Hread Hns. unfold makeMoveS, deepClone. rewrite Hread. cbn.
  rewrite placed_state.
  destruct m as [[fr fc] [tr tc] promote|ty [r c]].
  - apply makeMove_BoardMove_inv in Hns
      as (piece & board1 & board2 & Hin & Hpiece & Hb1 & Hb2 & ->).
    rewrite Hin, !readCell_placed, Hpiece. cbn.
    pose proof (setCell_length _ _ _ _ _ Hb1) as Hlen1.
    pose proof (setCell_length _ _ _ _ _ Hb2) as Hlen2.
    destruct (cellAt (board state) tr tc) as [cp|]; cbn.
    + rewrite readCount_placed. cbn. rewrite writeCount_placed. cbn.
      rewrite (writeCell_placed store (mkState (board state) _ (turn state))
                 _ _ _ board1 Hb1). cbn.
      rewrite <- Hlen1.
      rewrite (writeCell_placed store (mkState board1 _ (turn state))
                 _ _ _ board2 Hb2). cbn.
      replace (stateRef store state) with
        (stateRef store (mkState board2
           (setHand (hands state) (turn state) (t cp)
              (countOf (handOf (hands state) (turn state)) (t cp) + 1))
           (turn state)))
        by (unfold stateRef; cbn; lia).
      rewrite writeTurn_placed. cbn. do 2 f_equal.
    + rewrite (writeCell_placed store state _ _ _ board1 Hb1). cbn.
      rewrite <- Hlen1.
      rewrite (writeCell_placed store (mkState board1 _ (turn state))
                 _ _ _ board2 Hb2). cbn.
      replace (stateRef store state) with
        (stateRef store (mkState board2 (hands state) (turn state)))
        by (unfold stateRef; cbn; lia).
      rewrite writeTurn_placed. cbn. do 2 f_equal.
  - apply makeMove_DropMove_inv in Hns as (board1 & Hb1 & ->).
    pose proof (setCell_length _ _ _ _ _ Hb1) as Hlen1.
    rewrite (writeCell_placed store state _ _ _ board1 Hb1). cbn.
    rewrite <- Hlen1.
    rewrite (readCount_placed store (mkState board1 _ (turn state))). cbn.
    rewrite (writeCount_placed store (mkState board1 _ (turn state))). cbn.
    replace (stateRef store state) with
      (stateRef store (mkState board1
         (setHand (hands state) (turn state) ty
            (countOf (handOf (hands state) (turn state)) ty - 1))
         (turn state)))
      by (unfold stateRef; cbn; lia).
    rewrite writeTurn_placed. cbn. do 2 f_equal.
Qed.

(** Reading a position is not disturbed by objects added behind the store. *)
Lemma readState_app store ext ref state :
  readState store ref = Some state → readState (store ++ ext) ref = Some state.
Proof.
  assert (∀ l o, store !! l = Some o → (store ++ ext) !! l = Some o) as Hold.
  { intros l o Hl. by apply lookup_app_l_Some. }
  assert (∀ l row, readRow store l = Some row →
                   readRow (store ++ ext) l = Some row) as Hrow.
  { unfold readRow. intros l row Hl.
    destruct (store !! l) as [[]|] eqn:Ho; try done. by rewrite (Hold _ _ Ho). }
  assert (∀ l h, readHand store l = Some h →
                 readHand (store ++ ext) l = Some h) as Hhand.
  { unfold readHand. intros l h Hl.
    destruct (store !! l) as [[]|] eqn:Ho; try done. by rewrite (Hold _ _ Ho). }
  unfold readState, readBoard, readHands.
  destruct (store !! ref) as [[| | | |bl hl turn]|] eqn:Href; try done.
  rewrite (Hold _ _ Href).
  destruct (store !! bl) as [[|rows| | |]|] eqn:Hbl; try done.
  rewrite (Hold _ _ Hbl).
  destruct (mapM (readRow store) rows) as [b|] eqn:Hb; [|done].
  apply mapM_Some in Hb.
  assert (mapM (readRow (store ++ ext)) rows = Some b) as ->.
  { apply mapM_Some. eapply Forall2_impl; [done|]. cbv beta. auto. }
  cbn.
  destruct (store !! hl) as [[| | |lb lw|]|] eqn:Hhl; try done.
  rewrite (Hold _ _ Hhl).
  destruct (readHand store lb) as [hb|] eqn:Hhb; [|done].
  destruct (readHand store lw) as [hw|] eqn:Hhw; [|done].
  by rewrite (Hhand _ _ Hhb), (Hhand _ _ Hhw).
Qed.

Lemma objectsOf_placed store state :
  objectsOf (placed store state) (stateRef store state) =
  let n := length store in
  let k := length (board state) in
  (n + k + 4 :: n + k :: n + k + 3 :: seq n k ++ [n + k + 1; n + k + 2])%nat.
Proof.
  unfold objectsOf. rewrite placed_state, placed_board, placed_tail. done.
Qed.

Lemma objectsOf_placed_new store state :
  Forall (λ l, (length store ≤ l)%nat)
         (objectsOf (placed store state) (stateRef store state)).
Proof.
  rewrite objectsOf_placed. cbv zeta.
  repeat (apply Forall_cons; split; [lia|]).
  apply Forall_app. split.
  - apply Forall_seq. lia.
  - repeat (apply Forall_cons; split; [lia|]). done.
Qed.

(** ** Hands that read the same *)

Lemma genDrops_equiv st1 st2 :
  stateEquiv st1 st2 → genDrops st1 = genDrops st2.
Proof.
  intros (Hb & Ht & Hh). unfold genDrops. rewrite Hb, Ht.
  apply list_bind_ext; [|done]. intros ty. by rewrite (Hh (turn st2) ty).
Qed.

Lemma genAllPseudo_equiv st1 st2 :
  stateEquiv st1 st2 → genAllPseudo st1 = genAllPseudo st2.
Proof.
  intros Heq. unfold genAllPseudo. rewrite (genDrops_equiv _ _ Heq).
  destruct Heq as (Hb & Ht & _). by rewrite Hb, Ht.
Qed.

Lemma setHand_equiv hs1 hs2 side ty n1 n2 :
  handsEquiv hs1 hs2 → n1 = n2 →
  handsEquiv (setHand hs1 side ty n1) (setHand hs2 side ty n2).
Proof.
  intros Hh -> side' ty'. rewrite !countOf_setHand. by case_decide.
Qed.

Lemma makeMove_equiv st1 st2 m :
  stateEquiv st1 st2 →
  option_Forall2 stateEquiv (makeMove st1 m) (makeMove st2 m).
Proof.
  intros (Hb & Ht & Hh).
  destruct m as [[fr fc] [tr tc] promote|ty [r c]]; cbn; rewrite Hb, Ht.
  - destruct (if inBounds fr fc then _ else _) as [piece|]; cbn;
      [|constructor].
    destruct (setCell _ tr tc _) as [board1|]; cbn; [|constructor].
    destruct (setCell _ fr fc _) as [board2|]; cbn; [|constructor].
    constructor. split_and!; [done..|]. cbn.
    destruct (cellAt (board st2) tr tc) as [cp|]; [|done].
    apply setHand_equiv; [done|]. by rewrite (Hh (turn st2)).
  - destruct (setCell _ r c _) as [board1|]; cbn; constructor.
    split_and!; [done..|]. cbn.
    apply setHand_equiv; [done|]. by rewrite (Hh (turn st2)).
Qed.

Lemma keepSafe_equiv st1 st2 pseudo :
  stateEquiv st1 st2 → keepSafe st1 pseudo = keepSafe st2 pseudo.
Proof.
  intros Heq. induction pseudo as [|m pseudo IH]; [done|]. cbn [keepSafe].
  rewrite IH.
  destruct (makeMove_equiv st1 st2 m Heq) as [ns1 ns2 (Hb & Ht & _)|];
    [|done].
  cbn. by rewrite Hb, Ht.
Qed.

Lemma legalMoves_equiv st1 st2 :
  stateEquiv st1 st2 → legalMoves st1 = legalMoves st2.
Proof.
  intros Heq. unfold legalMoves.
  rewrite (genAllPseudo_equiv _ _ Heq). by apply keepSafe_equiv.
Qed.

(** ** Membership in computed lists *)

Lemma elem_of_computed {A} `{EqDecision A} (x : A) (l : list A) :
  bool_decide (x ∈ l) = true → x ∈ l.
Proof. apply bool_decide_eq_true. Qed.

(** ** Facts about the starting array *)

Lemma cellAt_elem_of board r c pc :
  cellAt board r c = Some pc → ∃ row, row ∈ board ∧ Some pc ∈ row.
Proof.
  unfold cellAt. destruct ((0 <=? r) && (0 <=? c)); [|done].
  destruct (board !! Z.to_nat r) as [row|] eqn:Hrow; [|done].
  destruct (row !! Z.to_nat c) as [x|] eqn:Hx; [|done]. intros ->.
  exists row. split; by eapply list_elem_of_lookup_2.
Qed.

Lemma startPosition_promotedOk : promotedOk startPosition.
Proof.
  assert (Forall (Forall (λ cell, ∀ pc, cell = Some pc → pr pc = false))
                 startPosition) as Hall.
  { repeat (apply Forall_cons; split);
      try apply Forall_nil; try (by intros ? [= <-]); done. }
  intros r c pc (row & Hrow & Hpc)%cellAt_elem_of Hpr.
  rewrite Forall_forall in Hall. specialize (Hall row Hrow).
  rewrite Forall_forall in Hall. rewrite (Hall _ Hpc pc eq_refl) in Hpr. done.
Qed.


(** ** The embedding at work *)

(** A rook in the middle of an empty board reaches the sixteen squares of its
    row and column; the three squares inside the promotion zone come twice,
    with and without promotion. *)
Example rook_alone_moves :
  let moves :=
    genPseudoMoves
      (<[4%nat := <[4%nat := Some {| t := tR; p := B; pr := false |}]>
                    emptyRow]> emptyBoard) 4 4 in
  length (remove_dups (moveTo <$> moves)) = 16%nat ∧ length moves = 19%nat.
Proof. split; reflexivity. Qed.

(** The rook stops at the piece it can capture, three squares to the right. *)
Example rook_stops_at_capture :
  filter (λ m, (moveTo m).1 = 4 ∧ 4 < (moveTo m).2)
         (genPseudoMoves (board rookFacingTokin) 4 4) =
  [BoardMove (4, 4) (4, 5) false; BoardMove (4, 4) (4, 6) false;
   BoardMove (4, 4) (4, 7) false].
Proof. reflexivity. Qed.

(** Capturing the promoted pawn puts a pawn into Sente's hand and passes the
    turn. *)
Example capture_goes_to_hand :
  ∃ ns, makeMove rookFacingTokin (BoardMove (4, 4) (4, 7) false) = Some ns ∧
        cellAt (board ns) 4 7 = Some {| t := tR; p := B; pr := false |} ∧
        cellAt (board ns) 4 4 = None ∧
        hands ns = {| hands_b := {[tP := 1]}; hands_w := ∅ |} ∧
        turn ns = W.
Proof. eexists. split; [reflexivity|]. by split_and!. Qed.

(** The first move of a game: the pawn in front of the king steps forward. *)
Example first_pawn_step :
  ∃ ns, makeMove initialState (BoardMove (6, 4) (5, 4) false) = Some ns ∧
        cellAt (board ns) 5 4 = Some {| t := tP; p := B; pr := false |} ∧
        cellAt (board ns) 6 4 = None ∧
        hands ns = hands initialState ∧
        turn ns = W.
Proof. eexists. split; [reflexivity|]. by split_and!. Qed.

(** With a pawn in hand Sente may drop it on file 4 of [pawnInHand] on the
    rows 3 to 8 and on every empty square of the other files but the last
    rank: 6 + 8 * 8 drops. *)
Example pawn_drops_counted :
  length (genDrops pawnInHand) = 70%nat.
Proof. reflexivity. Qed.

(** ** Promotion choices, both ways *)

Lemma mustPromote_zone piece row :
  mustPromote piece row = true →
  PROMOTABLE (t piece) = true ∧ isPromotionZone (p piece) row = true.
Proof.
  unfold mustPromote, isPromotionZone.
  destruct (t piece), (p piece); cbn; try done; lia.
Qed.

Lemma promotionChoices_iff piece r raw m :
  m ∈ promotionChoices piece r raw ↔
  ∃ promote,
    m = BoardMove raw.1 raw.2 promote ∧
    if promote
    then PROMOTABLE (t piece) = true ∧
         (isPromotionZone (p piece) raw.2.1 = true ∨
          isPromotionZone (p piece) r = true)
    else mustPromote piece raw.2.1 = false.
Proof.
  unfold promotionChoices.
  pose proof (mustPromote_zone piece raw.2.1) as Hzone.
  destruct (PROMOTABLE (t piece)) eqn:Hp.
  - destruct (mustPromote piece raw.2.1) eqn:Hforced.
    + destruct Hzone as [_ Hz]; [done|].
      rewrite list_elem_of_singleton. split.
      * intros ->. exists true. auto.
      * intros ([] & -> & H); [done|discriminate H].
    + destruct (isPromotionZone (p piece) raw.2.1) eqn:Hz1;
        destruct (isPromotionZone (p piece) r) eqn:Hz2; cbn [orb];
        rewrite ?elem_of_cons, ?elem_of_nil; split;
        try (intros [->|[->|[]]]; [exists true|exists false]; by auto);
        try (intros [->|[]]; exists false; by auto);
        intros ([] & -> & H); auto; destruct H as [_ [?|?]]; done.
  - rewrite list_elem_of_singleton. split.
    + intros ->. exists false. split; [done|].
      destruct (mustPromote piece raw.2.1); [|done]. by destruct Hzone.
    + intros ([] & -> & H); [by destruct H|done].
Qed.

Lemma genPseudoMoves_iff board r c from to promote :
  BoardMove from to promote ∈ genPseudoMoves board r c ↔
  ∃ piece,
    cellAt board r c = Some piece ∧
    (from, to) ∈ rawMoves board piece r c ∧
    if promote
    then PROMOTABLE (t piece) = true ∧
         (isPromotionZone (p piece) to.1 = true ∨
          isPromotionZone (p piece) r = true)
    else mustPromote piece to.1 = false.
Proof.
  unfold genPseudoMoves. destruct (cellAt board r c) as [piece|].
  - rewrite list_elem_of_bind. split.
    + intros ([from' to'] & Hm & Hraw).
      apply promotionChoices_iff in Hm as (promote' & [= -> -> ->] & Hflag).
      by exists piece.
    + intros (piece' & [= <-] & Hraw & Hflag). exists (from, to).
      split; [|done]. apply promotionChoices_iff. by exists promote.
  - rewrite elem_of_nil. split; [done|]. by intros (? & [=] & _).
Qed.

(** ** The ray walked by a slider *)

Lemma slide_iff board piece r c fuel dr dc rr cc m :
  m ∈ slide board piece r c fuel dr dc rr cc ↔
  ∃ k : nat,
    (k < fuel)%nat ∧
    m = ((r, c), (rr + Z.of_nat k * dr, cc + Z.of_nat k * dc)) ∧
    (∀ j : nat, (j < k)%nat →
       inBounds (rr + Z.of_nat j * dr) (cc + Z.of_nat j * dc) = true ∧
       cellAt board (rr + Z.of_nat j * dr) (cc + Z.of_nat j * dc) = None) ∧
    landing board piece (rr + Z.of_nat k * dr, cc + Z.of_nat k * dc).
Proof.
  revert rr cc. induction fuel as [|fuel IH]; intros rr cc.
  { cbn [slide]. rewrite elem_of_nil. split; [done|].
    intros (k & ? & _). lia. }
  assert (∀ x : Z, x + Z.of_nat 0 * dr = x) as E0r by (intros; lia).
  assert (∀ x : Z, x + Z.of_nat 0 * dc = x) as E0c by (intros; lia).
  assert (∀ (x : Z) (k : nat),
            x + Z.of_nat (S k) * dr = x + dr + Z.of_nat k * dr) as ESr
    by (intros; lia).
  assert (∀ (x : Z) (k : nat),
            x + Z.of_nat (S k) * dc = x + dc + Z.of_nat k * dc) as ESc
    by (intros; lia).
  cbn [slide]. unfold tryPush.
  destruct (inBounds rr cc) eqn:Hin; cbn [negb].
  - destruct (cellAt board rr cc) as [target|] eqn:Hcell.
    + (* the ray ends on a piece *)
      assert (∀ k : nat,
        (∀ j : nat, (j < k)%nat →
           inBounds (rr + Z.of_nat j * dr) (cc + Z.of_nat j * dc) = true ∧
           cellAt board (rr + Z.of_nat j * dr) (cc + Z.of_nat j * dc) = None) →
        k = 0%nat) as Hk0.
      { intros [|k] Hclear; [done|].
        destruct (Hclear 0%nat) as [_ Hnone]; [lia|].
        rewrite E0r, E0c in Hnone. congruence. }
      case_bool_decide as Hp; rewrite ?list_elem_of_singleton, ?elem_of_nil.
      * split.
        -- intros ->. exists 0%nat. rewrite E0r, E0c.
           split_and!; [lia|done|intros; lia|].
           split; [done|]. cbn [fst snd]. by rewrite Hcell.
        -- intros (k & _ & -> & Hclear & _).
           rewrite (Hk0 k Hclear). by rewrite E0r, E0c.
      * split; [done|]. intros (k & _ & _ & Hclear & [_ Hland]).
        rewrite (Hk0 k Hclear), E0r, E0c in Hland. cbn [fst snd] in Hland.
        by rewrite Hcell in Hland.
    + (* an empty square: the move, and on along the ray *)
      rewrite elem_of_app, list_elem_of_singleton, IH. split.
      * intros [->|(k & Hk & -> & Hclear & Hland)].
        -- exists 0%nat. rewrite E0r, E0c.
           split_and!; [lia|done|intros; lia|].
           split; [done|]. cbn [fst snd]. by rewrite Hcell.
        -- exists (S k). rewrite ESr, ESc. split_and!; [lia|done| |done].
           intros [|j] Hj; [by rewrite E0r, E0c|].
           rewrite ESr, ESc. apply Hclear. lia.
      * intros ([|k] & Hk & -> & Hclear & Hland).
        -- left. by rewrite E0r, E0c.
        -- right. exists k. rewrite ESr, ESc in Hland |- *.
           split_and!; [lia|done| |done].
           intros j Hj. specialize (Hclear (S j)).
           rewrite ESr, ESc in Hclear. apply Hclear. lia.
  - (* off the grid *)
    rewrite elem_of_nil. split; [done|].
    intros ([|k] & _ & _ & Hclear & [Hland _]).
    + cbn [fst snd] in Hland. rewrite E0r, E0c in Hland. congruence.
    + destruct (Hclear 0%nat) as [Hin0 _]; [lia|].
      rewrite E0r, E0c in Hin0. congruence.
Qed.

Lemma tryPush_iff board piece r c rr cc m :
  m ∈ (tryPush board piece r c rr cc).1 ↔
  m = ((r, c), (rr, cc)) ∧ landing board piece (rr, cc).
Proof.
  split; [apply tryPush_spec|]. intros [-> [Hin Hland]].
  cbn [fst snd] in *. unfold tryPush. rewrite Hin. cbn [negb].
  destruct (cellAt board rr cc) as [target|]; [|by left].
  rewrite bool_decide_true by done. by left.
Qed.

Lemma kingStep_iff board piece r c d m :
  m ∈ kingStep board piece r c d ↔
  m = ((r, c), (r + d.1, c + d.2)) ∧ landing board piece (r + d.1, c + d.2).
Proof.
  unfold kingStep, landing. cbn [fst snd].
  destruct (inBounds (r + d.1) (c + d.2)); cbn [andb].
  - destruct (cellAt board (r + d.1) (c + d.2)) as [target|];
      [case_bool_decide|];
      rewrite ?list_elem_of_singleton, ?elem_of_nil; naive_solver.
  - rewrite elem_of_nil. naive_solver.
Qed.

Lemma slide_ray board piece r c d m :
  inBounds r c = true → d ≠ (0, 0) →
  m ∈ slide board piece r c (Z.to_nat BOARD_SIZE) d.1 d.2 (r + d.1) (c + d.2) ↔
  ∃ k, 1 ≤ k ∧ m = ((r, c), (r + k * d.1, c + k * d.2)) ∧
       clearPath board r c d k ∧
       landing board piece (r + k * d.1, c + k * d.2).
Proof.
  intros [Hr Hc]%inBounds_spec Hd. destruct d as [dr dc]. cbn [fst snd].
  assert (dr ≠ 0 ∨ dc ≠ 0) as Hnz.
  { destruct (decide (dr = 0)) as [->|]; [|by left].
    right. by intros ->. }
  rewrite slide_iff. unfold clearPath. cbn [fst snd]. split.
  - intros (k & Hk & -> & Hclear & Hland).
    exists (Z.of_nat k + 1).
    replace (r + (Z.of_nat k + 1) * dr) with (r + dr + Z.of_nat k * dr) by lia.
    replace (c + (Z.of_nat k + 1) * dc) with (c + dc + Z.of_nat k * dc) by lia.
    split_and!; [lia|done| |done].
    intros j Hj. destruct (Hclear (Z.to_nat (j - 1))) as [_ Hnone]; [lia|].
    rewrite Z2Nat.id in Hnone by lia. rewrite <- Hnone. f_equal; lia.
  - intros (k & Hk & -> & Hclear & Hland).
    pose proof Hland as [[Hkr Hkc]%inBounds_spec _]. cbn [fst snd] in Hkr, Hkc.
    assert (k ≤ 8) as Hk8.
    { destruct Hnz as [Hnz|Hnz].
      - assert (1 ≤ dr ∨ dr ≤ -1) as [?|?] by lia; nia.
      - assert (1 ≤ dc ∨ dc ≤ -1) as [?|?] by lia; nia. }
    exists (Z.to_nat (k - 1)). rewrite Z2Nat.id by lia.
    replace (r + dr + (k - 1) * dr) with (r + k * dr) by lia.
    replace (c + dc + (k - 1) * dc) with (c + k * dc) by lia.
    split_and!; [unfold BOARD_SIZE; lia|done| |done].
    intros j Hj.
    replace (r + dr + Z.of_nat j * dr) with (r + (Z.of_nat j + 1) * dr) by lia.
    replace (c + dc + Z.of_nat j * dc) with (c + (Z.of_nat j + 1) * dc) by lia.
    split; [|apply Hclear; lia].
    apply inBounds_spec.
    assert (0 ≤ dr ∨ dr ≤ 0) as [?|?] by lia;
      assert (0 ≤ dc ∨ dc ≤ 0) as [?|?] by lia; nia.
Qed.

Lemma elem_of_extraDirs board piece r c m :
  m ∈ (if pr piece && bool_decide (t piece = tR)
       then map (λ d, rotateFor (p piece) d.1 d.2)
                [(-1,-1);(-1,1);(1,-1);(1,1)] ≫= kingStep board piece r c
       else []) ∨
  m ∈ (if pr piece && bool_decide (t piece = tB)
       then map (λ d, rotateFor (p piece) d.1 d.2)
                [(-1,0);(1,0);(0,-1);(0,1)] ≫= kingStep board piece r c
       else []) ↔
  ∃ d, d ∈ extraDirs piece ∧ m ∈ kingStep board piece r c d.
Proof.
  unfold extraDirs.
  destruct (pr piece); cbn [andb];
    [|rewrite !elem_of_nil; split; [tauto|by intros (? & ?%elem_of_nil & _)]].
  destruct (decide (t piece = tR)) as [HR|HR].
  - rewrite (bool_decide_true _ HR).
    rewrite (bool_decide_false (t piece = tB)) by congruence.
    rewrite list_elem_of_bind, elem_of_nil. naive_solver.
  - rewrite (bool_decide_false _ HR).
    destruct (bool_decide (t piece = tB)).
    + rewrite list_elem_of_bind, elem_of_nil. naive_solver.
    + rewrite !elem_of_nil. split; [tauto|by intros (? & ?%elem_of_nil & _)].
Qed.

Lemma rawMoves_iff board piece r c from to :
  inBounds r c = true →
  (from, to) ∈ rawMoves board piece r c ↔
  from = (r, c) ∧ reachesBy board piece r c to ∧ landing board piece to.
Proof.
  intros Hin. unfold rawMoves, rawMovesWith, reachesBy.
  rewrite elem_of_app, elem_of_app, elem_of_extraDirs, list_elem_of_bind.
  fold (baseDirs piece). split.
  - intros [(d & Hm & Hd)|(d & Hd & Hm)].
    + destruct (isSlider piece) eqn:Hs.
      * apply slide_ray in Hm as (k & Hk & [= -> ->] & Hclear & Hland);
          [|done|by eapply baseDirs_nonzero].
        split_and!; [done| |done]. left. exists d, k. by split_and!.
      * apply tryPush_iff in Hm as [[= -> ->] Hland].
        split_and!; [done| |done]. left. exists d, 1.
        split_and!; [done|lia|done|f_equal; lia|]. intros j ?. lia.
    + apply kingStep_iff in Hm as [[= -> ->] Hland].
      split_and!; [done| |done]. right. by exists d.
  - intros (-> & [(d & k & Hd & Hk & Hstep & -> & Hclear)|(d & Hd & ->)] & Hland).
    + left. exists d. split; [|done].
      destruct (isSlider piece) eqn:Hs.
      * apply slide_ray; [done|by eapply baseDirs_nonzero|].
        exists k. by split_and!.
      * rewrite (Hstep eq_refl) in *. apply tryPush_iff.
        replace (r + 1 * d.1) with (r + d.1) in * by lia.
        replace (c + 1 * d.2) with (c + d.2) in * by lia. done.
    + right. exists d. split; [done|]. by apply kingStep_iff.
Qed.

(** ** The squares in loop order *)

Lemma before_trans a b c : before a b → before b c → before a c.
Proof. unfold before. lia. Qed.

Lemma squares_sorted : Sorted before squares.
Proof.
  let l := eval vm_compute in squares in change squares with l.
  repeat (apply Sorted_cons;
          [|first [apply HdRel_nil
                  |apply HdRel_cons; unfold before; cbn [fst snd]; lia]]).
  apply Sorted_nil.
Qed.

Lemma find_first {A} (f : A → bool) (l : list A) (x : A) :
  List.find f l = Some x →
  ∃ l1 l2, l = l1 ++ x :: l2 ∧ f x = true ∧ ∀ y, y ∈ l1 → f y = false.
Proof.
  induction l as [|a l IH]; cbn [List.find]; [done|].
  destruct (f a) eqn:Ha.
  - intros [= ->]. exists [], l. split_and!; [done..|].
    by intros y ?%elem_of_nil.
  - intros (l1 & l2 & -> & Hx & Hl1)%IH. exists (a :: l1), l2.
    split_and!; [done..|]. intros y [->|?]%elem_of_cons; auto.
Qed.

Lemma sorted_split_before (l1 l2 : list Square) (x y : Square) :
  Sorted before (l1 ++ x :: l2) → y ∈ l1 ++ x :: l2 → before y x → y ∈ l1.
Proof.
  intros Hsorted Hy Hyx.
  apply Sorted_StronglySorted in Hsorted;
    [|intros ? ? ?; apply before_trans].
  apply StronglySorted_app in Hsorted as (_ & _ & Htail).
  apply StronglySorted_cons in Htail as [Hl2 _].
  apply elem_of_app in Hy as [?|[->|Hy]%elem_of_cons]; [done|..].
  - unfold before in Hyx. lia.
  - rewrite Forall_forall in Hl2. apply Hl2 in Hy.
    unfold before in *. lia.
Qed.

(** ** Attacks and pseudo moves *)

Lemma attacksSquare_spec board attacker tr tc :
  attacksSquare board attacker tr tc = true ↔
  ∃ r c pc m,
    inBounds r c = true ∧ cellAt board r c = Some pc ∧ p pc = attacker ∧
    m ∈ genPseudoMoves board r c ∧ moveTo m = (tr, tc).
Proof.
  unfold attacksSquare. rewrite existsb_exists. split.
  - intros ([r c] & Hsq%list_elem_of_In%elem_of_squares & Hhit).
    cbn [fst snd] in *.
    destruct (cellAt board r c) as [pc|] eqn:Hpc; [|done].
    apply andb_true_iff in Hhit as [Hp%bool_decide_eq_true Hm].
    apply existsb_exists in Hm as (m & Hm%list_elem_of_In & Hto).
    exists r, c, pc, m. split_and!; [done..|].
    destruct (moveTo m) as [tr' tc']. cbn [fst snd] in Hto. f_equal; lia.
  - intros (r & c & pc & m & Hin & Hpc & Hp & Hm & Hto). exists (r, c).
    split; [by apply list_elem_of_In, elem_of_squares|]. cbn [fst snd].
    rewrite Hpc, (bool_decide_true _ Hp). cbn [andb].
    apply existsb_exists. exists m. split; [by apply list_elem_of_In|].
    rewrite Hto. cbn [fst snd]. lia.
Qed.

(** ** Counting kings *)

Lemma weight_setCell (f : option Piece → Z) board r c v board' :
  setCell board r c v = Some board' →
  sumZ (sumZ f) board' = sumZ (sumZ f) board - f (cellAt board r c) + f v.
Proof.
  intros (Hin & row & Hrow & Hc & ->)%setCell_inv.
  rewrite (cellAt_lookup board r c row Hin Hrow).
  destruct (lookup_lt_is_Some_2 row (Z.to_nat c) Hc) as [x Hx].
  rewrite (sumZ_insert _ _ _ _ _ Hrow).
  rewrite (sumZ_insert _ _ _ _ _ Hx), Hx. cbn. lia.
Qed.

Lemma sumZ_nonneg {A} (f : A → Z) (l : list A) :
  (∀ x, 0 ≤ f x) → 0 ≤ sumZ f l.
Proof.
  intros Hf. unfold sumZ. induction l as [|a l IH]; simpl; [lia|].
  specialize (Hf a). lia.
Qed.

Lemma sumZ_zero {A} (f : A → Z) (l : list A) :
  (∀ x, x ∈ l → f x = 0) → sumZ f l = 0.
Proof.
  unfold sumZ. induction l as [|a l IH]; intros Hf; simpl; [done|].
  rewrite (Hf a) by (by left). rewrite IH; [done|].
  intros x Hx. apply Hf. by right.
Qed.

Lemma isKingOf_nonneg player cell : 0 ≤ isKingOf player cell.
Proof. unfold isKingOf. destruct cell; [case_bool_decide|]; lia. Qed.

Lemma kingCount_nonneg board player : 0 ≤ kingCount board player.
Proof.
  apply sumZ_nonneg. intros row. apply sumZ_nonneg, isKingOf_nonneg.
Qed.

Lemma isKingOf_1 player pc :
  p pc = player → t pc = tK → isKingOf player (Some pc) = 1.
Proof. intros. unfold isKingOf. by rewrite bool_decide_true. Qed.

Lemma isKingOf_0 player pc :
  ¬ (p pc = player ∧ t pc = tK) → isKingOf player (Some pc) = 0.
Proof. intros. unfold isKingOf. by rewrite bool_decide_false. Qed.

Lemma setCell_of_cellAt board r c pc v :
  inBounds r c = true → cellAt board r c = Some pc →
  is_Some (setCell board r c v).
Proof.
  intros Hin Hpc. unfold setCell. rewrite Hin. unfold cellAt in Hpc.
  apply inBounds_spec in Hin. rewrite andb_true_intro in Hpc by lia.
  destruct (board !! Z.to_nat r) as [row|]; [|done]. cbn.
  destruct (row !! Z.to_nat c) as [x|] eqn:Hx; [|done].
  apply lookup_lt_Some in Hx. rewrite decide_True by done. eauto.
Qed.

(** A king on the board is counted. *)
Lemma kingCount_ge_1 board player r c pc :
  inBounds r c = true → cellAt board r c = Some pc →
  p pc = player → t pc = tK → 1 ≤ kingCount board player.
Proof.
  intros Hin Hpc Hp Ht.
  destruct (setCell_of_cellAt board r c pc None Hin Hpc) as [board' Hset].
  pose proof (weight_setCell (isKingOf player) _ _ _ _ _ Hset) as Hw.
  rewrite Hpc, isKingOf_1 in Hw by done. cbn [isKingOf] in Hw.
  pose proof (kingCount_nonneg board' player). unfold kingCount in *. lia.
Qed.

(** With one king counted, two squares holding a king are the same square. *)
Lemma kingCount_1_unique board player r1 c1 pc1 r2 c2 pc2 :
  kingCount board player = 1 →
  inBounds r1 c1 = true → cellAt board r1 c1 = Some pc1 →
  p pc1 = player → t pc1 = tK →
  inBounds r2 c2 = true → cellAt board r2 c2 = Some pc2 →
  p pc2 = player → t pc2 = tK →
  (r1, c1) = (r2, c2).
Proof.
  intros Hone Hin1 Hpc1 Hp1 Ht1 Hin2 Hpc2 Hp2 Ht2.
  destruct (decide ((r1, c1) = (r2, c2))) as [|Hne]; [done|]. exfalso.
  destruct (setCell_of_cellAt board r1 c1 pc1 None Hin1 Hpc1) as [board' Hset].
  pose proof (weight_setCell (isKingOf player) _ _ _ _ _ Hset) as Hw.
  rewrite Hpc1, isKingOf_1 in Hw by done. cbn [isKingOf] in Hw.
  assert (1 ≤ kingCount board' player).
  { apply (kingCount_ge_1 board' player r2 c2 pc2); [done| |done..].
    by rewrite (cellAt_setCell_ne _ _ _ _ _ r2 c2 Hset). }
  unfold kingCount in *. lia.
Qed.

(** On a 9x9 board without a king of [player] the count is 0. *)
Lemma kingCount_absent board player :
  wf_board board → kingAbsent board player → kingCount board player = 0.
Proof.
  intros [Hlen Hrows] Habs. apply sumZ_zero.
  intros row (i & Hrow)%list_elem_of_lookup_1. apply sumZ_zero.
  intros cell (j & Hcell)%list_elem_of_lookup_1.
  destruct cell as [pc|]; [|done]. apply isKingOf_0.
  pose proof (lookup_lt_Some _ _ _ Hrow) as Hi.
  pose proof (lookup_lt_Some _ _ _ Hcell) as Hj.
  rewrite (Forall_lookup_1 _ _ _ _ Hrows Hrow) in Hj.
  apply (Habs (Z.of_nat i) (Z.of_nat j)).
  - apply inBounds_spec. lia.
  - unfold cellAt. rewrite andb_true_intro by lia.
    by rewrite !Nat2Z.id, Hrow, Hcell.
Qed.

Lemma promotePiece_owner piece : p (promotePiece piece) = p piece.
Proof. unfold promotePiece. by destruct piece as [[] ? ?]. Qed.

Lemma isKingOf_promote player piece (promote : bool) :
  isKingOf player (Some (if promote then promotePiece piece else piece)) =
  isKingOf player (Some piece).
Proof.
  destruct promote; [|done]. unfold isKingOf.
  by rewrite promotePiece_owner, promotePiece_type.
Qed.

(** ** The invariant of a game *)

Lemma findKing_Some board player kpos :
  findKing board player = Some kpos →
  inBounds kpos.1 kpos.2 = true ∧
  ∃ pc, cellAt board kpos.1 kpos.2 = Some pc ∧ p pc = player ∧ t pc = tK.
Proof.
  unfold findKing. intros (l1 & l2 & Hsq & Hking & _)%find_first.
  assert (kpos ∈ squares) as Hin by (rewrite Hsq; set_solver).
  apply elem_of_squares in Hin. split; [done|].
  destruct (cellAt board kpos.1 kpos.2) as [pc|]; [|done].
  apply andb_true_iff in Hking as [?%bool_decide_eq_true ?%bool_decide_eq_true].
  by exists pc.
Qed.

Lemma kingCount_turn state side :
  gameInv state → kingCount (board state) side = 1.
Proof. intros (_ & ? & ? & _). by destruct side. Qed.

Lemma countOf_king_turn state side :
  gameInv state → countOf (handOf (hands state) side) tK = 0.
Proof. intros (_ & _ & _ & ? & ? & _). by destruct side. Qed.

(** In a position of a game no pseudo move captures a king: the king of the
    side that has just moved is not attacked. *)
Lemma gameInv_no_king_capture state from to promote cp :
  gameInv state →
  BoardMove from to promote ∈ genAllPseudo state →
  cellAt (board state) to.1 to.2 = Some cp → t cp ≠ tK.
Proof.
  intros Hinv Hm Hcp Hking.
  pose proof Hinv as (Hwf & _ & _ & _ & _ & Hsafe).
  pose proof Hm as (piece & _ & _ & Hturn & [Hto Hland] & _)
    %genAllPseudo_BoardMove.
  rewrite Hcp in Hland.
  assert (p cp = enemy (turn state)) as Hp.
  { rewrite <- Hturn. by destruct (p cp), (p piece). }
  unfold isCheck in Hsafe.
  destruct (findKing (board state) (enemy (turn state))) as [kpos|] eqn:Hfind.
  - pose proof (findKing_Some _ _ _ Hfind) as (Hkin & kpc & Hkpc & Hkp & Hkt).
    assert ((kpos.1, kpos.2) = (to.1, to.2)) as [= Hk1 Hk2].
    { eapply (kingCount_1_unique (board state) (enemy (turn state)));
        [by apply kingCount_turn|done..]. }
    rewrite enemy_involutive, Hk1, Hk2 in Hsafe.
    apply not_true_iff_false in Hsafe. apply Hsafe.
    apply genAllPseudo_spec in Hm
      as [(r & c & pc & Hin & Hpc & Hpturn & Hgen)|Hdrop].
    + apply attacksSquare_spec.
      exists r, c, pc, (BoardMove from to promote).
      split_and!; [done..|]. cbn [moveTo]. by destruct to.
    + by apply genDrops_spec in Hdrop as (? & ? & ? & [=] & _).
  - apply findKing_None_inv in Hfind.
    pose proof (kingCount_absent _ _ Hwf Hfind) as Hzero.
    rewrite (kingCount_turn state _ Hinv) in Hzero. done.
Qed.

(** A pseudo move of a position of a game leaves both kings on the board and
    out of the hands, whether it is legal or not. *)
Lemma gameInv_step_kings state m ns side :
  gameInv state → m ∈ genAllPseudo state →
  makeMove state m = Some ns →
  kingCount (board ns) side = 1 ∧ countOf (handOf (hands ns) side) tK = 0.
Proof.
  intros Hinv Hm Hns.
  pose proof Hinv as (Hwf & _).
  { pose proof (kingCount_turn state side Hinv) as Hcount.
    pose proof (countOf_king_turn state side Hinv) as Hhand.
    destruct m as [[fr fc] [tr tc] promote|ty [r c]].
    - pose proof (λ cp, gameInv_no_king_capture state _ _ _ cp Hinv Hm) as Hnok.
      apply genAllPseudo_BoardMove in Hm
        as (piece & _ & Hpiece & _ & Hland & _).
      pose proof (landing_ne _ _ _ _ _ Hpiece Hland) as Hne.
      apply makeMove_BoardMove_inv in Hns
        as (piece' & b1 & b2 & _ & Hpiece' & Hb1 & Hb2 & ->).
      cbn [fst snd board hands] in *. simplify_eq. split.
      + unfold kingCount in *.
        rewrite (weight_setCell _ _ _ _ _ _ Hb2).
        rewrite (cellAt_setCell_ne _ _ _ _ _ fr fc Hb1), Hpiece by done.
        rewrite (weight_setCell _ _ _ _ _ _ Hb1), isKingOf_promote.
        change (isKingOf side None) with 0.
        destruct (cellAt (board state) tr tc) as [cp|];
          [|change (isKingOf side None) with 0; lia].
        rewrite (isKingOf_0 side cp); [lia|].
        intros [_ ?]. by eapply Hnok.
      + destruct (cellAt (board state) tr tc) as [cp|]; [|done].
        rewrite countOf_setHand. cbn [demote t].
        rewrite decide_False; [done|]. intros [_ ?]. by eapply Hnok.
    - apply genAllPseudo_DropMove, genDrops_spec in Hm
        as (ty' & r' & c' & [= <- <- <-] & Hcount0 & _ & Hcell & _).
      assert (ty ≠ tK) as Hty.
      { intros ->. by rewrite (countOf_king_turn state _ Hinv) in Hcount0. }
      apply makeMove_DropMove_inv in Hns as (b1 & Hb1 & ->).
      cbn [board hands]. split.
      + unfold kingCount in *.
        rewrite (weight_setCell _ _ _ _ _ _ Hb1), Hcell.
        rewrite isKingOf_0 by (by intros [_ ?]).
        change (isKingOf side None) with 0. lia.
      + rewrite countOf_setHand. rewrite decide_False; [done|].
        by intros [_ ?]. }
Qed.

Lemma gameInv_step state m ns :
  gameInv state → m ∈ genAllPseudo state →
  makeMove state m = Some ns →
  isCheck (board ns) (turn state) = false →
  gameInv ns.
Proof.
  intros Hinv Hm Hns Hsafe.
  pose proof Hinv as (Hwf & _).
  pose proof (λ side, gameInv_step_kings state m ns side Hinv Hm Hns) as Hboth.
  split_and!.
  - by eapply makeMove_wf.
  - apply (Hboth B).
  - apply (Hboth W).
  - apply (Hboth B).
  - apply (Hboth W).
  - by rewrite (makeMove_turn _ _ _ Hns), enemy_involutive.
Qed.

Lemma gameInv_initial : gameInv initialState.
Proof.
  split_and!; [exact startPosition_wf|reflexivity..|vm_compute; reflexivity].
Qed.

Lemma legalMoves_safe state legals m ns :
  wf_board (board state) →
  legalMoves state = Some legals → m ∈ legals →
  makeMove state m = Some ns →
  m ∈ genAllPseudo state ∧ isCheck (board ns) (turn state) = false.
Proof.
  intros Hwf Hlegals Hm Hns.
  destruct (legalMoves_spec state Hwf) as (legals' & Hlegals' & Hiff).
  simplify_eq. apply Hiff in Hm as (Hpseudo & ns' & Hns' & Hsafe).
  by simplify_eq.
Qed.

Lemma reachable_gameInv state : reachable state → gameInv state.
Proof.
  induction 1 as [|state legals m ns _ Hinv Hlegals Hm Hns].
  - exact gameInv_initial.
  - pose proof Hinv as (Hwf & _).
    destruct (legalMoves_safe _ _ _ _ Hwf Hlegals Hm Hns) as [Hpseudo Hsafe].
    by eapply gameInv_step.
Qed.

Lemma reachable_counts state :
  reachable state → totalPieces state = 40 ∧ promotedOk (board state).
Proof.
  induction 1 as [|state legals m ns Hreach [Htotal Hok] Hlegals Hm Hns].
  - split; [reflexivity|exact startPosition_promotedOk].
  - apply reachable_inv in Hreach as [Hwf _].
    apply (legalMoves_pseudo _ _ _ Hlegals) in Hm.
    destruct (genAllPseudo_conserves state m Hwf Hm) as (ns' & Hns' & Hsame).
    simplify_eq. split; [lia|by eapply makeMove_promotedOk].
Qed.

(** ** Stacks at the end of a list *)

Lemma nonempty_snoc {A} (l : list A) : l ≠ [] → ∃ l' x, l = l' ++ [x].
Proof.
  destruct l as [|a l] using rev_ind; [done|]. intros _. by exists l, a.
Qed.

Lemma last_None_nil {A} (l : list A) : last l = None ↔ l = [].
Proof.
  split; [|by intros ->].
  destruct l as [|a l] using rev_ind; [done|]. by rewrite last_snoc.
Qed.

(** ** Picking a move *)

Lemma hasTo_spec to m : hasTo to m = true ↔ moveTo m = to.
Proof.
  unfold hasTo. destruct (moveTo m) as [r c], to as [r' c']. cbn [fst snd].
  rewrite andb_true_iff, !Z.eqb_eq. split; [by intros [-> ->]|by intros [= -> ->]].
Qed.

Lemma elem_of_filter_bool {A} (f : A → bool) (l : list A) (x : A) :
  x ∈ List.filter f l ↔ x ∈ l ∧ f x = true.
Proof. rewrite !list_elem_of_In. apply filter_In. Qed.

Lemma findForced_Some board from l m :
  findForced board from l = Some (Some m) →
  m ∈ l ∧ isPromoting m = true ∧
  ∃ piece, cellAt board from.1 from.2 = Some piece ∧
           mustPromote piece (moveTo m).1 = true.
Proof.
  induction l as [|m0 l IH]; cbn [findForced]; [done|].
  destruct (isPromoting m0) eqn:Hp.
  - destruct (cellAt board from.1 from.2) as [piece|] eqn:Hpiece; [|done].
    destruct (mustPromote piece (moveTo m0).1) eqn:Hforced.
    + intros [= <-]. split_and!; [by left|done|by exists piece].
    + intros (? & ? & ?)%IH. split_and!; [by right|done..].
  - intros (? & ? & ?)%IH. split_and!; [by right|done..].
Qed.

Lemma findForced_is_Some board from l :
  is_Some (cellAt board from.1 from.2) → is_Some (findForced board from l).
Proof.
  intros [piece Hpiece]. induction l as [|m0 l IH]; cbn [findForced]; [eauto|].
  rewrite Hpiece. by repeat case_match.
Qed.

Lemma length_ge_2 {A} (l : list A) (x y : A) :
  x ∈ l → y ∈ l → x ≠ y → (2 ≤ length l)%nat.
Proof.
  destruct l as [|a [|b l]]; cbn.
  - by intros ?%elem_of_nil.
  - intros ->%list_elem_of_singleton ->%list_elem_of_singleton. done.
  - lia.
Qed.

Lemma elem_of_twinsOf legal from to m :
  m ∈ twinsOf legal from to ↔
  m ∈ legal ∧ m = BoardMove from to (isPromoting m).
Proof.
  unfold twinsOf. rewrite elem_of_filter_bool.
  apply and_iff_compat_l.
  destruct m as [[fr fc] [tr tc] pm|ty sq], from as [fr' fc'], to as [tr' tc'];
    cbn [fst snd isPromoting]; [|done].
  rewrite !andb_true_iff, !Z.eqb_eq. split.
  - intros [[[-> ->] ->] ->]. done.
  - intros [= -> -> -> ->]. done.
Qed.

Lemma chooseBestMatch_unfold brd candidates from to :
  chooseBestMatch brd candidates from to =
  match List.filter (hasTo to) candidates with
  | [] => Some None
  | first :: rest =>
      match findForced brd from (first :: rest) with
      | None => None
      | Some (Some m) => Some (Some m)
      | Some None =>
          match List.find (λ m, negb (isPromoting m)) (first :: rest) with
          | Some m => Some (Some m)
          | None => Some (Some first)
          end
      end
  end.
Proof.
  unfold chooseBestMatch.
  destruct (List.filter (hasTo to) candidates) as [|first rest]; [done|].
  by destruct (findForced brd from (first :: rest)) as [[m|]|].
Qed.

(** ** Sums over lists *)

Lemma sumZ_app {A} (f : A → Z) (l1 l2 : list A) :
  sumZ f (l1 ++ l2) = sumZ f l1 + sumZ f l2.
Proof.
  unfold sumZ. induction l1 as [|a l1 IH]; simpl; [done|]. rewrite IH. lia.
Qed.

Lemma sumZ_bind {A B} (f : B → Z) (g : A → list B) (l : list A) :
  sumZ f (l ≫= g) = sumZ (λ a, sumZ f (g a)) l.
Proof.
  induction l as [|a l IH]; [done|].
  rewrite bind_cons, sumZ_app, IH. done.
Qed.

(** The move committed for a move of the list is a move of the list. *)
Lemma chosenMove_in_list legal move yes :
  move ∈ legal → chosenMove legal move yes ∈ legal.
Proof.
  intros Hmove.
  destruct move as [from to pm|ty sq]; cbn [chosenMove]; [|done].
  destruct (_ && _ && _); [|done].
  destruct (List.find _ _) as [m'|] eqn:Hfind; [|done]. cbn [default].
  apply find_some in Hfind as [Hin _].
  by apply list_elem_of_In, elem_of_twinsOf in Hin as [? _].
Qed.

(** ** Turning the board *)

Lemma flipPiece_involutive pc : flipPiece (flipPiece pc) = pc.
Proof. by destruct pc as [? [] ?]. Qed.

Lemma mirrorRow_involutive row : mirrorRow (mirrorRow row) = row.
Proof.
  unfold mirrorRow. rewrite fmap_reverse, reverse_involutive.
  rewrite <- list_fmap_compose. rewrite <- (list_fmap_id row) at 2.
  apply list_fmap_ext. intros _ [pc|] _; cbn; [|done].
  by rewrite flipPiece_involutive.
Qed.

Lemma mirrorBoard_involutive board : mirrorBoard (mirrorBoard board) = board.
Proof.
  unfold mirrorBoard. rewrite fmap_reverse, reverse_involutive.
  rewrite <- list_fmap_compose. rewrite <- (list_fmap_id board) at 2.
  apply list_fmap_ext. intros _ row _. apply mirrorRow_involutive.
Qed.

Lemma mirrorState_involutive state : mirrorState (mirrorState state) = state.
Proof.
  destruct state as [b [hb hw] tn]. unfold mirrorState.
  cbn [board hands turn hands_b hands_w].
  by rewrite mirrorBoard_involutive, enemy_involutive.
Qed.

Lemma mirrorMove_involutive m : mirrorMove (mirrorMove m) = m.
Proof.
  destruct m as [[fr fc] [tr tc] pm|ty [r c]]; cbn; unfold mirrorSquare; cbn;
    repeat f_equal; lia.
Qed.

Lemma mirrorBoard_wf board : wf_board board → wf_board (mirrorBoard board).
Proof.
  intros [Hlen Hrows]. unfold mirrorBoard. split.
  - by rewrite length_reverse, length_fmap.
  - apply Forall_reverse, Forall_fmap. eapply Forall_impl; [done|].
    intros row Hrow. cbn. unfold mirrorRow.
    by rewrite length_reverse, length_fmap.
Qed.

Lemma cellAt_off_grid board r c :
  wf_board board → inBounds r c = false → cellAt board r c = None.
Proof.
  intros Hwf Hout. destruct (cellAt board r c) as [pc|] eqn:Hpc; [|done].
  apply cellAt_Some_wf in Hpc; [congruence|done].
Qed.

Lemma cellAt_mirror board r c :
  wf_board board →
  cellAt (mirrorBoard board) (8 - r) (8 - c) = flipPiece <$> cellAt board r c.
Proof.
  intros Hwf. destruct (inBounds r c) eqn:Hin.
  - pose proof Hwf as [Hlen Hrows].
    apply inBounds_spec in Hin as [Hr Hc].
    destruct (wf_board_row board r Hwf Hr) as (row & Hrow & Hrowlen).
    unfold cellAt, mirrorBoard. rewrite !andb_true_intro by lia.
    rewrite reverse_lookup by (rewrite length_fmap; lia).
    rewrite length_fmap, Hlen, list_lookup_fmap.
    replace (9 - S (Z.to_nat (8 - r)))%nat with (Z.to_nat r) by lia.
    rewrite Hrow. cbn. unfold mirrorRow.
    rewrite reverse_lookup by (rewrite length_fmap; lia).
    rewrite length_fmap, Hrowlen, list_lookup_fmap.
    replace (9 - S (Z.to_nat (8 - c)))%nat with (Z.to_nat c) by lia.
    by destruct (row !! Z.to_nat c) as [[|]|].
  - rewrite (cellAt_off_grid board r c Hwf Hin).
    apply cellAt_off_grid; [by apply mirrorBoard_wf|].
    apply not_true_is_false. rewrite inBounds_spec.
    apply not_true_iff_false in Hin. rewrite inBounds_spec in Hin. lia.
Qed.

Lemma inBounds_mirror r c : inBounds (8 - r) (8 - c) = inBounds r c.
Proof.
  apply eq_true_iff_eq. rewrite !inBounds_spec. lia.
Qed.

Lemma baseDirs_mirror pc d :
  d ∈ baseDirs pc → (- d.1, - d.2) ∈ baseDirs (flipPiece pc).
Proof.
  unfold baseDirs. rewrite !list_elem_of_In, !in_map_iff.
  intros (d0 & <- & Hd0). exists d0. split; [|done].
  cbn [flipPiece p]. destruct (p pc); cbn; [done|].
  by rewrite !Z.opp_involutive.
Qed.

Lemma extraDirs_mirror pc d :
  d ∈ extraDirs pc → (- d.1, - d.2) ∈ extraDirs (flipPiece pc).
Proof.
  unfold extraDirs. cbn [flipPiece p t pr].
  destruct (pr pc && bool_decide (t pc = tR)).
  - rewrite !list_elem_of_In, !in_map_iff.
    intros (d0 & <- & Hd0). exists d0. split; [|done].
    destruct (p pc); cbn; [done|]. by rewrite !Z.opp_involutive.
  - destruct (pr pc && bool_decide (t pc = tB));
      [|by intros ?%elem_of_nil].
    rewrite !list_elem_of_In, !in_map_iff.
    intros (d0 & <- & Hd0). exists d0. split; [|done].
    destruct (p pc); cbn; [done|]. by rewrite !Z.opp_involutive.
Qed.

Lemma reachesBy_mirror board pc r c to :
  wf_board board → reachesBy board pc r c to →
  reachesBy (mirrorBoard board) (flipPiece pc) (8 - r) (8 - c) (mirrorSquare to).
Proof.
  intros Hwf [(d & k & Hd & Hk & Hstep & -> & Hclear)|(d & Hd & ->)].
  - left. exists (- d.1, - d.2), k.
    split_and!; [by apply baseDirs_mirror|done|done| |].
    + unfold mirrorSquare. cbn [fst snd]. f_equal; lia.
    + intros j Hj. cbn [fst snd].
      replace (8 - r + j * - d.1) with (8 - (r + j * d.1)) by lia.
      replace (8 - c + j * - d.2) with (8 - (c + j * d.2)) by lia.
      by rewrite cellAt_mirror, Hclear.
  - right. exists (- d.1, - d.2). split; [by apply extraDirs_mirror|].
    unfold mirrorSquare. cbn [fst snd]. f_equal; lia.
Qed.

Lemma landing_mirror board pc to :
  wf_board board → landing board pc to →
  landing (mirrorBoard board) (flipPiece pc) (mirrorSquare to).
Proof.
  intros Hwf [Hin Hland]. unfold landing, mirrorSquare. cbn [fst snd].
  rewrite inBounds_mirror, cellAt_mirror by done. split; [done|].
  destruct (cellAt board to.1 to.2) as [target|]; cbn; [|done].
  by destruct (p target), (p pc).
Qed.

Lemma isPromotionZone_mirror side row :
  isPromotionZone (enemy side) (8 - row) = isPromotionZone side row.
Proof.
  apply eq_true_iff_eq. destruct side; cbn; rewrite !Z.leb_le; lia.
Qed.

Lemma mustPromote_mirror pc row :
  mustPromote (flipPiece pc) (8 - row) = mustPromote pc row.
Proof.
  apply eq_true_iff_eq. unfold mustPromote. cbn [flipPiece t p].
  destruct (t pc), (p pc); cbn; rewrite ?Z.eqb_eq, ?Z.leb_le; lia.
Qed.

Lemma unpromotedPawnOnFile_mirror board side file :
  wf_board board →
  unpromotedPawnOnFile board side file →
  unpromotedPawnOnFile (mirrorBoard board) (enemy side) (8 - file).
Proof.
  intros Hwf (r & pc & Hr & Hpc & Hp & Ht & Hpr).
  exists (8 - r), (flipPiece pc).
  split; [lia|]. split; [by rewrite cellAt_mirror, Hpc|].
  split; [by cbn; f_equal|]. done.
Qed.

Lemma mirror_pseudo state m :
  wf_board (board state) →
  m ∈ genAllPseudo state → mirrorMove m ∈ genAllPseudo (mirrorState state).
Proof.
  intros Hwf [(r & c & pc & Hin & Hpc & Hturn & Hm)|Hm]%genAllPseudo_spec;
    apply genAllPseudo_spec.
  - left. pose proof Hm as (piece & to & promote & _ & -> & _)
      %genPseudoMoves_spec.
    apply genPseudoMoves_iff in Hm as (piece' & Hpiece' & Hraw & Hflag).
    simplify_eq.
    apply rawMoves_iff in Hraw as (_ & Hreach & Hland); [|done].
    exists (8 - r), (8 - c), (flipPiece pc). cbn [mirrorState board turn].
    split_and!.
    + by rewrite inBounds_mirror.
    + by rewrite cellAt_mirror, Hpc.
    + cbn. by f_equal.
    + cbn [mirrorMove]. apply genPseudoMoves_iff. exists (flipPiece pc).
      split_and!.
      * by rewrite cellAt_mirror, Hpc.
      * apply rawMoves_iff; [by rewrite inBounds_mirror|].
        split_and!; [done|by apply reachesBy_mirror|by apply landing_mirror].
      * unfold mirrorSquare. cbn [fst snd flipPiece t p].
        destruct promote.
        -- by rewrite !isPromotionZone_mirror.
        -- change (mustPromote (flipPiece pc) (8 - to.1) = false).
           by rewrite mustPromote_mirror.
  - right. apply genDrops_spec in Hm
      as (ty & r & c & -> & Hcount & Hin & Hcell & Hok).
    apply genDrops_spec. exists ty, (8 - r), (8 - c).
    split_and!.
    + done.
    + cbn [mirrorState hands turn]. by destruct (turn state).
    + by rewrite inBounds_mirror.
    + cbn [mirrorState board]. by rewrite cellAt_mirror, Hcell.
    + unfold dropRestricted in *. cbn [mirrorState board turn].
      assert (hasUnpromotedPawnOnFile (mirrorBoard (board state))
                (enemy (turn state)) (8 - c) =
              hasUnpromotedPawnOnFile (board state) (turn state) c) as ->.
      { apply eq_true_iff_eq. rewrite !hasUnpromotedPawnOnFile_spec. split.
        - intros H%unpromotedPawnOnFile_mirror; [|by apply mirrorBoard_wf].
          rewrite mirrorBoard_involutive, enemy_involutive in H.
          by replace (8 - (8 - c)) with c in H by lia.
        - by apply unpromotedPawnOnFile_mirror. }
      assert (lastRank (enemy (turn state)) (8 - r) = lastRank (turn state) r)
        as ->.
      { apply eq_true_iff_eq. destruct (turn state); cbn;
          rewrite !Z.eqb_eq; lia. }
      assert (lastTwoRanks (enemy (turn state)) (8 - r) =
              lastTwoRanks (turn state) r) as ->.
      { apply eq_true_iff_eq. destruct (turn state); cbn;
          rewrite !Z.leb_le; lia. }
      done.
Qed.

(** The destinations of a piece, whatever the promotion flag. *)
Lemma genPseudoMoves_any_flag board r c from to :
  inBounds r c = true →
  (∃ promote, BoardMove from to promote ∈ genPseudoMoves board r c) ↔
  ∃ piece,
    cellAt board r c = Some piece ∧ from = (r, c) ∧
    reachesBy board piece r c to ∧ landing board piece to.
Proof.
  intros Hin. split.
  - intros (promote & (piece & Hpiece & Hraw & _)%genPseudoMoves_iff).
    apply rawMoves_iff in Hraw as (-> & Hreach & Hland); [|done].
    by exists piece.
  - intros (piece & Hpiece & -> & Hreach & Hland).
    exists (mustPromote piece to.1). apply genPseudoMoves_iff.
    exists piece. split_and!; [done|by apply rawMoves_iff|].
    destruct (mustPromote piece to.1) eqn:Hforced; [|done].
    apply mustPromote_zone in Hforced as [? ?]. auto.
Qed.

(** ** Moves and checks on the turned board *)

(** Two 9x9 boards with the same cells are the same board. *)
Lemma board_ext (b1 b2 : Board) :
  wf_board b1 → wf_board b2 →
  (∀ r c, inBounds r c = true → cellAt b1 r c = cellAt b2 r c) →
  b1 = b2.
Proof.
  intros [Hlen1 Hrows1] [Hlen2 Hrows2] Hcells.
  apply list_eq_same_length with 9%nat; [done..|].
  intros i row1 row2 Hi Hrow1 Hrow2. 
  pose proof (Forall_lookup_1 _ _ _ _ Hrows1 Hrow1) as Hl1.
  pose proof (Forall_lookup_1 _ _ _ _ Hrows2 Hrow2) as Hl2.
  cbn in Hl1, Hl2.
  apply list_eq_same_length with 9%nat; [done..|].
  intros j x1 x2 Hj Hx1 Hx2.
  specialize (Hcells (Z.of_nat i) (Z.of_nat j)).
  unfold cellAt in Hcells. rewrite andb_true_intro in Hcells by lia.
  rewrite !Nat2Z.id, Hrow1, Hrow2, Hx1, Hx2 in Hcells.
  apply Hcells, inBounds_spec. lia.
Qed.

Lemma cellAt_mirror' board r c :
  wf_board board →
  cellAt (mirrorBoard board) r c = flipPiece <$> cellAt board (8 - r) (8 - c).
Proof.
  intros Hwf. rewrite <- (cellAt_mirror board (8 - r) (8 - c) Hwf).
  f_equal; lia.
Qed.

Lemma setCell_mirror board r c v board1 :
  wf_board board →
  setCell board r c v = Some board1 →
  setCell (mirrorBoard board) (8 - r) (8 - c) (flipPiece <$> v) =
  Some (mirrorBoard board1).
Proof.
  intros Hwf Hb1.
  pose proof (setCell_wf _ _ _ _ _ Hb1 Hwf) as Hwf1.
  pose proof (setCell_inv _ _ _ _ _ Hb1) as [Hin _].
  destruct (setCell_Some (mirrorBoard board) (8 - r) (8 - c) (flipPiece <$> v))
    as [board2 Hb2]; [by apply mirrorBoard_wf|by rewrite inBounds_mirror|].
  rewrite Hb2. f_equal. apply board_ext.
  - eapply setCell_wf; [done|]. by apply mirrorBoard_wf.
  - by apply mirrorBoard_wf.
  - intros r' c' _. rewrite (cellAt_mirror' board1) by done.
    destruct (decide ((8 - r, 8 - c) = (r', c'))) as [Heq|Hne].
    + injection Heq as <- <-. rewrite (cellAt_setCell_eq _ _ _ _ _ Hb2).
      replace (8 - (8 - r)) with r by lia. replace (8 - (8 - c)) with c by lia.
      by rewrite (cellAt_setCell_eq _ _ _ _ _ Hb1).
    + rewrite (cellAt_setCell_ne _ _ _ _ _ r' c' Hb2) by done.
      rewrite (cellAt_mirror' board) by done.
      rewrite (cellAt_setCell_ne _ _ _ _ _ (8 - r') (8 - c') Hb1); [done|].
      intros [= -> ->]. apply Hne. f_equal; lia.
Qed.

Lemma promotePiece_flip pc : promotePiece (flipPiece pc) = flipPiece (promotePiece pc).
Proof. by destruct pc as [[] ? ?]. Qed.

Lemma setHand_mirror hs side ty n :
  setHand {| hands_b := hands_w hs; hands_w := hands_b hs |} (enemy side) ty n =
  {| hands_b := hands_w (setHand hs side ty n);
     hands_w := hands_b (setHand hs side ty n) |}.
Proof. by destruct side. Qed.

Lemma handOf_mirror hs side :
  handOf {| hands_b := hands_w hs; hands_w := hands_b hs |} (enemy side) =
  handOf hs side.
Proof. by destruct side. Qed.

(** Making the turned move in the turned position gives the turned result. *)
Lemma makeMove_mirror state m ns :
  wf_board (board state) →
  makeMove state m = Some ns →
  makeMove (mirrorState state) (mirrorMove m) = Some (mirrorState ns).
Proof.
  intros Hwf Hns. destruct m as [[fr fc] [tr tc] promote|ty [r c]].
  - apply makeMove_BoardMove_inv in Hns
      as (piece & b1 & b2 & Hin & Hpiece & Hb1 & Hb2 & ->).
    pose proof (setCell_wf _ _ _ _ _ Hb1 Hwf) as Hwf1.
    apply (setCell_mirror _ _ _ _ _ Hwf) in Hb1.
    apply (setCell_mirror _ _ _ _ _ Hwf1) in Hb2.
    unfold mirrorMove, mirrorSquare, mirrorState, makeMove.
    cbn [fst snd board hands turn].
    rewrite inBounds_mirror, Hin, !cellAt_mirror, Hpiece by done.
    cbn [fmap option_fmap option_map mbind option_bind].
    replace (if promote then promotePiece (flipPiece piece) else flipPiece piece)
      with (flipPiece (if promote then promotePiece piece else piece))
      by (destruct promote; by rewrite ?promotePiece_flip).
    cbn [fmap option_fmap option_map] in Hb1, Hb2. rewrite Hb1.
    cbn [mbind option_bind]. rewrite Hb2. cbn [mbind option_bind].
    do 2 f_equal.
    destruct (cellAt (board state) tr tc) as [cp|];
      cbn [fmap option_fmap option_map]; [|done].
    rewrite handOf_mirror.
    replace (t (demote (flipPiece cp))) with (t (demote cp)) by done.
    apply setHand_mirror.
  - apply makeMove_DropMove_inv in Hns as (b1 & Hb1 & ->).
    apply (setCell_mirror _ _ _ _ _ Hwf) in Hb1.
    unfold mirrorMove, mirrorSquare, mirrorState, makeMove.
    cbn [fst snd board hands turn].
    cbn [fmap option_fmap option_map] in Hb1. unfold flipPiece in Hb1.
    cbn [t p pr] in Hb1. rewrite Hb1.
    cbn [mbind option_bind]. do 2 f_equal.
    rewrite handOf_mirror. apply setHand_mirror.
Qed.

Lemma attacksSquare_pseudo b attacker hs tr tc :
  attacksSquare b attacker tr tc = true ↔
  ∃ from promote,
    BoardMove from (tr, tc) promote ∈
      genAllPseudo {| board := b; hands := hs; turn := attacker |}.
Proof.
  rewrite attacksSquare_spec. split.
  - intros (r & c & pc & m & Hin & Hpc & Hp & Hm & Hto).
    pose proof Hm as (piece & to & promote & _ & -> & _)%genPseudoMoves_spec.
    cbn [moveTo] in Hto. subst to. exists (r, c), promote.
    apply genAllPseudo_spec. left. by exists r, c, pc.
  - intros (from & promote & [(r & c & pc & Hin & Hpc & Hp & Hm)|Hm]
                             %genAllPseudo_spec).
    + by exists r, c, pc, (BoardMove from (tr, tc) promote).
    + by apply genDrops_spec in Hm as (? & ? & ? & [=] & _).
Qed.

Lemma attacksSquare_mirror_1 board attacker r c :
  wf_board board →
  attacksSquare board attacker r c = true →
  attacksSquare (mirrorBoard board) (enemy attacker) (8 - r) (8 - c) = true.
Proof.
  intros Hwf.
  rewrite (attacksSquare_pseudo board attacker
             {| hands_b := ∅; hands_w := ∅ |}).
  intros (from & promote & Hm%mirror_pseudo); [|done].
  eapply attacksSquare_pseudo. exists (mirrorSquare from), promote. exact Hm.
Qed.

Lemma attacksSquare_mirror board attacker r c :
  wf_board board →
  attacksSquare (mirrorBoard board) (enemy attacker) (8 - r) (8 - c) =
  attacksSquare board attacker r c.
Proof.
  intros Hwf. apply eq_true_iff_eq. split.
  - intros Hatt. apply attacksSquare_mirror_1 in Hatt; [|by apply mirrorBoard_wf].
    rewrite mirrorBoard_involutive, enemy_involutive in Hatt.
    by replace (8 - (8 - r)) with r in Hatt by lia;
       replace (8 - (8 - c)) with c in Hatt by lia.
  - by apply attacksSquare_mirror_1.
Qed.

(** With exactly one king of the player on the board, the player is in check
    exactly when the other side is on the turned board. *)
Lemma isCheck_mirror board player :
  wf_board board → kingCount board player = 1 →
  isCheck (mirrorBoard board) (enemy player) = isCheck board player.
Proof.
  intros Hwf Hone. unfold isCheck.
  destruct (findKing board player) as [k|] eqn:Hk.
  - pose proof (findKing_Some _ _ _ Hk) as (Hkin & kpc & Hkpc & Hkp & Hkt).
    destruct (findKing (mirrorBoard board) (enemy player)) as [k'|] eqn:Hk'.
    + pose proof (findKing_Some _ _ _ Hk') as (Hkin' & kpc' & Hkpc' & Hkp' & Hkt').
      rewrite cellAt_mirror' in Hkpc' by done.
      destruct (cellAt board (8 - k'.1) (8 - k'.2)) as [pc|] eqn:Hpc; [|done].
      injection Hkpc' as <-. cbn [flipPiece p t] in Hkp', Hkt'.
      assert ((k.1, k.2) = (8 - k'.1, 8 - k'.2)) as [= Hk1 Hk2].
      { eapply (kingCount_1_unique board player); try done.
        - by rewrite inBounds_mirror.
        - by destruct (p pc), player. }
      rewrite Hk1, Hk2, <- (attacksSquare_mirror board (enemy player)) by done.
      f_equal; lia.
    + apply findKing_None_inv in Hk'. exfalso.
      apply (Hk' (8 - k.1) (8 - k.2) (flipPiece kpc)).
      * by rewrite inBounds_mirror.
      * by rewrite cellAt_mirror, Hkpc.
      * cbn [flipPiece p t]. by rewrite Hkp.
  - apply findKing_None_inv in Hk.
    pose proof (kingCount_absent _ _ Hwf Hk). lia.
Qed.

(** The legal moves of a position of a game and of the turned position. *)
Lemma legalMoves_mirror state :
  gameInv state →
  ∃ legals legals',
    legalMoves state = Some legals ∧
    legalMoves (mirrorState state) = Some legals' ∧
    ∀ m, m ∈ legals ↔ mirrorMove m ∈ legals'.
Proof.
  intros Hinv. pose proof Hinv as (Hwf & _).
  destruct (legalMoves_spec state Hwf) as (legals & Hlegals & Hiff).
  destruct (legalMoves_spec (mirrorState state)) as (legals' & Hlegals' & Hiff');
    [by apply mirrorBoard_wf|].
  exists legals, legals'. split_and!; [done..|]. intros m.
  rewrite Hiff, Hiff'. 
  assert (∀ ns, m ∈ genAllPseudo state → makeMove state m = Some ns →
                isCheck (board (mirrorState ns)) (turn (mirrorState state)) =
                isCheck (board ns) (turn state)) as Hcheck.
  { intros ns Hm Hns. cbn [mirrorState board turn]. apply isCheck_mirror.
    - by eapply makeMove_wf.
    - by eapply gameInv_step_kings. }
  split.
  - intros (Hm & ns & Hns & Hsafe). split; [by apply mirror_pseudo|].
    exists (mirrorState ns). split; [by apply makeMove_mirror|].
    by rewrite Hcheck.
  - intros (Hm' & ns' & Hns' & Hsafe').
    assert (m ∈ genAllPseudo state) as Hm.
    { apply mirror_pseudo in Hm'; [|by apply mirrorBoard_wf].
      by rewrite mirrorState_involutive, mirrorMove_involutive in Hm'. }
    split; [done|].
    destruct (genAllPseudo_makeMove state m Hwf Hm) as [ns Hns].
    exists ns. split; [done|].
    rewrite (makeMove_mirror _ _ _ Hwf Hns) in Hns'. injection Hns' as <-.
    by rewrite <- Hcheck.
Qed.

(** ** Normalised text *)

Ltac blank_solve :=
  unfold isBlank, isWhiteSpace in *;
  repeat match goal with
         | H : _ |- _ =>
             progress rewrite ?orb_true_iff, ?orb_false_iff, ?andb_true_iff,
               ?andb_false_iff, ?Z.eqb_eq, ?Z.eqb_neq, ?Z.leb_le, ?Z.leb_gt in H
         end;
  rewrite ?orb_true_iff, ?orb_false_iff, ?andb_true_iff, ?andb_false_iff,
    ?Z.eqb_eq, ?Z.eqb_neq, ?Z.leb_le, ?Z.leb_gt;
  lia.

Lemma isBlank_spec ch : isBlank ch = true ↔ ch = 32 ∨ ch = 9.
Proof. blank_solve. Qed.

Lemma isBlank_false ch : isBlank ch = false ↔ ch ≠ 32 ∧ ch ≠ 9.
Proof. blank_solve. Qed.

Lemma isWhiteSpace_blank ch : isBlank ch = true → isWhiteSpace ch = true.
Proof. intros. blank_solve. Qed.

Lemma removeCR_spec s ch : ch ∈ removeCR s ↔ ch ∈ s ∧ ch ≠ 13.
Proof.
  unfold removeCR. rewrite !list_elem_of_In, filter_In, negb_true_iff.
  by rewrite Z.eqb_neq.
Qed.

Lemma removeCR_id s : 13 ∉ s → removeCR s = s.
Proof.
  unfold removeCR. induction s as [|ch s IH]; [done|].
  intros Hnot. apply not_elem_of_cons in Hnot as [Hne Hnot]. cbn [List.filter].
  rewrite (proj2 (Z.eqb_neq ch 13)) by done. cbn [negb]. by rewrite IH.
Qed.

Lemma squeezeBlanks_elem inRun s ch :
  ch ∈ squeezeBlanks inRun s → ch ≠ 9 ∧ (ch ∈ s ∨ ch = 32 ∧ 9 ∈ s).
Proof.
  revert inRun. induction s as [|a s IH]; intros inRun; cbn [squeezeBlanks].
  - by intros ?%elem_of_nil.
  - destruct (isBlank a) eqn:Ha.
    + apply isBlank_spec in Ha.
      assert (ch ∈ squeezeBlanks true s → ch ≠ 9 ∧ (ch ∈ a :: s ∨ ch = 32 ∧ 9 ∈ a :: s)).
      { intros (? & [?|[? ?]])%IH; (split; [done|]); [left|right];
          rewrite ?elem_of_cons; auto. }
      destruct inRun; [done|].
      intros [->|?]%elem_of_cons; [|auto]. split; [done|].
      destruct Ha as [-> | ->]; [left|right]; rewrite ?elem_of_cons; auto.
    + apply isBlank_false in Ha as [? ?].
      intros [->|(? & [?|[? ?]])%IH]%elem_of_cons; (split; [done|]);
        rewrite ?elem_of_cons; auto.
Qed.

Lemma squeezeBlanks_noDouble inRun s :
  noDoubleSpace (squeezeBlanks inRun s) ∧
  (inRun = true → head (squeezeBlanks inRun s) ≠ Some 32).
Proof.
  revert inRun. induction s as [|a s IH]; intros inRun; cbn [squeezeBlanks].
  - done.
  - destruct (isBlank a) eqn:Ha.
    + destruct (IH true) as [Hno Hhead]. destruct inRun; [by auto|].
      split; [|done]. specialize (Hhead eq_refl).
      destruct (squeezeBlanks true s) as [|b r]; [done|].
      cbn [noDoubleSpace]. split; [|done]. intros [_ ->]. done.
    + apply isBlank_false in Ha as [? ?].
      destruct (IH false) as [Hno _]. split.
      * destruct (squeezeBlanks false s) as [|b r]; [done|].
        cbn [noDoubleSpace]. split; [|done]. by intros [? _].
      * intros _. cbn. by intros [= ?].
Qed.

Lemma squeezeBlanks_id inRun s :
  9 ∉ s → noDoubleSpace s → (inRun = true → head s ≠ Some 32) →
  squeezeBlanks inRun s = s.
Proof.
  revert inRun. induction s as [|a s IH]; intros inRun Htab Hno Hhead; [done|].
  apply not_elem_of_cons in Htab as [Ha Htab]. cbn [squeezeBlanks].
  assert (noDoubleSpace s) as Hno'.
  { destruct s; [done|]. by destruct Hno. }
  destruct (isBlank a) eqn:Hblank.
  - apply isBlank_spec in Hblank as [-> | ->]; [|done].
    destruct inRun; [by destruct Hhead|].
    f_equal. apply IH; [done..|]. intros _.
    destruct s as [|b s]; [done|]. destruct Hno as [Hab _].
    cbn. intros [= ->]. by apply Hab.
  - f_equal. by apply IH.
Qed.

Lemma trimStart_suffix s : trimStart s `suffix_of` s.
Proof.
  induction s as [|ch s IH]; cbn [trimStart]; [done|].
  destruct (isWhiteSpace ch); [by apply suffix_cons_r|done].
Qed.

Lemma trimStart_head s ch :
  head (trimStart s) = Some ch → isWhiteSpace ch = false.
Proof.
  induction s as [|a s IH]; cbn [trimStart]; [done|].
  destruct (isWhiteSpace a) eqn:Ha; [done|]. cbn. by intros [= <-].
Qed.

Lemma trimStart_id s :
  (∀ ch, head s = Some ch → isWhiteSpace ch = false) → trimStart s = s.
Proof.
  destruct s as [|a s]; [done|]. intros Hhead. cbn [trimStart].
  by rewrite (Hhead a).
Qed.

Lemma trimEnd_prefix s : trimEnd s `prefix_of` s.
Proof.
  induction s as [|ch s IH]; cbn [trimEnd]; [done|].
  destruct (trimEnd s) as [|b kept] eqn:Hkept.
  - destruct (isWhiteSpace ch); [apply prefix_nil|].
    apply prefix_cons, prefix_nil.
  - by apply prefix_cons.
Qed.

Lemma trimEnd_last s ch :
  last (trimEnd s) = Some ch → isWhiteSpace ch = false.
Proof.
  induction s as [|a s IH]; cbn [trimEnd]; [done|].
  destruct (trimEnd s) as [|b kept] eqn:Hkept.
  - destruct (isWhiteSpace a) eqn:Ha; [done|]. cbn. by intros [= <-].
  - rewrite last_cons_cons. exact IH.
Qed.

Lemma trimEnd_id s :
  (∀ ch, last s = Some ch → isWhiteSpace ch = false) → trimEnd s = s.
Proof.
  induction s as [|a s IH]; [done|]. intros Hlast. cbn [trimEnd].
  destruct s as [|b s].
  - cbn. by rewrite (Hlast a).
  - rewrite IH; [done|]. intros ch Hch. apply Hlast.
    by rewrite last_cons_cons.
Qed.

Lemma noDoubleSpace_app s1 s2 :
  noDoubleSpace (s1 ++ s2) → noDoubleSpace s1 ∧ noDoubleSpace s2.
Proof.
  induction s1 as [|a s1 IH]; [done|]. destruct s1 as [|b s1].
  - cbn [app noDoubleSpace]. destruct s2; [done|]. by intros [_ ?].
  - intros [Hab Hrest]. apply IH in Hrest as [? ?]. by split.
Qed.

Lemma trim_segment s : ∃ s1 s2, s = s1 ++ trim s ++ s2.
Proof.
  destruct (trimStart_suffix s) as [s1 Hs1].
  destruct (trimEnd_prefix (trimStart s)) as [s2 Hs2].
  exists s1, s2. unfold trim. by rewrite <- Hs2.
Qed.

Lemma trim_head s ch : head (trim s) = Some ch → isWhiteSpace ch = false.
Proof.
  unfold trim. intros Hhead.
  destruct (trimEnd_prefix (trimStart s)) as [s2 Hs2].
  apply (trimStart_head s). rewrite Hs2.
  by destruct (trimEnd (trimStart s)).
Qed.

Lemma normalizeText_normal raw : normalText (normalizeText raw).
Proof.
  unfold normalizeText.
  destruct (trim_segment (squeezeBlanks false (removeCR raw)))
    as (s1 & s2 & Hseg).
  assert (∀ ch, ch ∈ trim (squeezeBlanks false (removeCR raw)) →
                ch ∈ squeezeBlanks false (removeCR raw)) as Hsub.
  { intros ch Hch. rewrite Hseg, !elem_of_app. auto. }
  split_and!.
  - intros (_ & [[_ ?]%removeCR_spec|[[=] _]])%Hsub%squeezeBlanks_elem. done.
  - by intros [? _]%Hsub%squeezeBlanks_elem.
  - destruct (squeezeBlanks_noDouble false (removeCR raw)) as [Hno _].
    rewrite Hseg in Hno.
    by apply noDoubleSpace_app in Hno as [_ [? _]%noDoubleSpace_app].
  - apply trim_head.
  - apply trimEnd_last.
Qed.

Lemma normalizeText_id s : normalText s → normalizeText s = s.
Proof.
  intros (Hcr & Htab & Hno & Hhead & Hlast). unfold normalizeText, trim.
  rewrite removeCR_id, squeezeBlanks_id, trimStart_id, trimEnd_id; done.
Qed.

(** ** Lines of text *)

Lemma splitLines_first s piece pieces :
  splitLines false s = piece :: pieces → piece `prefix_of` s.
Proof.
  revert piece pieces.
  induction s as [|ch s IH]; intros piece pieces; cbn [splitLines].
  - by intros [= <- <-].
  - destruct (ch =? 10); [intros [= <- _]; apply prefix_nil|].
    destruct (splitLines false s) as [|piece' pieces'].
    + intros [= <- _]. apply prefix_cons, prefix_nil.
    + intros [= <- _]. by eapply prefix_cons, IH.
Qed.

Lemma splitLines_segment inRun s line :
  line ∈ splitLines inRun s → (10 ∉ line) ∧ ∃ s1 s2, s = s1 ++ line ++ s2.
Proof.
  revert inRun line.
  induction s as [|ch s IH]; intros inRun line; cbn [splitLines].
  - intros ->%list_elem_of_singleton. split; [by intros ?%elem_of_nil|].
    by exists [], [].
  - destruct (ch =? 10) eqn:Hch.
    + assert (line ∈ splitLines true s →
              (10 ∉ line) ∧ ∃ s1 s2, ch :: s = s1 ++ line ++ s2) as Hrest.
      { intros (? & s1 & s2 & ->)%IH. split; [done|]. by exists (ch :: s1), s2. }
      destruct inRun; [done|].
      intros [->|?]%elem_of_cons; [|auto].
      split; [by intros ?%elem_of_nil|]. by exists [], (ch :: s).
    + apply Z.eqb_neq in Hch.
      destruct (splitLines false s) as [|piece pieces] eqn:Hsplit.
      * intros ->%list_elem_of_singleton. split.
        -- intros ?%list_elem_of_singleton. lia.
        -- by exists [], s.
      * intros [->|Hline]%elem_of_cons.
        -- destruct (IH false piece) as [Hlf _]; [rewrite Hsplit; by left|].
           split; [by apply not_elem_of_cons|].
           destruct (splitLines_first _ _ _ Hsplit) as [s2 ->].
           by exists [], s2.
        -- destruct (IH false line) as (? & s1 & s2 & ->);
             [rewrite Hsplit; by right|].
           split; [done|]. by exists (ch :: s1), s2.
Qed.

Lemma splitLines_nonempty inRun s :
  s ≠ [] → last s ≠ Some 10 →
  Forall (λ line, line ≠ []) (tail (splitLines inRun s)) ∧
  (inRun = true ∨ head s ≠ Some 10 →
   Forall (λ line, line ≠ []) (splitLines inRun s)).
Proof.
  revert inRun. induction s as [|ch s IH]; intros inRun Hne Hlast; [done|].
  cbn [splitLines]. destruct (ch =? 10) eqn:Hch.
  - apply Z.eqb_eq in Hch as ->.
    destruct s as [|b s]; [done|]. rewrite last_cons_cons in Hlast.
    destruct (IH true) as [_ Hall]; [done..|].
    specialize (Hall (or_introl eq_refl)).
    destruct inRun.
    + split; [|done]. by apply Forall_tail.
    + split; [done|]. by intros [[=]|[]].
  - apply Z.eqb_neq in Hch.
    destruct s as [|b s].
    + cbn. split; [done|]. intros _. by repeat constructor.
    + rewrite last_cons_cons in Hlast.
      destruct (IH false) as [Htail _]; [done..|].
      destruct (splitLines false (b :: s)) as [|piece pieces].
      * split; [done|]. intros _. by repeat constructor.
      * cbn [tail] in *. split; [done|]. intros _. by constructor.
Qed.

(** * The claims *)

(** ** C1: no legal move leaves the mover's own king attacked *)

(** C1. On every position (a 9x9 board), [legalMoves] returns a list; every
    move of it, applied with [makeMove], gives a position on whose board
    [isCheck] is false for the side that moved; and the list holds exactly the
    pseudo moves with that property: a pseudo move it drops is one after which
    [isCheck] is true for the mover. *)
Theorem legalMoves_never_leaves_own_king_attacked state :
  wf_board (board state) →
  ∃ legals,
    legalMoves state = Some legals ∧
    (∀ m, m ∈ legals →
          m ∈ genAllPseudo state ∧
          ∃ ns, makeMove state m = Some ns ∧
                isCheck (board ns) (turn state) = false) ∧
    (∀ m, m ∈ genAllPseudo state → m ∉ legals →
          ∃ ns, makeMove state m = Some ns ∧
                isCheck (board ns) (turn state) = true).
Proof.
  intros Hwf. destruct (legalMoves_spec state Hwf) as (legals & Hl & Hiff).
  exists legals. split_and!; [done|by intros m ?%Hiff|].
  intros m Hm Hnot.
  destruct (genAllPseudo_makeMove state m Hwf Hm) as [ns Hns].
  exists ns. split; [done|].
  apply not_false_iff_true. intros Hsafe. apply Hnot, Hiff. eauto.
Qed.

(** In the starting position. *)
Lemma legalMoves_never_leaves_own_king_attacked_witness :
  ∃ legals,
    legalMoves initialState = Some legals ∧
    (∀ m, m ∈ legals →
          m ∈ genAllPseudo initialState ∧
          ∃ ns, makeMove initialState m = Some ns ∧
                isCheck (board ns) (turn initialState) = false) ∧
    (∀ m, m ∈ genAllPseudo initialState → m ∉ legals →
          ∃ ns, makeMove initialState m = Some ns ∧
                isCheck (board ns) (turn initialState) = true).
Proof.
  apply (legalMoves_never_leaves_own_king_attacked initialState).
  exact startPosition_wf.
Defined.

(** ** C2: a missing king *)

(** C2, counterexample. On the starting array without Sente's king,
    [findKing] finds nothing and [isCheck] returns the boolean [false]: the
    call returns normally. *)
Lemma isCheck_returns_without_king :
  findKing kinglessBoard B = None ∧ isCheck kinglessBoard B = false.
Proof. split; reflexivity. Qed.

(** C2, amended. On every board without [side]'s king, [isCheck] returns
    [false]: the guard [if(!kpos) return false] answers, no error is raised. *)
Theorem isCheck_false_without_king board side :
  kingAbsent board side → isCheck board side = false.
Proof.
  intros Habs. unfold isCheck. by rewrite (findKing_None board side Habs).
Qed.

(** On the starting array without Sente's king. *)
Lemma isCheck_false_without_king_witness :
  isCheck kinglessBoard B = false.
Proof.
  apply (isCheck_false_without_king kinglessBoard B).
  apply findKing_None_inv. reflexivity.
Defined.

(** ** C3: dropping from an empty hand *)

(** C3, counterexample. In the starting position Sente holds no pawn, and
    [makeMove] applied to a pawn drop on the empty square (4,4) returns a
    position: Sente's pawn count in it is -1. *)
Lemma makeMove_drop_from_empty_hand_returns :
  countOf (handOf (hands initialState) (turn initialState)) tP = 0 ∧
  ∃ ns, makeMove initialState (DropMove tP (4, 4)) = Some ns ∧
        handOf (hands ns) B !! tP = Some (-1).
Proof. split; [reflexivity|]. eexists. split; reflexivity. Qed.

(** C3, amended. [makeMove] does not test the hand count: a drop of a type
    whose count is zero returns a position where that count is -1. The moves
    of the generator never do this: from a position with non-negative counts,
    every move of [genAllPseudo] gives a position with non-negative counts,
    so no count is negative in a position reached from the start by moves
    taken from [legalMoves]. *)
Theorem hand_counts_nonnegative_under_generated_moves :
  (∀ state ty r c,
     wf_board (board state) → inBounds r c = true →
     countOf (handOf (hands state) (turn state)) ty = 0 →
     ∃ ns, makeMove state (DropMove ty (r, c)) = Some ns ∧
           handOf (hands ns) (turn state) !! ty = Some (-1)) ∧
  (∀ state m,
     wf_board (board state) → handsNonneg (hands state) →
     m ∈ genAllPseudo state →
     ∃ ns, makeMove state m = Some ns ∧ handsNonneg (hands ns)) ∧
  (∀ state, reachable state → handsNonneg (hands state)).
Proof.
  split_and!.
  - intros state ty r c Hwf Hin Hcount.
    destruct (makeMove_addresses state (DropMove ty (r, c)) Hwf Hin)
      as [ns Hns].
    exists ns. split; [done|].
    apply makeMove_DropMove_inv in Hns as (board1 & _ & ->).
    rewrite Hcount. cbn [hands].
    destruct (turn state); cbn [setHand handOf hands_b hands_w];
      by rewrite lookup_insert_eq.
  - apply genAllPseudo_handsNonneg.
  - by intros state [_ ?]%reachable_inv.
Qed.

(** Sente drops the one pawn in hand: the count goes to 0. *)
Lemma hand_counts_nonnegative_under_generated_moves_witness :
  ∃ ns, makeMove pawnInHand (DropMove tP (4, 4)) = Some ns ∧
        handsNonneg (hands ns).
Proof.
  apply (proj1 (proj2 hand_counts_nonnegative_under_generated_moves)
           pawnInHand (DropMove tP (4, 4))).
  - split; [reflexivity|]. repeat constructor.
  - intros [] []; vm_compute; discriminate.
  - apply elem_of_computed. vm_compute. reflexivity.
Defined.

(** ** C4: forced promotion *)

(** C4. In [genAllPseudo] and in [legalMoves], a board move of a pawn or a
    lance (the piece standing on the origin square) to the mover's last rank
    (row 0 for Sente, row 8 for Gote), or of a knight to the last two ranks
    (rows 0-1 for Sente, rows 7-8 for Gote), carries [promote = true]: the
    move with [promote = false] is not generated. *)
Theorem forced_promotion_only_promoting state legals from to promote piece :
  BoardMove from to promote ∈ genAllPseudo state ∨
  (legalMoves state = Some legals ∧ BoardMove from to promote ∈ legals) →
  cellAt (board state) from.1 from.2 = Some piece →
  forcedRow (t piece) (turn state) to.1 →
  promote = true.
Proof.
  intros Hm Hpiece Hrow.
  assert (BoardMove from to promote ∈ genAllPseudo state) as Hpseudo.
  { destruct Hm as [?|[? ?]]; [done|by eapply legalMoves_pseudo]. }
  apply genAllPseudo_BoardMove in Hpseudo
    as (piece' & _ & Hpiece' & Hturn & _ & _ & Hforced).
  simplify_eq. apply Hforced, mustPromote_forcedRow. by rewrite Hturn.
Qed.

(** A Sente pawn on (1,4) steps onto the last rank: only the promoting move
    is legal. *)
Lemma forced_promotion_only_promoting_witness :
  legalMoves pawnBeforeLastRank = Some [BoardMove (1, 4) (0, 4) true] ∧
  cellAt (board pawnBeforeLastRank) 1 4 = Some {| t := tP; p := B; pr := false |} ∧
  forcedRow tP (turn pawnBeforeLastRank) 0 ∧
  true = true.
Proof.
  assert (legalMoves pawnBeforeLastRank = Some [BoardMove (1, 4) (0, 4) true])
    as Hlegals by (vm_compute; reflexivity).
  assert (forcedRow tP (turn pawnBeforeLastRank) 0) as Hrow
    by (left; split; [by left|reflexivity]).
  split_and!; [done|reflexivity|done|].
  apply (forced_promotion_only_promoting pawnBeforeLastRank
           [BoardMove (1, 4) (0, 4) true] (1, 4) (0, 4) true
           {| t := tP; p := B; pr := false |}).
  - right. split; [done|]. apply list_elem_of_here.
  - reflexivity.
  - done.
Defined.

(** ** C5: two pawns on one file *)

(** C5. [legalMoves] (and [genAllPseudo]) never holds a pawn drop onto a file
    where an unpromoted pawn of the side to move stands; and the pawn drops
    generated are exactly those onto an empty square of the grid, off the
    last rank, with a non-zero pawn count in hand and no such pawn on the
    file: a promoted pawn or a pawn of the other side on the file does not
    stop the drop. *)
Theorem no_pawn_drop_on_file_with_own_unpromoted_pawn state :
  (∀ legals r c,
     DropMove tP (r, c) ∈ genAllPseudo state ∨
     (legalMoves state = Some legals ∧ DropMove tP (r, c) ∈ legals) →
     ¬ unpromotedPawnOnFile (board state) (turn state) c) ∧
  (∀ r c,
     DropMove tP (r, c) ∈ genAllPseudo state ↔
     countOf (handOf (hands state) (turn state)) tP ≠ 0 ∧
     inBounds r c = true ∧
     cellAt (board state) r c = None ∧
     lastRank (turn state) r = false ∧
     ¬ unpromotedPawnOnFile (board state) (turn state) c).
Proof.
  assert (∀ r c,
     DropMove tP (r, c) ∈ genAllPseudo state ↔
     countOf (handOf (hands state) (turn state)) tP ≠ 0 ∧
     inBounds r c = true ∧
     cellAt (board state) r c = None ∧
     lastRank (turn state) r = false ∧
     ¬ unpromotedPawnOnFile (board state) (turn state) c) as Hiff.
  { intros r c.
    rewrite genAllPseudo_DropMove, genDrops_spec,
      <- hasUnpromotedPawnOnFile_spec, not_true_iff_false.
    unfold dropRestricted. split.
    - intros (ty & r' & c' & [= <- <- <-] & Hcount & Hin & Hcell & Hok).
      cbn in Hok. rewrite !orb_false_r in Hok.
      apply orb_false_iff in Hok as [? ?]. done.
    - intros (Hcount & Hin & Hcell & Hlast & Hfile).
      exists tP, r, c. by rewrite Hfile, Hlast. }
  split; [|done].
  intros legals r c Hm.
  assert (DropMove tP (r, c) ∈ genAllPseudo state) as Hpseudo.
  { destruct Hm as [?|[? ?]]; [done|by eapply legalMoves_pseudo]. }
  by apply Hiff in Hpseudo as (_ & _ & _ & _ & ?).
Qed.

(** A pawn drop on file 4, where a promoted Sente pawn and a Gote pawn
    stand. *)
Lemma no_pawn_drop_on_file_with_own_unpromoted_pawn_witness :
  DropMove tP (4, 4) ∈ genAllPseudo pawnInHand ∧
  ¬ unpromotedPawnOnFile (board pawnInHand) (turn pawnInHand) 4.
Proof.
  assert (DropMove tP (4, 4) ∈ genAllPseudo pawnInHand) as Hm
    by (apply elem_of_computed; vm_compute; reflexivity).
  split; [done|].
  apply (proj1 (no_pawn_drop_on_file_with_own_unpromoted_pawn pawnInHand)
           [] 4 4).
  by left.
Defined.

(** ** C6: the starting position *)

(** C6. [initialState] is the starting array with empty hands and Sente to
    move, and [legalMoves] returns exactly 30 moves for it, none of them a
    drop and none of them promoting. *)
Theorem initial_position_has_30_legal_moves :
  board initialState = startPosition ∧
  hands initialState = {| hands_b := ∅; hands_w := ∅ |} ∧
  turn initialState = B ∧
  ∃ legals,
    legalMoves initialState = Some legals ∧
    length legals = 30%nat ∧
    Forall (λ m, isDrop m = false ∧ isPromoting m = false) legals.
Proof.
  split_and!; [done..|].
  eexists. split; [vm_compute; reflexivity|].
  split; [reflexivity|]. repeat constructor.
Qed.

(** ** C7: the number of pieces *)

(** C7. For every position (a 9x9 board) and every move of [legalMoves],
    [makeMove] returns a position with the same total number of pieces, board
    pieces plus the hand counts of both sides. When the move captures, the
    captured piece goes to the mover's hand unpromoted and with the mover as
    owner ([demote]): the mover's count of its type goes up by one and the
    board loses one piece. *)
Theorem total_piece_count_conserved state legals m :
  wf_board (board state) →
  legalMoves state = Some legals → m ∈ legals →
  ∃ ns,
    makeMove state m = Some ns ∧
    totalPieces ns = totalPieces state ∧
    ∀ from to promote cp,
      m = BoardMove from to promote →
      cellAt (board state) to.1 to.2 = Some cp →
      demote cp = {| t := t cp; p := turn state; pr := false |} ∧
      countOf (handOf (hands ns) (turn state)) (t cp)
        = countOf (handOf (hands state) (turn state)) (t cp) + 1 ∧
      boardCount (board ns) = boardCount (board state) - 1.
Proof.
  intros Hwf Hlegals Hm. apply (legalMoves_pseudo _ _ _ Hlegals) in Hm.
  destruct (genAllPseudo_conserves state m Hwf Hm) as (ns & Hns & Htotal).
  exists ns. split_and!; [done..|].
  intros [fr fc] [tr tc] promote cp -> Hcp. cbn [fst snd] in Hcp.
  apply genAllPseudo_BoardMove in Hm
    as (piece & _ & Hpiece & Hturn & Hland & _).
  pose proof (landing_ne _ _ _ _ _ Hpiece Hland) as Hne.
  destruct Hland as [_ Hland]. cbn [fst snd] in *. rewrite Hcp in Hland.
  apply makeMove_BoardMove_inv in Hns
    as (piece' & board1 & board2 & _ & Hpiece' & Hb1 & Hb2 & ->).
  simplify_eq. cbn [board hands]. rewrite Hcp. split_and!.
  - unfold demote. f_equal. rewrite <- Hturn.
    by destruct (p cp), (p piece).
  - rewrite countOf_setHand. cbn [demote t]. by rewrite decide_True.
  - rewrite (boardCount_setCell _ _ _ _ _ Hb2).
    rewrite (cellAt_setCell_ne _ _ _ _ _ fr fc Hb1), Hpiece by done.
    rewrite (boardCount_setCell _ _ _ _ _ Hb1), Hcp. cbn [occupied]. lia.
Qed.

(** The first pawn step of a game. *)
Lemma total_piece_count_conserved_witness :
  ∃ ns,
    makeMove initialState (BoardMove (6, 4) (5, 4) false) = Some ns ∧
    totalPieces ns = totalPieces initialState ∧
    ∀ from to promote cp,
      BoardMove (6, 4) (5, 4) false = BoardMove from to promote →
      cellAt (board initialState) to.1 to.2 = Some cp →
      demote cp = {| t := t cp; p := turn initialState; pr := false |} ∧
      countOf (handOf (hands ns) (turn initialState)) (t cp)
        = countOf (handOf (hands initialState) (turn initialState)) (t cp) + 1 ∧
      boardCount (board ns) = boardCount (board initialState) - 1.
Proof.
  eapply (total_piece_count_conserved initialState _
            (BoardMove (6, 4) (5, 4) false)).
  - split; [reflexivity|]. repeat constructor.
  - vm_compute. reflexivity.
  - apply elem_of_computed. vm_compute. reflexivity.
Defined.

(** ** C8: the argument of [makeMove] is left alone *)

(** C8. Take a store in which [ref] stands for a position (a 9x9 board) and a
    move of [genAllPseudo]. [makeMoveS], that is [makeMove] with its clone and
    its assignments, returns a state object that stands for the position
    [makeMove] computes; every object of that position (state object, board
    array, rows, hands object, hand objects) is new; every object of the
    store it was given is as before; and [ref] still stands for the same
    position: same board squares, same hand counts, same turn. *)
Theorem makeMove_returns_new_position_argument_unchanged store ref state m :
  readState store ref = Some state →
  wf_board (board state) →
  m ∈ genAllPseudo state →
  ∃ ns store' ref',
    makeMove state m = Some ns ∧
    makeMoveS store ref m = Some (store', ref') ∧
    readState store' ref' = Some ns ∧
    Forall (λ l, (length store ≤ l)%nat) (objectsOf store' ref') ∧
    (∀ l, (l < length store)%nat → store' !! l = store !! l) ∧
    readState store' ref = Some state.
Proof.
  intros Hread Hwf Hm.
  destruct (genAllPseudo_makeMove state m Hwf Hm) as [ns Hns].
  exists ns, (placed store ns), (stateRef store ns). split_and!.
  - done.
  - by eapply makeMoveS_refines.
  - apply readState_placed.
  - apply objectsOf_placed_new.
  - intros l Hl. by apply lookup_placed_old.
  - by apply readState_app.
Qed.

(** The starting position laid out in an empty store, and the first pawn
    step. *)
Lemma makeMove_returns_new_position_argument_unchanged_witness :
  ∃ ns store' ref',
    makeMove initialState (BoardMove (6, 4) (5, 4) false) = Some ns ∧
    makeMoveS (placed [] initialState) (stateRef [] initialState)
              (BoardMove (6, 4) (5, 4) false) = Some (store', ref') ∧
    readState store' ref' = Some ns ∧
    Forall (λ l, (length (placed [] initialState) ≤ l)%nat)
           (objectsOf store' ref') ∧
    (∀ l, (l < length (placed [] initialState))%nat →
          store' !! l = placed [] initialState !! l) ∧
    readState store' (stateRef [] initialState) = Some initialState.
Proof.
  apply (makeMove_returns_new_position_argument_unchanged
           (placed [] initialState) (stateRef [] initialState) initialState
           (BoardMove (6, 4) (5, 4) false)).
  - vm_compute. reflexivity.
  - split; [reflexivity|]. repeat constructor.
  - apply elem_of_computed. vm_compute. reflexivity.
Defined.

(** ** C9: pieces that cannot promote *)

(** C9. [promotePiece] returns a king or a gold as it is. So when [makeMove]
    applies a board move of such a piece on a board where only promotable
    pieces carry the promoted flag, the piece placed on the destination is
    the piece that moved, with [pr = false], whatever the move's [promote]
    flag; every move [makeMove] applies keeps the board such that only
    promotable pieces carry the flag; and the starting array is such a
    board. *)
Theorem unpromotable_piece_stays_unpromoted :
  (∀ piece, PROMOTABLE (t piece) = false → promotePiece piece = piece) ∧
  (∀ state from to promote ns piece,
     promotedOk (board state) →
     makeMove state (BoardMove from to promote) = Some ns →
     cellAt (board state) from.1 from.2 = Some piece →
     PROMOTABLE (t piece) = false → from ≠ to →
     cellAt (board ns) to.1 to.2 = Some piece ∧ pr piece = false) ∧
  (∀ state m ns,
     promotedOk (board state) → makeMove state m = Some ns →
     promotedOk (board ns)) ∧
  promotedOk (board initialState).
Proof.
  split_and!; [| | |exact startPosition_promotedOk].
  - apply promotePiece_unpromotable.
  - intros state [fr fc] [tr tc] promote ns piece Hok Hns Hpiece Hp Hne.
    cbn [fst snd] in *.
    rewrite (cellAt_makeMove_board _ _ _ _ _ _ _ piece tr tc Hns Hpiece).
    rewrite decide_False, decide_True by done. split.
    + f_equal. destruct promote; [|done]. by apply promotePiece_unpromotable.
    + apply not_true_is_false. intros Hpr.
      by rewrite (Hok _ _ _ Hpiece Hpr) in Hp.
  - intros state m ns Hok Hns. by eapply makeMove_promotedOk.
Qed.

(** Sente's king steps forward with [promote = true]. *)
Lemma unpromotable_piece_stays_unpromoted_witness :
  ∃ ns,
    makeMove initialState (BoardMove (8, 4) (7, 4) true) = Some ns ∧
    cellAt (board ns) 7 4 = Some {| t := tK; p := B; pr := false |} ∧
    pr {| t := tK; p := B; pr := false |} = false.
Proof.
  eexists. split; [vm_compute; reflexivity|].
  apply (proj1 (proj2 unpromotable_piece_stays_unpromoted)
           initialState (8, 4) (7, 4) true _
           {| t := tK; p := B; pr := false |}).
  - exact startPosition_promotedOk.
  - vm_compute. reflexivity.
  - reflexivity.
  - reflexivity.
  - discriminate.
Defined.

(** ** C10: absent hand entries *)

(** C10. A hand entry that is absent reads as 0, like an entry that is 0:
    [genAllPseudo] holds no drop of a type whose entry is absent or 0;
    [makeMove] writes the count read that way minus one on a drop and plus
    one on a capture. So two positions with the same board and turn whose
    hands read the same have the same pseudo moves and the same legal moves,
    and [makeMove] takes them to positions that again read the same; the
    starting position, whose hand objects are empty, is such a pair with the
    starting position whose hands map every type to 0. *)
Theorem absent_hand_entry_reads_as_zero :
  (∀ hand ty, countOf hand ty = 0 ↔ hand !! ty = None ∨ hand !! ty = Some 0) ∧
  (∀ state ty to,
     countOf (handOf (hands state) (turn state)) ty = 0 →
     DropMove ty to ∉ genAllPseudo state) ∧
  (∀ state ty to ns,
     makeMove state (DropMove ty to) = Some ns →
     handOf (hands ns) (turn state) !! ty =
     Some (countOf (handOf (hands state) (turn state)) ty - 1)) ∧
  (∀ state from to promote ns cp,
     makeMove state (BoardMove from to promote) = Some ns →
     cellAt (board state) to.1 to.2 = Some cp →
     handOf (hands ns) (turn state) !! t cp =
     Some (countOf (handOf (hands state) (turn state)) (t cp) + 1)) ∧
  (∀ st1 st2,
     stateEquiv st1 st2 →
     genAllPseudo st1 = genAllPseudo st2 ∧
     legalMoves st1 = legalMoves st2 ∧
     ∀ m, option_Forall2 stateEquiv (makeMove st1 m) (makeMove st2 m)) ∧
  stateEquiv initialState initialStateZero.
Proof.
  split_and!.
  - intros hand ty. rewrite countOf_lookup.
    destruct (hand !! ty) as [n|]; cbn; naive_solver.
  - intros state ty [r c] Hcount Hm.
    by apply genAllPseudo_DropMove, genDrops_spec in Hm
      as (? & ? & ? & [= <- <- <-] & ? & _).
  - intros state ty [r c] ns (board1 & _ & ->)%makeMove_DropMove_inv.
    cbn [hands].
    destruct (turn state); cbn [setHand handOf hands_b hands_w];
      by rewrite lookup_insert_eq.
  - intros state [fr fc] [tr tc] promote ns cp Hns Hcp. cbn [fst snd] in Hcp.
    apply makeMove_BoardMove_inv in Hns as (? & ? & ? & _ & _ & _ & _ & ->).
    cbn [hands]. rewrite Hcp. cbn [demote t].
    destruct (turn state); cbn [setHand handOf hands_b hands_w];
      by rewrite lookup_insert_eq.
  - intros st1 st2 Heq. split_and!.
    + by apply genAllPseudo_equiv.
    + by apply legalMoves_equiv.
    + intros m. by apply makeMove_equiv.
  - split_and!; [done..|]. by intros [] [].
Qed.

(** The starting position with empty hand objects and with zero counts. *)
Lemma absent_hand_entry_reads_as_zero_witness :
  stateEquiv initialState initialStateZero ∧
  legalMoves initialState = legalMoves initialStateZero.
Proof.
  destruct absent_hand_entry_reads_as_zero as (_ & _ & _ & _ & Hsame & Heq).
  split; [exact Heq|]. exact (proj1 (proj2 (Hsame _ _ Heq))).
Defined.

(** * Further properties of the engine *)

(** ** Board moves *)

(** X1. A board move of [genAllPseudo] or [legalMoves] starts on a square of
    the grid that holds a piece of the side to move, ends on another square
    of the grid, and a piece standing there belongs to the other side: no
    move leaves the grid, moves a piece of the opponent or an empty square,
    or captures a piece of the mover. *)
Theorem board_moves_start_on_own_piece_and_never_capture_own state legals
    from to promote :
  BoardMove from to promote ∈ genAllPseudo state ∨
  (legalMoves state = Some legals ∧ BoardMove from to promote ∈ legals) →
  ∃ piece,
    inBounds from.1 from.2 = true ∧
    cellAt (board state) from.1 from.2 = Some piece ∧
    p piece = turn state ∧
    inBounds to.1 to.2 = true ∧
    to ≠ from ∧
    ∀ target, cellAt (board state) to.1 to.2 = Some target →
              p target = enemy (turn state).
Proof.
  intros Hm.
  assert (BoardMove from to promote ∈ genAllPseudo state) as Hpseudo.
  { destruct Hm as [?|[? ?]]; [done|by eapply legalMoves_pseudo]. }
  apply genAllPseudo_BoardMove in Hpseudo
    as (piece & Hin & Hpiece & Hturn & Hland & _).
  exists piece. destruct from as [fr fc]. cbn [fst snd] in *.
  split_and!; [done..|by destruct Hland|by eapply landing_ne|].
  intros target Htarget. destruct Hland as [_ Hland].
  rewrite Htarget in Hland. rewrite <- Hturn.
  by destruct (p target), (p piece).
Qed.

(** The first pawn step of a game. *)
Lemma board_moves_start_on_own_piece_and_never_capture_own_witness :
  ∃ piece,
    inBounds 6 4 = true ∧
    cellAt (board initialState) 6 4 = Some piece ∧
    p piece = turn initialState ∧
    inBounds 5 4 = true ∧
    (5, 4) ≠ (6, 4) ∧
    ∀ target, cellAt (board initialState) 5 4 = Some target →
              p target = enemy (turn initialState).
Proof.
  apply (board_moves_start_on_own_piece_and_never_capture_own
           initialState [] (6, 4) (5, 4) false).
  left. apply elem_of_computed. vm_compute. reflexivity.
Defined.

(** X2. The squares a piece standing on a square of the grid can move to
    are exactly these: a square of the grid, empty or held by the other
    side, that lies in one of the piece's directions (turned for Gote), one
    step away for a piece that does not slide and any number of steps away
    over empty squares for a slider, or one step away in one of the
    directions added for the promoted rook and bishop. A slider never passes
    a piece. *)
Theorem genPseudoMoves_destinations board r c from to :
  inBounds r c = true →
  (∃ promote, BoardMove from to promote ∈ genPseudoMoves board r c) ↔
  ∃ piece,
    cellAt board r c = Some piece ∧ from = (r, c) ∧
    reachesBy board piece r c to ∧ landing board piece to.
Proof.
  intros Hin. split.
  - intros (promote & (piece & Hpiece & Hraw & _)%genPseudoMoves_iff).
    apply rawMoves_iff in Hraw as (-> & Hreach & Hland); [|done].
    by exists piece.
  - intros (piece & Hpiece & -> & Hreach & Hland).
    exists (mustPromote piece to.1). apply genPseudoMoves_iff.
    exists piece. split_and!; [done|by apply rawMoves_iff|].
    destruct (mustPromote piece to.1) eqn:Hforced; [|done].
    apply mustPromote_zone in Hforced as [? ?]. auto.
Qed.

(** The rook of [rookFacingTokin] reaches (4,7), three steps to the right
    over two empty squares. *)
Lemma genPseudoMoves_destinations_witness :
  ∃ piece,
    cellAt (board rookFacingTokin) 4 4 = Some piece ∧ (4, 4) = (4, 4) ∧
    reachesBy (board rookFacingTokin) piece 4 4 (4, 7) ∧
    landing (board rookFacingTokin) piece (4, 7).
Proof.
  apply (proj1 (genPseudoMoves_destinations (board rookFacingTokin) 4 4
                  (4, 4) (4, 7) eq_refl)).
  exists false. apply elem_of_computed. vm_compute. reflexivity.
Defined.

(** X3. For a move the generator makes with a piece, the promoting variant is
    generated exactly when the piece is of a promotable type and the move
    starts or ends in the promotion zone of its side (rows 0-2 for Sente, 6-8
    for Gote), and the non-promoting variant exactly when [mustPromote] does
    not force the promotion. The test looks at the type only: a piece that
    is promoted already is offered the promotion again. *)
Theorem promotion_offered_exactly_in_zone board r c from to piece :
  cellAt board r c = Some piece →
  (∃ promote, BoardMove from to promote ∈ genPseudoMoves board r c) →
  (BoardMove from to true ∈ genPseudoMoves board r c ↔
   PROMOTABLE (t piece) = true ∧
   (isPromotionZone (p piece) to.1 = true ∨
    isPromotionZone (p piece) r = true)) ∧
  (BoardMove from to false ∈ genPseudoMoves board r c ↔
   mustPromote piece to.1 = false).
Proof.
  intros Hpiece (promote & (piece' & Hpiece' & Hraw & _)%genPseudoMoves_iff).
  simplify_eq. rewrite !genPseudoMoves_iff. split; split.
  - intros (piece' & ? & _ & ?). by simplify_eq.
  - intros ?. by exists piece.
  - intros (piece' & ? & _ & ?). by simplify_eq.
  - intros ?. by exists piece.
Qed.

(** The promoted rook of [dragonInZone] moving inside the zone: both variants
    are generated. *)
Lemma promotion_offered_exactly_in_zone_witness :
  (BoardMove (2, 4) (2, 5) true ∈ genPseudoMoves (board dragonInZone) 2 4 ↔
   PROMOTABLE tR = true ∧
   (isPromotionZone B 2 = true ∨ isPromotionZone B 2 = true)) ∧
  (BoardMove (2, 4) (2, 5) false ∈ genPseudoMoves (board dragonInZone) 2 4 ↔
   mustPromote {| t := tR; p := B; pr := true |} 2 = false).
Proof.
  apply (promotion_offered_exactly_in_zone (board dragonInZone) 2 4
           (2, 4) (2, 5) {| t := tR; p := B; pr := true |}).
  - reflexivity.
  - exists true. apply elem_of_computed. vm_compute. reflexivity.
Defined.

(** X4. Promoting a piece that is promoted already, or that cannot promote,
    changes nothing: [makeMove] gives the same position for the move with
    [promote = true] and with [promote = false]. *)
Theorem promoting_again_changes_nothing state from to piece :
  cellAt (board state) from.1 from.2 = Some piece →
  pr piece = true ∨ PROMOTABLE (t piece) = false →
  makeMove state (BoardMove from to true) =
  makeMove state (BoardMove from to false).
Proof.
  intros Hpiece Hsame. destruct from as [fr fc], to as [tr tc].
  cbn [fst snd] in Hpiece.
  assert (promotePiece piece = piece) as Hid.
  { unfold promotePiece. destruct Hsame as [Hpr| ->]; [|done].
    destruct piece as [[] ? ?]; by cbn in *; subst. }
  cbn. destruct (inBounds fr fc); [|done]. rewrite Hpiece. cbn.
  by rewrite Hid.
Qed.

(** The two variants of the promoted rook's step are both legal moves of
    [dragonInZone] and lead to the same position. *)
Lemma promoting_again_changes_nothing_witness :
  makeMove dragonInZone (BoardMove (2, 4) (2, 5) true) =
  makeMove dragonInZone (BoardMove (2, 4) (2, 5) false).
Proof.
  apply (promoting_again_changes_nothing dragonInZone (2, 4) (2, 5)
           {| t := tR; p := B; pr := true |}).
  - reflexivity.
  - by left.
Defined.

(** ** Attacks, kings *)

(** X5. [attacksSquare] holds for a square exactly when the attacker, were it
    the side to move, had a board move to that square among its pseudo moves
    (the hands play no part). So only squares of the grid are attacked, and
    never a square held by a piece of the attacker. *)
Theorem attacksSquare_iff_pseudo_move_lands b attacker hs tr tc :
  (attacksSquare b attacker tr tc = true ↔
   ∃ from promote,
     BoardMove from (tr, tc) promote ∈
       genAllPseudo {| board := b; hands := hs; turn := attacker |}) ∧
  (attacksSquare b attacker tr tc = true →
   inBounds tr tc = true ∧
   ∀ target, cellAt b tr tc = Some target → p target = enemy attacker).
Proof.
  assert (attacksSquare b attacker tr tc = true ↔
          ∃ from promote,
            BoardMove from (tr, tc) promote ∈
              genAllPseudo {| board := b; hands := hs; turn := attacker |})
    as Hiff.
  { rewrite attacksSquare_spec. split.
    - intros (r & c & pc & m & Hin & Hpc & Hp & Hm & Hto).
      pose proof Hm as (piece & to & promote & _ & -> & _)%genPseudoMoves_spec.
      cbn [moveTo] in Hto. subst to. exists (r, c), promote.
      apply genAllPseudo_spec. left. by exists r, c, pc.
    - intros (from & promote & [(r & c & pc & Hin & Hpc & Hp & Hm)|Hm]
                               %genAllPseudo_spec).
      + by exists r, c, pc, (BoardMove from (tr, tc) promote).
      + by apply genDrops_spec in Hm as (? & ? & ? & [=] & _). }
  split; [done|]. intros (from & promote & Hm)%Hiff.
  apply genAllPseudo_BoardMove in Hm as (piece & _ & _ & Hp & [Hin Hland] & _).
  cbn [fst snd board turn] in *. split; [done|].
  intros target Htarget. rewrite Htarget in Hland. rewrite <- Hp.
  by destruct (p target), (p piece).
Qed.

(** X6. [findKing] returns a square of the grid that holds a king of the
    player, the first one in the order of the loops (rows from 0, columns
    from 0 inside a row); it returns nothing exactly when no square of the
    grid holds a king of the player. *)
Theorem findKing_finds_first_king board player :
  match findKing board player with
  | Some (r, c) =>
      inBounds r c = true ∧
      (∃ pc, cellAt board r c = Some pc ∧ p pc = player ∧ t pc = tK) ∧
      ∀ r' c' pc, inBounds r' c' = true → before (r', c') (r, c) →
                  cellAt board r' c' = Some pc →
                  ¬ (p pc = player ∧ t pc = tK)
  | None => kingAbsent board player
  end.
Proof.
  destruct (findKing board player) as [[r c]|] eqn:Hfind;
    [|by apply findKing_None_inv].
  unfold findKing in Hfind.
  apply find_first in Hfind as (l1 & l2 & Hsq & Hking & Hfirst).
  cbn [fst snd] in Hking.
  assert ((r, c) ∈ squares) as Hin by (rewrite Hsq; set_solver).
  apply elem_of_squares in Hin. cbn [fst snd] in Hin.
  split_and!; [done| |].
  - destruct (cellAt board r c) as [pc|]; [|done].
    apply andb_true_iff in Hking as [?%bool_decide_eq_true ?%bool_decide_eq_true].
    by exists pc.
  - intros r' c' pc Hin' Hbefore Hpc [Hp Ht].
    assert ((r', c') ∈ l1) as Hl1.
    { eapply sorted_split_before; [|rewrite <- Hsq; by apply elem_of_squares|done].
      rewrite <- Hsq. apply squares_sorted. }
    specialize (Hfirst _ Hl1). cbn [fst snd] in Hfirst.
    by rewrite Hpc, !bool_decide_true in Hfirst.
Qed.

(** ** What [makeMove] changes *)

(** X7. [makeMove] passes the turn to the other side and changes nothing but
    what the move names: every square other than the move's squares holds
    what it held, the hand of the side that did not move is the same, and in
    the mover's hand only the entry of the dropped type, or of the type of the
    piece captured, can differ. *)
Theorem makeMove_changes_only_what_the_move_names state m ns :
  makeMove state m = Some ns →
  turn ns = enemy (turn state) ∧
  (∀ r c, (r, c) ∉ touched m →
          cellAt (board ns) r c = cellAt (board state) r c) ∧
  handOf (hands ns) (enemy (turn state)) =
    handOf (hands state) (enemy (turn state)) ∧
  ∀ ty, handOf (hands ns) (turn state) !! ty ≠
        handOf (hands state) (turn state) !! ty →
        match m with
        | DropMove ty' _ => ty = ty'
        | BoardMove _ to _ =>
            ∃ cp, cellAt (board state) to.1 to.2 = Some cp ∧ ty = t cp
        end.
Proof.
  intros Hns. split; [by eapply makeMove_turn|].
  destruct m as [[fr fc] [tr tc] promote|ty0 [r0 c0]]; cbn [touched fst snd].
  - pose proof Hns as (piece & b1 & b2 & _ & Hpiece & _ & _ & Hshape)
      %makeMove_BoardMove_inv.
    split_and!.
    + intros r c Hrc.
      rewrite (cellAt_makeMove_board _ _ _ _ _ _ _ piece r c Hns Hpiece).
      rewrite !decide_False; [done|set_solver..].
    + rewrite Hshape. cbn [hands].
      destruct (cellAt (board state) tr tc); [|done].
      by destruct (turn state).
    + intros ty. rewrite Hshape. cbn [hands].
      destruct (cellAt (board state) tr tc) as [cp|]; [|done].
      intros Hne. exists cp. split; [done|]. cbn [demote t] in Hne.
      destruct (decide (ty = t cp)) as [|Hty]; [done|]. exfalso. apply Hne.
      destruct (turn state); cbn [setHand handOf hands_b hands_w];
        by rewrite lookup_insert_ne.
  - pose proof Hns as (b1 & _ & Hshape)%makeMove_DropMove_inv.
    split_and!.
    + intros r c Hrc. rewrite (cellAt_makeMove_drop _ _ _ _ _ r c Hns).
      rewrite decide_False; [done|set_solver].
    + rewrite Hshape. cbn [hands]. by destruct (turn state).
    + intros ty. rewrite Hshape. cbn [hands]. intros Hne.
      destruct (decide (ty = ty0)) as [|Hty]; [done|]. exfalso. apply Hne.
      destruct (turn state); cbn [setHand handOf hands_b hands_w];
        by rewrite lookup_insert_ne.
Qed.

(** The first pawn step of a game. *)
Lemma makeMove_changes_only_what_the_move_names_witness :
  ∃ ns,
    makeMove initialState (BoardMove (6, 4) (5, 4) false) = Some ns ∧
    turn ns = enemy (turn initialState) ∧
    (∀ r c, (r, c) ∉ touched (BoardMove (6, 4) (5, 4) false) →
            cellAt (board ns) r c = cellAt (board initialState) r c).
Proof.
  eexists. split; [vm_compute; reflexivity|].
  refine (let H := makeMove_changes_only_what_the_move_names initialState
                     (BoardMove (6, 4) (5, 4) false) _ _ in
          conj (proj1 H) (proj1 (proj2 H))).
  vm_compute. reflexivity.
Defined.

(** X8. After a board move between two different squares the origin is empty
    and the destination holds the piece that moved, with the type and the
    owner it had and with [pr] set when it was set before or when the move
    promotes and the type is promotable. After a drop the square holds an
    unpromoted piece of the dropped type owned by the mover. *)
Theorem makeMove_places_the_piece state m ns :
  makeMove state m = Some ns →
  match m with
  | BoardMove from to promote =>
      ∃ piece,
        cellAt (board state) from.1 from.2 = Some piece ∧
        cellAt (board ns) from.1 from.2 = None ∧
        (from ≠ to →
         cellAt (board ns) to.1 to.2 =
         Some {| t := t piece; p := p piece;
                 pr := pr piece || (promote && PROMOTABLE (t piece)) |})
  | DropMove ty to =>
      cellAt (board ns) to.1 to.2 =
      Some {| t := ty; p := turn state; pr := false |}
  end.
Proof.
  intros Hns. destruct m as [[fr fc] [tr tc] promote|ty [r c]]; cbn [fst snd].
  - pose proof Hns as (piece & _ & _ & _ & Hpiece & _)%makeMove_BoardMove_inv.
    exists piece. split_and!; [done| |].
    + rewrite (cellAt_makeMove_board _ _ _ _ _ _ _ piece fr fc Hns Hpiece).
      by rewrite decide_True.
    + intros Hne.
      rewrite (cellAt_makeMove_board _ _ _ _ _ _ _ piece tr tc Hns Hpiece).
      rewrite decide_False, decide_True by done. f_equal.
      unfold promotePiece. by destruct promote, piece as [[] ? []].
  - rewrite (cellAt_makeMove_drop _ _ _ _ _ r c Hns). by rewrite decide_True.
Qed.

(** Capturing the promoted pawn with the rook of [rookFacingTokin]. *)
Lemma makeMove_places_the_piece_witness :
  ∃ ns piece,
    makeMove rookFacingTokin (BoardMove (4, 4) (4, 7) true) = Some ns ∧
    cellAt (board rookFacingTokin) 4 4 = Some piece ∧
    cellAt (board ns) 4 4 = None ∧
    ((4, 4) ≠ (4, 7) →
     cellAt (board ns) 4 7 =
     Some {| t := t piece; p := p piece;
             pr := pr piece || (true && PROMOTABLE (t piece)) |}).
Proof.
  eexists.
  destruct (makeMove_places_the_piece rookFacingTokin
              (BoardMove (4, 4) (4, 7) true) _ ltac:(vm_compute; reflexivity))
    as (piece & H).
  exists piece. split; [vm_compute; reflexivity|exact H].
Defined.

(** ** Drops *)

(** X9. The drops generated are exactly these: a type with a non-zero count
    in the hand of the side to move, onto an empty square of the grid from
    which the piece could move on without being forced to promote (a pawn or
    lance not on the last rank, a knight not on the last two), and for a pawn
    onto a file without an unpromoted pawn of that side. A drop is never made
    onto an occupied square. *)
Theorem genDrops_characterised state ty r c :
  DropMove ty (r, c) ∈ genAllPseudo state ↔
  countOf (handOf (hands state) (turn state)) ty ≠ 0 ∧
  inBounds r c = true ∧
  cellAt (board state) r c = None ∧
  mustPromote {| t := ty; p := turn state; pr := false |} r = false ∧
  (ty = tP → ¬ unpromotedPawnOnFile (board state) (turn state) c).
Proof.
  rewrite genAllPseudo_DropMove, genDrops_spec,
    <- hasUnpromotedPawnOnFile_spec, not_true_iff_false.
  unfold dropRestricted, mustPromote, lastRank, lastTwoRanks. cbn [t p].
  split.
  - intros (ty' & r' & c' & [= <- <- <-] & Hcount & Hin & Hcell & Hok).
    split_and!; [done..| |].
    + destruct ty, (turn state); cbn in Hok |- *;
        rewrite ?orb_false_r in Hok; try done;
        by apply orb_false_iff in Hok as [_ ?].
    + intros ->. cbn in Hok. rewrite !orb_false_r in Hok.
      by apply orb_false_iff in Hok as [? _].
  - intros (Hcount & Hin & Hcell & Hforced & Hfile).
    exists ty, r, c. split_and!; [done..|].
    destruct ty, (turn state); cbn in Hforced |- *;
      rewrite ?orb_false_r, ?Hforced, ?orb_false_r; try done;
      by rewrite Hfile.
Qed.

(** ** Positions of a game *)

(** X10. Every position reached from the starting position by moves taken
    from [legalMoves] has a board of nine rows of nine cells, forty pieces in
    all (on the board and in the two hands), and the promoted flag only on
    pieces of a promotable type. *)
Theorem reachable_positions_keep_forty_pieces state :
  reachable state →
  wf_board (board state) ∧
  totalPieces state = 40 ∧
  promotedOk (board state).
Proof.
  intros Hreach. split; [by apply reachable_inv|by apply reachable_counts].
Qed.

(** After the first pawn step of a game. *)
Lemma reachable_positions_keep_forty_pieces_witness :
  ∃ ns,
    makeMove initialState (BoardMove (6, 4) (5, 4) false) = Some ns ∧
    wf_board (board ns) ∧ totalPieces ns = 40 ∧ promotedOk (board ns).
Proof.
  eexists. split; [vm_compute; reflexivity|].
  apply reachable_positions_keep_forty_pieces.
  eapply (reachable_move initialState _ (BoardMove (6, 4) (5, 4) false)).
  - apply reachable_initial.
  - vm_compute. reflexivity.
  - apply elem_of_computed. vm_compute. reflexivity.
  - vm_compute. reflexivity.
Defined.

(** X11. In every position reached from the starting position by moves taken
    from [legalMoves], each side has exactly one king on the board, which
    [findKing] finds, neither hand holds a king, and the side that has just
    moved is not in check. So in a game the test of [isCheck] for a missing
    king never applies. *)
Theorem reachable_positions_keep_both_kings state :
  reachable state →
  (∀ side,
     (∃ r c pc,
        findKing (board state) side = Some (r, c) ∧
        cellAt (board state) r c = Some pc ∧ p pc = side ∧ t pc = tK ∧
        ∀ r' c' pc',
          inBounds r' c' = true → cellAt (board state) r' c' = Some pc' →
          p pc' = side → t pc' = tK → (r', c') = (r, c)) ∧
     countOf (handOf (hands state) side) tK = 0) ∧
  isCheck (board state) (enemy (turn state)) = false.
Proof.
  intros Hinv%reachable_gameInv. split; [|by destruct Hinv as (_&_&_&_&_&?)].
  intros side. split; [|by apply countOf_king_turn].
  pose proof Hinv as (Hwf & _).
  pose proof (kingCount_turn state side Hinv) as Hone.
  destruct (findKing (board state) side) as [[r c]|] eqn:Hfind.
  - pose proof (findKing_Some _ _ _ Hfind) as (Hin & pc & Hpc & Hp & Ht).
    cbn [fst snd] in *. exists r, c, pc. split_and!; [done..|].
    intros r' c' pc' Hin' Hpc' Hp' Ht'.
    by eapply (kingCount_1_unique (board state) side).
  - apply findKing_None_inv in Hfind.
    rewrite (kingCount_absent _ _ Hwf Hfind) in Hone. done.
Qed.

(** After the first pawn step of a game. *)
Lemma reachable_positions_keep_both_kings_witness :
  ∃ ns,
    makeMove initialState (BoardMove (6, 4) (5, 4) false) = Some ns ∧
    findKing (board ns) B = Some (8, 4) ∧
    findKing (board ns) W = Some (0, 4) ∧
    isCheck (board ns) (enemy (turn ns)) = false.
Proof.
  eexists. split; [vm_compute; reflexivity|].
  split; [vm_compute; reflexivity|]. split; [vm_compute; reflexivity|].
  apply reachable_positions_keep_both_kings.
  eapply (reachable_move initialState _ (BoardMove (6, 4) (5, 4) false)).
  - apply reachable_initial.
  - vm_compute. reflexivity.
  - apply elem_of_computed. vm_compute. reflexivity.
  - vm_compute. reflexivity.
Defined.

(** X12. In a position reached from the starting position by moves taken from
    [legalMoves], no pseudo move, hence no legal move, captures a king or
    drops one. *)
Theorem reachable_positions_never_capture_a_king state m :
  reachable state →
  m ∈ genAllPseudo state →
  match m with
  | BoardMove _ to _ =>
      ∀ cp, cellAt (board state) to.1 to.2 = Some cp → t cp ≠ tK
  | DropMove ty _ => ty ≠ tK
  end.
Proof.
  intros Hinv%reachable_gameInv Hm. destruct m as [from to promote|ty to].
  - intros cp. by eapply gameInv_no_king_capture.
  - apply genAllPseudo_DropMove, genDrops_spec in Hm
      as (ty' & r & c & [= <- ->] & Hcount & _).
    intros ->. by rewrite (countOf_king_turn state _ Hinv) in Hcount.
Qed.

(** Both sides open the diagonal of their bishop; Sente's bishop can then
    capture Gote's, a bishop and not a king. *)
Lemma reachable_positions_never_capture_a_king_witness :
  ∃ s1 s2,
    makeMove initialState (BoardMove (6, 2) (5, 2) false) = Some s1 ∧
    makeMove s1 (BoardMove (2, 6) (3, 6) false) = Some s2 ∧
    cellAt (board s2) 1 7 = Some {| t := tB; p := W; pr := false |} ∧
    t {| t := tB; p := W; pr := false |} ≠ tK.
Proof.
  eexists. eexists.
  split; [vm_compute; reflexivity|]. split; [vm_compute; reflexivity|].
  match goal with
  | |- cellAt (board ?s2) 1 7 = _ ∧ _ =>
      assert (reachable s2) as Hreach
  end.
  { eapply (reachable_move _ _ (BoardMove (2, 6) (3, 6) false)).
    - eapply (reachable_move initialState _ (BoardMove (6, 2) (5, 2) false)).
      + apply reachable_initial.
      + vm_compute. reflexivity.
      + apply elem_of_computed. vm_compute. reflexivity.
      + vm_compute. reflexivity.
    - vm_compute. reflexivity.
    - apply elem_of_computed. vm_compute. reflexivity.
    - vm_compute. reflexivity. }
  split; [vm_compute; reflexivity|].
  apply (reachable_positions_never_capture_a_king _
           (BoardMove (7, 1) (1, 7) false) Hreach).
  - apply elem_of_computed. vm_compute. reflexivity.
  - vm_compute. reflexivity.
Defined.

(** ** Comparing moves, history, end of game *)

(** X13. [equalMove] answers true exactly for two moves that are the same:
    same kind, same squares, same piece type for drops, same promotion flag
    for board moves. *)
Theorem equalMove_iff_same a b : equalMove a b = true ↔ a = b.
Proof.
  destruct a as [[fr1 fc1] [tr1 tc1] p1|ty1 [r1 c1]],
           b as [[fr2 fc2] [tr2 tc2] p2|ty2 [r2 c2]];
    cbn [equalMove fst snd]; try (split; [done|discriminate]).
  - rewrite !andb_true_iff, !Z.eqb_eq, eqb_true_iff. split.
    + intros [[[[-> ->] ->] ->] ->]. done.
    + intros [= -> -> -> -> ->]. done.
  - rewrite !andb_true_iff, !Z.eqb_eq, bool_decide_eq_true. split.
    + intros [[-> ->] ->]. done.
    + intros [= -> -> ->]. done.
Qed.

(** X14. Undo after a committed move gives back the position and the past
    that were there before the move, with the position reached as the only
    entry of the future; redo after that undo gives back the state the
    commit had produced. *)
Theorem undo_after_commitMove_restores ui m ui' :
  commitMove ui m = Some ui' →
  cur (undo ui') = cur ui ∧
  past (undo ui') = past ui ∧
  future (undo ui') = [cur ui'] ∧
  redo (undo ui') = ui'.
Proof.
  unfold commitMove. destruct (makeMove (cur ui) m) as [ns|]; [|done]. cbn.
  intros [= <-]. unfold undo. cbn [past cur future].
  rewrite last_snoc, removelast_last. cbn. split_and!; [done..|].
  unfold redo. cbn. done.
Qed.

(** The first pawn step of a game, committed on a fresh page state. *)
Lemma undo_after_commitMove_restores_witness :
  ∃ ui',
    commitMove (mkUi initialState [] [] false None [] W)
               (BoardMove (6, 4) (5, 4) false) = Some ui' ∧
    cur (undo ui') = initialState ∧
    past (undo ui') = [] ∧
    future (undo ui') = [cur ui'] ∧
    redo (undo ui') = ui'.
Proof.
  eexists. split; [vm_compute; reflexivity|].
  apply (undo_after_commitMove_restores
           (mkUi initialState [] [] false None [] W)
           (BoardMove (6, 4) (5, 4) false)).
  vm_compute. reflexivity.
Defined.

(** X15. Undo with an empty past and redo with an empty future do nothing;
    otherwise redo takes back an undo and undo takes back a redo; and
    neither changes the sequence of positions of the game (past, current,
    undone), which a committed move cuts after the current position before
    adding the new one. *)
Theorem undo_redo_inverse ui :
  (past ui = [] → undo ui = ui) ∧
  (future ui = [] → redo ui = ui) ∧
  (past ui ≠ [] → redo (undo ui) = ui) ∧
  (future ui ≠ [] → undo (redo ui) = ui) ∧
  timeline (undo ui) = timeline ui ∧
  timeline (redo ui) = timeline ui ∧
  (∀ m ui', commitMove ui m = Some ui' →
            timeline ui' = past ui ++ [cur ui; cur ui']).
Proof.
  destruct ui as [c ps fs fl sel lg cpu]. cbn [past future cur].
  split_and!.
  - intros ->. done.
  - intros ->. done.
  - intros (ps' & x & ->)%nonempty_snoc. unfold undo, redo. cbn.
    rewrite last_snoc, removelast_last. cbn.
    by rewrite last_snoc, removelast_last.
  - intros (fs' & x & ->)%nonempty_snoc. unfold undo, redo. cbn.
    rewrite last_snoc, removelast_last. cbn.
    by rewrite last_snoc, removelast_last.
  - destruct (decide (ps = [])) as [->|(ps' & x & ->)%nonempty_snoc]; [done|].
    unfold undo, timeline. cbn [past cur future].
    rewrite last_snoc, removelast_last. cbn [past cur future].
    by rewrite reverse_snoc, <- app_assoc.
  - destruct (decide (fs = [])) as [->|(fs' & x & ->)%nonempty_snoc]; [done|].
    unfold redo, timeline. cbn [past cur future].
    rewrite last_snoc, removelast_last. cbn [past cur future].
    by rewrite reverse_snoc, <- app_assoc.
  - intros m ui'. unfold commitMove. cbn.
    destruct (makeMove c m) as [ns|]; [|done]. cbn. intros [= <-].
    unfold timeline. cbn. by rewrite <- app_assoc.
Qed.

(** X16. On a 9x9 board [checkGameEnd] announces a winner, the side that is
    not to move, exactly when [legalMoves] is empty, that is when every
    pseudo move leaves the king of the side to move attacked, whether that
    side is in check or has no pseudo move at all; otherwise it announces
    nothing. *)
Theorem checkGameEnd_announces_iff_no_legal_move state :
  wf_board (board state) →
  ∃ announced,
    checkGameEnd state = Some announced ∧
    (announced = None ∨ announced = Some (enemy (turn state))) ∧
    (announced ≠ None ↔
     ∀ m, m ∈ genAllPseudo state →
          ∃ ns, makeMove state m = Some ns ∧
                isCheck (board ns) (turn state) = true).
Proof.
  intros Hwf. unfold checkGameEnd.
  destruct (legalMoves_spec state Hwf) as (legals & -> & Hiff). cbn.
  eexists. split; [done|]. destruct legals as [|m0 legals].
  - split; [by right|]. split; [|done]. intros _ m Hm.
    destruct (genAllPseudo_makeMove state m Hwf Hm) as [ns Hns].
    exists ns. split; [done|]. apply not_false_iff_true. intros Hsafe.
    assert (m ∈ []) as ?%elem_of_nil by (apply Hiff; eauto). done.
  - split; [by left|]. split; [done|]. intros Hall.
    assert (m0 ∈ m0 :: legals) as (Hm0 & ns & Hns & Hsafe)%Hiff by by left.
    destruct (Hall m0 Hm0) as (ns' & Hns' & Hcheck). simplify_eq. congruence.
Qed.

(** Gote's king with a guarded gold on its head: Sente is announced. *)
Lemma checkGameEnd_announces_iff_no_legal_move_witness :
  checkGameEnd goldOnTheHead = Some (Some B) ∧
  isCheck (board goldOnTheHead) W = true ∧
  ∃ announced,
    checkGameEnd goldOnTheHead = Some announced ∧
    (announced = None ∨ announced = Some (enemy (turn goldOnTheHead))) ∧
    (announced ≠ None ↔
     ∀ m, m ∈ genAllPseudo goldOnTheHead →
          ∃ ns, makeMove goldOnTheHead m = Some ns ∧
                isCheck (board ns) (turn goldOnTheHead) = true).
Proof.
  split; [vm_compute; reflexivity|]. split; [vm_compute; reflexivity|].
  apply (checkGameEnd_announces_iff_no_legal_move goldOnTheHead).
  split; [reflexivity|]. repeat constructor.
Defined.

(** ** Gestures *)

(** X17. [chooseBestMatch] returns [null] exactly when no candidate goes to
    the square asked for; a move it returns is one of the candidates and goes
    to that square, and it is a promoting one only when [mustPromote] forces
    the promotion of the piece on the origin square or when every candidate
    to that square promotes. With a piece on the origin square the call does
    not fail. *)
Theorem chooseBestMatch_picks_a_candidate brd candidates from to :
  (chooseBestMatch brd candidates from to = Some None ↔
   ∀ m, m ∈ candidates → moveTo m ≠ to) ∧
  (∀ m, chooseBestMatch brd candidates from to = Some (Some m) →
        m ∈ candidates ∧ moveTo m = to ∧
        (isPromoting m = true →
         (∃ piece, cellAt brd from.1 from.2 = Some piece ∧
                   mustPromote piece to.1 = true) ∨
         ∀ m', m' ∈ candidates → moveTo m' = to → isPromoting m' = true)) ∧
  (is_Some (cellAt brd from.1 from.2) →
   is_Some (chooseBestMatch brd candidates from to)).
Proof.
  rewrite chooseBestMatch_unfold.
  assert (∀ m, m ∈ List.filter (hasTo to) candidates ↔
               m ∈ candidates ∧ moveTo m = to) as Hfilter.
  { intros m. by rewrite elem_of_filter_bool, hasTo_spec. }
  destruct (List.filter (hasTo to) candidates) as [|first rest] eqn:Hsame.
  { split_and!; [|done|eauto].
    split; [|done]. intros _ m Hm Hto.
    assert (m ∈ []) as ?%elem_of_nil by by apply Hfilter. done. }
  assert (first ∈ candidates ∧ moveTo first = to) as [Hfirst Hfirstto]
    by (apply Hfilter; by left).
  destruct (findForced brd from (first :: rest)) as [[mf|]|] eqn:Hforced.
  - apply findForced_Some in Hforced as (Hin & _ & piece & Hpiece & Hmust).
    apply Hfilter in Hin as [? Hto]. split_and!.
    + split; [done|]. intros Hnone. by destruct (Hnone first).
    + intros m [= <-]. split_and!; [done..|].
      intros _. left. exists piece. by rewrite <- Hto.
    + eauto.
  - destruct (List.find _ (first :: rest)) as [mn|] eqn:Hfind.
    + apply find_some in Hfind as [Hin Hnp].
      apply list_elem_of_In, Hfilter in Hin as [? ?]. split_and!.
      * split; [done|]. intros Hnone. by destruct (Hnone first).
      * intros m [= <-]. split_and!; [done..|]. intros Hp. by rewrite Hp in Hnp.
      * eauto.
    + split_and!.
      * split; [done|]. intros Hnone. by destruct (Hnone first).
      * intros m [= <-]. split_and!; [done..|]. intros _. right.
        intros m' Hm' Hto'.
        assert (m' ∈ first :: rest) as Hin by by apply Hfilter.
        apply list_elem_of_In in Hin.
        pose proof (find_none _ _ Hfind m' Hin) as Hnp.
        by apply negb_false_iff in Hnp.
      * eauto.
  - split_and!.
    + split; [done|]. intros Hnone. by destruct (Hnone first).
    + done.
    + intros Hpiece.
      destruct (findForced_is_Some brd from (first :: rest) Hpiece) as [? ?].
      congruence.
Qed.

(** X18. For a move of the list of legal moves, [doMoveWithPromotion] commits
    a move of that list with the same origin and destination; when the list
    holds the move both with and without promotion, it commits the one whose
    flag is the player's answer; a drop is committed as it is. *)
Theorem chosenMove_respects_the_answer legal move yes :
  move ∈ legal →
  chosenMove legal move yes ∈ legal ∧
  match move with
  | DropMove _ _ => chosenMove legal move yes = move
  | BoardMove from to _ =>
      (∃ promote, chosenMove legal move yes = BoardMove from to promote) ∧
      (BoardMove from to true ∈ legal → BoardMove from to false ∈ legal →
       chosenMove legal move yes = BoardMove from to yes)
  end.
Proof.
  intros Hmove. destruct move as [from to pm|ty sq]; cbn [chosenMove]; [|done].
  set (twins := twinsOf legal from to).
  destruct (List.find (λ m, eqb (isPromoting m) yes) twins) as [m'|] eqn:Hfind.
  - apply find_some in Hfind as [Hin Hflag].
    apply list_elem_of_In, elem_of_twinsOf in Hin as [Hin Hshape].
    apply eqb_prop in Hflag. rewrite Hflag in Hshape.
    destruct ((2 <=? length twins)%nat && _ && _) eqn:Hcond; cbn [default].
    + split; [done|]. split; [by exists yes|]. by rewrite Hshape.
    + split; [done|]. split; [by exists pm|]. intros Ht Hf.
      assert (2 ≤ length twins)%nat as Hlen.
      { apply (length_ge_2 _ (BoardMove from to true) (BoardMove from to false));
          [by apply elem_of_twinsOf..|done]. }
      exfalso.
      assert ((2 <=? length twins)%nat && existsb isPromoting twins &&
              existsb (λ m, negb (isPromoting m)) twins = true) as Hboth.
      { rewrite !andb_true_iff. split_and!.
        - by apply Nat.leb_le.
        - apply existsb_exists. exists (BoardMove from to true).
          split; [by apply list_elem_of_In, elem_of_twinsOf|done].
        - apply existsb_exists. exists (BoardMove from to false).
          split; [by apply list_elem_of_In, elem_of_twinsOf|done]. }
      congruence.
  - assert (∀ m, m ∈ twins → isPromoting m ≠ yes) as Hnone.
    { intros m Hm%list_elem_of_In Heq.
      pose proof (find_none _ _ Hfind m Hm) as Hf. cbn in Hf.
      rewrite Heq in Hf. by destruct yes. }
    cbn [default]. rewrite Tauto.if_same.
    split; [done|]. split; [by exists pm|]. intros Ht Hf. exfalso.
    destruct yes.
    + by apply (Hnone (BoardMove from to true)); [apply elem_of_twinsOf|].
    + by apply (Hnone (BoardMove from to false)); [apply elem_of_twinsOf|].
Qed.

(** The promoted rook of [dragonInZone] stepping inside the zone, with the
    answer "no". *)
Lemma chosenMove_respects_the_answer_witness :
  ∃ legals,
    legalMoves dragonInZone = Some legals ∧
    chosenMove legals (BoardMove (2, 4) (2, 5) true) false =
    BoardMove (2, 4) (2, 5) false.
Proof.
  eexists. split; [vm_compute; reflexivity|].
  match goal with
  | |- chosenMove ?l ?m ?y = _ =>
      destruct (chosenMove_respects_the_answer l m y) as [_ [_ Hyes]]
  end.
  - apply elem_of_computed. vm_compute. reflexivity.
  - apply Hyes; apply elem_of_computed; vm_compute; reflexivity.
Defined.

(** ** Squares and coordinates *)

(** X19. For a point with whole coordinates, [screenToBoard] returns a square
    exactly for the points of the area of the 9x9 cells (50 to 949 both
    ways); the square is on the grid and, drawn with [boardToScreen], its
    cell holds the point. Conversely the anchor [boardToScreen] gives for a
    square of the grid is mapped back to that square, flipped or not. *)
Theorem screenToBoard_inverts_boardToScreen flipped :
  (∀ r c, inBounds r c = true →
          screenToBoard flipped (boardToScreen flipped r c).1
                                (boardToScreen flipped r c).2 = Some (r, c)) ∧
  (∀ x y,
     match screenToBoard flipped x y with
     | Some (r, c) =>
         inBounds r c = true ∧
         (boardToScreen flipped r c).1 - MARGIN_X ≤ x
           < (boardToScreen flipped r c).1 - MARGIN_X + CELL ∧
         (boardToScreen flipped r c).2 - MARGIN_Y ≤ y
           < (boardToScreen flipped r c).2 - MARGIN_Y + CELL
     | None => ¬ (50 ≤ x < 950 ∧ 50 ≤ y < 950)
     end).
Proof.
  unfold screenToBoard, boardToScreen, CELL, MARGIN_X, MARGIN_Y. split.
  - intros r c [Hr Hc]%inBounds_spec. cbn [fst snd].
    destruct flipped.
    + replace ((50 + (8 - c) * 100 + 10 - 50) / 100) with (8 - c)
        by (apply Z.div_unique with 10; lia).
      replace ((50 + (8 - r) * 100 + 6 - 50) / 100) with (8 - r)
        by (apply Z.div_unique with 6; lia).
      rewrite !orb_false_intro by lia. f_equal. f_equal; lia.
    + replace ((50 + c * 100 + 10 - 50) / 100) with c
        by (apply Z.div_unique with 10; lia).
      replace ((50 + r * 100 + 6 - 50) / 100) with r
        by (apply Z.div_unique with 6; lia).
      by rewrite !orb_false_intro by lia.
  - intros x y.
    pose proof (Z.div_mod (x - 50) 100 ltac:(lia)) as Hx.
    pose proof (Z.mod_pos_bound (x - 50) 100 ltac:(lia)) as Hxm.
    pose proof (Z.div_mod (y - 50) 100 ltac:(lia)) as Hy.
    pose proof (Z.mod_pos_bound (y - 50) 100 ltac:(lia)) as Hym.
    destruct ((_ <? 0) || _ || _ || _) eqn:Hout.
    + rewrite !orb_true_iff in Hout. lia.
    + rewrite !orb_false_iff in Hout. cbn [fst snd].
      rewrite inBounds_spec. destruct flipped; lia.
Qed.

(** ** What the page shows *)

(** X20. [pieceLabel] has a label for a piece unless the piece is a promoted
    king or gold, and two pieces with the same label have the same type and
    the same promoted flag. Every piece on the board of a position reached
    from the starting position by moves taken from [legalMoves] has a
    label. *)
Theorem pieceLabel_defined_and_distinct :
  (∀ piece, is_Some (pieceLabel piece) ↔
            (pr piece = true → PROMOTABLE (t piece) = true)) ∧
  (∀ piece1 piece2 label,
     pieceLabel piece1 = Some label → pieceLabel piece2 = Some label →
     t piece1 = t piece2 ∧ pr piece1 = pr piece2) ∧
  (∀ state r c piece,
     reachable state → cellAt (board state) r c = Some piece →
     is_Some (pieceLabel piece)).
Proof.
  assert (∀ piece, is_Some (pieceLabel piece) ↔
                   (pr piece = true → PROMOTABLE (t piece) = true)) as Hdef.
  { intros [[] ? []]; unfold pieceLabel; cbn; split; eauto;
      try (intros [? [=]]); try (intros H; by discriminate H). }
  split_and!; [done| |].
  - intros [[] ? []] [[] ? []] label; unfold pieceLabel; cbn;
      intros H1 H2; by simplify_eq.
  - intros state r c piece [_ Hok]%reachable_counts Hpiece.
    apply Hdef. by eapply Hok.
Qed.

(** X21. [renderHands] makes a button for each type other than the king whose
    count in the hand is not zero, showing that count, and for no other. When
    the hand holds no king the counts shown add up to the pieces in the hand;
    so in a position reached from the starting position by moves taken from
    [legalMoves], the pieces on the board and the counts shown for the two
    hands add up to forty. *)
Theorem renderHands_shows_every_piece_in_hand :
  (∀ hand ty n,
     (ty, n) ∈ renderHands hand ↔
     ty ≠ tK ∧ n = countOf hand ty ∧ n ≠ 0) ∧
  (∀ hand, countOf hand tK = 0 →
           sumZ snd (renderHands hand) = handTotal hand) ∧
  (∀ state, reachable state →
            boardCount (board state)
            + sumZ snd (renderHands (hands_b (hands state)))
            + sumZ snd (renderHands (hands_w (hands state))) = 40).
Proof.
  assert (∀ hand, countOf hand tK = 0 →
                  sumZ snd (renderHands hand) = handTotal hand) as Hsum.
  { intros hand HK. unfold renderHands, handTotal, TYPES.
    rewrite sumZ_bind. unfold sumZ at 1 3. cbn [foldr]. rewrite HK.
    assert (∀ ty, sumZ snd (if countOf hand ty =? 0 then []
                            else [(ty, countOf hand ty)]) = countOf hand ty)
      as Hone.
    { intros ty. destruct (Z.eqb_spec (countOf hand ty) 0) as [->|];
        unfold sumZ; cbn; lia. }
    rewrite !Hone. lia. }
  split_and!; [|done|].
  - intros hand ty n. unfold renderHands. rewrite list_elem_of_bind. split.
    + intros (ty' & Hin & Hty).
      destruct (Z.eqb_spec (countOf hand ty') 0) as [|Hn];
        [by apply elem_of_nil in Hin|].
      apply list_elem_of_singleton in Hin as [= -> ->].
      split_and!; [|done..]. intros ->.
      rewrite !elem_of_cons, elem_of_nil in Hty. naive_solver.
    + intros (Hty & -> & Hn). exists ty. split.
      * destruct (Z.eqb_spec (countOf hand ty) 0); [done|]. by left.
      * destruct ty; try done; set_solver.
  - intros state Hreach.
    pose proof (reachable_counts state Hreach) as [Htotal _].
    apply reachable_gameInv in Hreach as (_ & _ & _ & HKb & HKw & _).
    rewrite (Hsum _ HKb), (Hsum _ HKw). exact Htotal.
Qed.

(** X22. A click on a piece or on a hand button leaves the position as it is
    and, when it selects, keeps in [state.legal] only legal moves of the
    position: the board moves from the square clicked, or the drops of the
    type clicked. While [state.legal] holds legal moves of the current
    position, the move committed by a click on a target
    ([doMoveWithPromotion]) or by a click on the board that completes a drop
    is a legal move of that position, so the new position is again one reached
    by legal moves. *)
Theorem selection_then_click_plays_a_legal_move :
  (∀ ui r c ui1,
     pieceClick ui r c = Some ui1 →
     ui1 = ui ∨
     (cur ui1 = cur ui ∧ legalOffered ui1 ∧
      ∀ m, m ∈ legal ui1 → ∃ to promote, m = BoardMove (r, c) to promote)) ∧
  (∀ ui player ty ui1,
     handClick ui player ty = Some ui1 →
     ui1 = ui ∨
     (cur ui1 = cur ui ∧ legalOffered ui1 ∧
      ∀ m, m ∈ legal ui1 → ∃ to, m = DropMove ty to)) ∧
  (∀ ui m yes ui2,
     legalOffered ui → m ∈ legal ui →
     doMoveWithPromotion ui m yes = Some ui2 →
     ∃ legals m', legalMoves (cur ui) = Some legals ∧ m' ∈ legals ∧
                  makeMove (cur ui) m' = Some (cur ui2)) ∧
  (∀ ui x y ui2,
     legalOffered ui → boardClick ui x y = Some ui2 →
     cur ui2 = cur ui ∨
     ∃ legals m', legalMoves (cur ui) = Some legals ∧ m' ∈ legals ∧
                  makeMove (cur ui) m' = Some (cur ui2)) ∧
  (∀ ui m yes ui2,
     reachable (cur ui) → legalOffered ui → m ∈ legal ui →
     doMoveWithPromotion ui m yes = Some ui2 → reachable (cur ui2)).
Proof.
  assert (∀ ui m ui2, commitMove ui m = Some ui2 →
                      makeMove (cur ui) m = Some (cur ui2)) as Hcommit.
  { intros ui m ui2. unfold commitMove.
    destruct (makeMove (cur ui) m) as [ns|]; [|done]. cbn. by intros [= <-]. }
  assert (∀ ui m yes ui2,
     legalOffered ui → m ∈ legal ui →
     doMoveWithPromotion ui m yes = Some ui2 →
     ∃ legals m', legalMoves (cur ui) = Some legals ∧ m' ∈ legals ∧
                  makeMove (cur ui) m' = Some (cur ui2)) as Hplay.
  { intros ui m yes ui2 (legals & Hlegals & Hsub) Hm Hdo.
    unfold doMoveWithPromotion in Hdo.
    exists legals, (chosenMove (legal ui) m yes).
    split_and!; [done| |by apply Hcommit].
    apply Hsub. by apply chosenMove_in_list. }
  split_and!.
  - intros ui r c ui1. unfold pieceClick.
    destruct (cellAt (board (cur ui)) r c) as [pc|]; [|intros [= <-]; by left].
    case_bool_decide; [intros [= <-]; by left|].
    destruct (legalMoves (cur ui)) as [legals|] eqn:Hlegals; [|done]. cbn.
    intros [= <-]. right. split_and!; [done| |].
    + exists legals. split; [done|]. cbn [legal withSelection].
      by intros m [? _]%elem_of_filter_bool.
    + cbn [legal withSelection]. intros m [_ Hfrom]%elem_of_filter_bool.
      destruct m as [[fr fc] to pm|]; [|done]. cbn [fst snd] in Hfrom.
      apply andb_true_iff in Hfrom as [->%Z.eqb_eq ->%Z.eqb_eq]. eauto.
  - intros ui player ty ui1. unfold handClick.
    case_bool_decide; [intros [= <-]; by left|].
    destruct (legalMoves (cur ui)) as [legals|] eqn:Hlegals; [|done]. cbn.
    intros [= <-]. right. split_and!; [done| |].
    + exists legals. split; [done|]. cbn [legal withSelection].
      by intros m [? _]%elem_of_filter_bool.
    + cbn [legal withSelection]. intros m [_ Hty]%elem_of_filter_bool.
      destruct m as [|ty' to]; [done|].
      apply bool_decide_eq_true in Hty as ->. eauto.
  - done.
  - intros ui x y ui2 (legals & Hlegals & Hsub). unfold boardClick.
    destruct (selected ui) as [sel|]; [|intros [= <-]; by left].
    destruct (screenToBoard (flipped ui) x y) as [target|];
      [|intros [= <-]; by left].
    destruct sel as [from|ty]; [intros [= <-]; by left|].
    destruct (List.find (hasTo target) (legal ui)) as [mv|] eqn:Hfind;
      [|intros [= <-]; by left].
    intros Hdo. right. exists legals, mv.
    apply find_some in Hfind as [Hin%list_elem_of_In _].
    split_and!; [done|by apply Hsub|by apply Hcommit].
  - intros ui m yes ui2 Hreach Hoff Hm Hdo.
    destruct (Hplay ui m yes ui2 Hoff Hm Hdo) as (legals & m' & ? & ? & ?).
    by eapply reachable_move.
Qed.

(** A click on the pawn in front of Sente's king, then on its target. *)
Lemma selection_then_click_plays_a_legal_move_witness :
  ∃ ui1 ui2,
    pieceClick (mkUi initialState [] [] false None [] W) 6 4 = Some ui1 ∧
    doMoveWithPromotion ui1 (BoardMove (6, 4) (5, 4) false) false = Some ui2 ∧
    reachable (cur ui2).
Proof.
  eexists. eexists.
  split; [vm_compute; reflexivity|]. split; [vm_compute; reflexivity|].
  destruct selection_then_click_plays_a_legal_move
    as (Hpiece & _ & _ & _ & Hplay).
  match goal with
  | |- reachable (cur ?ui2) =>
      destruct (Hpiece (mkUi initialState [] [] false None [] W) 6 4 _
                  ltac:(vm_compute; reflexivity))
        as [Hsame|(Hcur & Hoff & _)]; [discriminate Hsame|];
      eapply (Hplay _ (BoardMove (6, 4) (5, 4) false) false ui2 _ Hoff)
  end.
  - apply elem_of_computed. vm_compute. reflexivity.
  - vm_compute. reflexivity.
  Unshelve. apply reachable_initial.
Defined.

(** ** The two sides *)

(** X23. The rules are the same for both sides: on a 9x9 board, a move is a
    pseudo move of a position exactly when the move turned by half a turn is
    a pseudo move of the position turned by half a turn with the sides
    exchanged (board, hands and turn). The starting array is its own image
    under that turn. *)
Theorem pseudo_moves_are_mirror_symmetric state m :
  wf_board (board state) →
  (m ∈ genAllPseudo state ↔
   mirrorMove m ∈ genAllPseudo (mirrorState state)) ∧
  mirrorBoard startPosition = startPosition.
Proof.
  intros Hwf. split; [|reflexivity]. split.
  - by apply mirror_pseudo.
  - intros Hm. apply mirror_pseudo in Hm; [|by apply mirrorBoard_wf].
    by rewrite mirrorState_involutive, mirrorMove_involutive in Hm.
Qed.

(** Sente's first pawn step and Gote's, seen from the other side. *)
Lemma pseudo_moves_are_mirror_symmetric_witness :
  (BoardMove (6, 4) (5, 4) false ∈ genAllPseudo initialState ↔
   mirrorMove (BoardMove (6, 4) (5, 4) false) ∈
     genAllPseudo (mirrorState initialState)) ∧
  mirrorBoard startPosition = startPosition.
Proof.
  apply (pseudo_moves_are_mirror_symmetric initialState
           (BoardMove (6, 4) (5, 4) false)).
  split; [reflexivity|]. repeat constructor.
Defined.

(** ** Pieces promoted to gold *)

(** X24. A promoted silver, knight or pawn moves one step in the six
    directions of the gold (turned for Gote). A promoted lance has the same
    six directions but slides: [isSlider] looks at the type only, so the
    promoted lance goes any number of steps over empty squares in each of
    them. *)
Theorem gold_promoted_pieces_step_but_lance_slides brd r c piece to :
  inBounds r c = true →
  cellAt brd r c = Some piece →
  pr piece = true → PROMOTES_TO_GOLD (t piece) = true →
  (∃ promote, BoardMove (r, c) to promote ∈ genPseudoMoves brd r c) ↔
  ∃ d k,
    d ∈ map (λ d, rotateFor (p piece) d.1 d.2) goldLikeDirs ∧
    1 ≤ k ∧ (t piece ≠ tL → k = 1) ∧
    to = (r + k * d.1, c + k * d.2) ∧
    clearPath brd r c d k ∧ landing brd piece to.
Proof.
  intros Hin Hpiece Hpr Hgold.
  assert (baseDirs piece = map (λ d, rotateFor (p piece) d.1 d.2) goldLikeDirs)
    as Hdirs.
  { unfold baseDirs, dirsFor. rewrite Hpr. by destruct (t piece). }
  assert (extraDirs piece = []) as Hextra.
  { unfold extraDirs. by destruct (t piece), (pr piece). }
  assert (isSlider piece = false ↔ t piece ≠ tL) as Hslider.
  { unfold isSlider. rewrite Hpr. by destruct (t piece). }
  rewrite genPseudoMoves_any_flag by done. rewrite <- Hdirs. split.
  - intros (piece' & Hpiece' & _ & [(d & k & Hd & Hk & Hstep & -> & Hclear)
                                    |(d & Hd & _)] & Hland); simplify_eq.
    + exists d, k. split_and!; try done. intros. by apply Hstep, Hslider.
    + rewrite Hextra in Hd. by apply elem_of_nil in Hd.
  - intros (d & k & Hd & Hk & Hstep & -> & Hclear & Hland).
    exists piece. split_and!; try done. left. exists d, k.
    split_and!; try done. intros. by apply Hstep, Hslider.
Qed.

(** A promoted Sente lance on (4,4) of an otherwise empty board goes three
    squares to the left. *)
Lemma gold_promoted_pieces_step_but_lance_slides_witness :
  ∃ d k,
    d ∈ map (λ d, rotateFor B d.1 d.2) goldLikeDirs ∧
    1 ≤ k ∧ (tL ≠ tL → k = 1) ∧
    (4, 1) = (4 + k * d.1, 4 + k * d.2) ∧
    clearPath (board promotedLance) 4 4 d k ∧
    landing (board promotedLance) {| t := tL; p := B; pr := true |} (4, 1).
Proof.
  apply (proj1 (gold_promoted_pieces_step_but_lance_slides (board promotedLance) 4 4
                  {| t := tL; p := B; pr := true |} (4, 1)
                  eq_refl eq_refl eq_refl eq_refl)).
  exists false. apply elem_of_computed. vm_compute. reflexivity.
Defined.

(** ** The two sides, continued *)

(** X25. [makeMove] treats both sides alike: on a 9x9 board, making the
    turned move in the turned position gives the turned result (board, hands
    and turn), and fails exactly when the move fails in the position
    itself. *)
Theorem makeMove_commutes_with_turning_the_board state m :
  wf_board (board state) →
  makeMove (mirrorState state) (mirrorMove m) =
  mirrorState <$> makeMove state m.
Proof.
  intros Hwf. destruct (makeMove state m) as [ns|] eqn:Hns.
  - by apply makeMove_mirror.
  - destruct (makeMove (mirrorState state) (mirrorMove m)) as [ns'|] eqn:Hns';
      [|done].
    apply makeMove_mirror in Hns'; [|by apply mirrorBoard_wf].
    rewrite mirrorState_involutive, mirrorMove_involutive in Hns'. congruence.
Qed.

(** Sente's first pawn step, made by Gote on the turned board. *)
Lemma makeMove_commutes_with_turning_the_board_witness :
  makeMove (mirrorState initialState)
           (mirrorMove (BoardMove (6, 4) (5, 4) false)) =
  mirrorState <$> makeMove initialState (BoardMove (6, 4) (5, 4) false).
Proof.
  apply (makeMove_commutes_with_turning_the_board initialState
           (BoardMove (6, 4) (5, 4) false)).
  split; [reflexivity|]. repeat constructor.
Defined.

(** X26. In every position of a game, a move is legal exactly when the
    turned move is legal in the turned position: the legality filter gives
    neither side an advantage. *)
Theorem legal_moves_are_mirror_symmetric state :
  reachable state →
  ∃ legals legals',
    legalMoves state = Some legals ∧
    legalMoves (mirrorState state) = Some legals' ∧
    ∀ m, m ∈ legals ↔ mirrorMove m ∈ legals'.
Proof. intros Hreach. by apply legalMoves_mirror, reachable_gameInv. Qed.

(** The starting position. *)
Lemma legal_moves_are_mirror_symmetric_witness :
  ∃ legals legals',
    legalMoves initialState = Some legals ∧
    legalMoves (mirrorState initialState) = Some legals' ∧
    ∀ m, m ∈ legals ↔ mirrorMove m ∈ legals'.
Proof.
  apply (legal_moves_are_mirror_symmetric initialState). constructor.
Defined.

(** ** Highlighted targets *)

(** X27. The rectangle [paintLegalTargets] draws for a target square is the
    cell of that square moved up and to the left by half a cell: its corner is
    50 units before the corner of the cell on both axes, so a point of the
    rectangle is mapped by [screenToBoard] to the target exactly when it lies
    in the lower right quarter of the rectangle. *)
Theorem highlight_is_half_a_cell_off_the_target flipped r c x y :
  inBounds r c = true →
  (paintLegalTargets flipped (r, c)).1 ≤ x
    < (paintLegalTargets flipped (r, c)).1 + 100 →
  (paintLegalTargets flipped (r, c)).2 ≤ y
    < (paintLegalTargets flipped (r, c)).2 + 100 →
  (paintLegalTargets flipped (r, c)).1 =
    (boardToScreen flipped r c).1 - MARGIN_X - 50 ∧
  (paintLegalTargets flipped (r, c)).2 =
    (boardToScreen flipped r c).2 - MARGIN_Y - 50 ∧
  (screenToBoard flipped x y = Some (r, c) ↔
   (paintLegalTargets flipped (r, c)).1 + 50 ≤ x ∧
   (paintLegalTargets flipped (r, c)).2 + 50 ≤ y).
Proof.
  intros [Hr Hc]%inBounds_spec.
  unfold paintLegalTargets, boardToScreen, screenToBoard, CELL, MARGIN_X,
    MARGIN_Y.
  cbn [fst snd]. intros Hx Hy.
  pose proof (Z.div_mod (x - 50) 100 ltac:(lia)) as Hxq.
  pose proof (Z.mod_pos_bound (x - 50) 100 ltac:(lia)) as Hxr.
  pose proof (Z.div_mod (y - 50) 100 ltac:(lia)) as Hyq.
  pose proof (Z.mod_pos_bound (y - 50) 100 ltac:(lia)) as Hyr.
  revert Hxq Hxr Hyq Hyr.
  generalize ((x - 50) / 100) ((x - 50) mod 100)
             ((y - 50) / 100) ((y - 50) mod 100).
  intros qx mx qy my Hxq Hxr Hyq Hyr.
  split; [destruct flipped; lia|]. split; [destruct flipped; lia|].
  destruct ((qy <? 0) || (8 <? qy) || (qx <? 0) || (8 <? qx)) eqn:Hout.
  - split; [done|]. intros [? ?]. exfalso.
    rewrite !orb_true_iff, !Z.ltb_lt in Hout. destruct flipped; lia.
  - rewrite !orb_false_iff, !Z.ltb_ge in Hout. split.
    + intros [= ? ?]. destruct flipped; lia.
    + intros [? ?]. destruct flipped; repeat f_equal; lia.
Qed.

(** The point (460, 470) of the rectangle drawn for the square (4,4). *)
Lemma highlight_is_half_a_cell_off_the_target_witness :
  (paintLegalTargets false (4, 4)).1 =
    (boardToScreen false 4 4).1 - MARGIN_X - 50 ∧
  (paintLegalTargets false (4, 4)).2 =
    (boardToScreen false 4 4).2 - MARGIN_Y - 50 ∧
  (screenToBoard false 460 470 = Some (4, 4) ↔
   (paintLegalTargets false (4, 4)).1 + 50 ≤ 460 ∧
   (paintLegalTargets false (4, 4)).2 + 50 ≤ 470).
Proof.
  apply (highlight_is_half_a_cell_off_the_target false 4 4 460 470);
    [reflexivity|cbn; lia..].
Defined.

(** * The text of the compared documents *)

(** X28. [normalizeText] returns a string without carriage return and
    without tab, with no two spaces in a row and no white space at either
    end; it leaves exactly those strings as they are, so normalising twice is
    normalising once. Line feeds inside the text are kept. *)
Theorem normalizeText_gives_the_normal_form raw :
  normalText (normalizeText raw) ∧
  (normalizeText raw = raw ↔ normalText raw) ∧
  normalizeText (normalizeText raw) = normalizeText raw.
Proof.
  split_and!.
  - apply normalizeText_normal.
  - split; [|apply normalizeText_id]. intros <-. apply normalizeText_normal.
  - apply normalizeText_id, normalizeText_normal.
Qed.

(** X29. The lines [extractTextLines] returns hold no line feed, no carriage
    return, no tab and no two spaces in a row. None of them is the empty
    string (line feeds in a row give no empty line between them), unless the
    whole text normalises to the empty string: then the result is one empty
    line. *)
Theorem extractTextLines_has_no_empty_line text :
  (∀ line, line ∈ extractTextLines text →
           (10 ∉ line) ∧ (13 ∉ line) ∧ (9 ∉ line) ∧ noDoubleSpace line) ∧
  (normalizeText text = [] → extractTextLines text = [[]]) ∧
  (normalizeText text ≠ [] →
   ∀ line, line ∈ extractTextLines text → line ≠ []).
Proof.
  unfold extractTextLines.
  pose proof (normalizeText_normal text) as (Hcr & Htab & Hno & Hhead & Hlast).
  split_and!.
  - intros line (Hlf & s1 & s2 & Hseg)%splitLines_segment.
    rewrite Hseg in Hcr, Htab, Hno.
    rewrite !not_elem_of_app in Hcr, Htab.
    apply noDoubleSpace_app in Hno as [_ [? _]%noDoubleSpace_app].
    naive_solver.
  - by intros ->.
  - intros Hne line Hline.
    destruct (splitLines_nonempty false (normalizeText text)) as [_ Hall];
      [done|by intros ?%Hlast|].
    rewrite Forall_forall in Hall. apply Hall; [|done].
    right. by intros ?%Hhead.
Qed.
